(** * etl.py: the movie enrichment pipeline, embedded in Rocq

    The development follows the source file top to bottom:
    - [PyStr]: the [str] methods the pipeline calls;
    - [Json]: the values [requests.Response.json] produces;
    - [Omdb]: [omdb_lookup] over an explicit file cache, with the file
      system and the network as oracles;
    - [Genres]: [parse_genres] and the [dict.fromkeys] merge of [main];
    - [Title]: the title/year split at the top of the movie loop of [main];
    - [Db]: the SQL statements of [upsert_movie], [get_or_create_*],
      [link_movie_*] and [load_ratings] over explicit tables, in a small
      exception monad;
    - [Driver]: [main], with the transaction the connection holds.

    A Python [str] is a Rocq [string] whose characters are code points
    below 256. The builtins are those of CPython 3.11. *)

From Stdlib Require Import ZArith QArith Ascii String DecimalString.
From Stdlib Require DecimalPos.
From stdpp Require Import base option list strings gmap.

Set Warnings "-register-all,-clear-no-such-hyp".
Local Open Scope string_scope.
Local Open Scope Z_scope.
Local Open Scope list_scope.

(** Exceptions the modelled code raises or lets through. *)
Inductive violation := UniqueViolation | NotNullViolation | ForeignKeyViolation | CheckViolation.

Inductive exn :=
  | IntegrityError (v : violation)
  | OperationalError
  | InterfaceError
  | ProgrammingError
  | OverflowError
  | OSError
  | AttributeError
  | TypeError
  | ValueError
  | IndexError.

Definition is_integrity (e : exn) : bool :=
  match e with IntegrityError _ => true | _ => false end.

(** ** Python string methods *)
Module PyStr.

(** [str.isspace] on a single code point below 256. *)
Definition is_space (a : ascii) : bool :=
  let n := nat_of_ascii a in
  ((9 <=? n)%nat && (n <=? 13)%nat) || ((28 <=? n)%nat && (n <=? 32)%nat)
  || (n =? 133)%nat || (n =? 160)%nat.

Definition is_empty (s : string) : bool :=
  match s with EmptyString => true | String _ _ => false end.

(** Dropping the leading, and the trailing, characters that satisfy [p]. *)
Fixpoint lstrip_by (p : ascii → bool) (s : string) : string :=
  match s with
  | EmptyString => EmptyString
  | String a r => if p a then lstrip_by p r else s
  end.

Fixpoint rstrip_by (p : ascii → bool) (s : string) : string :=
  match s with
  | EmptyString => EmptyString
  | String a r =>
      let r' := rstrip_by p r in
      if p a && is_empty r' then EmptyString else String a r'
  end.

(** [s.strip()] *)
Definition strip (s : string) : string := rstrip_by is_space (lstrip_by is_space s).

(** [s.rstrip(c)] for a one-character argument. *)
Definition rstrip_char (c : ascii) (s : string) : string :=
  rstrip_by (λ a, Ascii.eqb a c) s.

(** [c in s] for a one-character [c]. *)
Fixpoint contains (c : ascii) (s : string) : bool :=
  match s with
  | EmptyString => false
  | String a r => Ascii.eqb a c || contains c r
  end.

(** [s.startswith(p)] *)
Fixpoint startswith (p s : string) : bool :=
  match p, s with
  | EmptyString, _ => true
  | String _ _, EmptyString => false
  | String a p', String b s' => Ascii.eqb a b && startswith p' s'
  end.

(** [p in s] for a string [p]. *)
Fixpoint has_substring (p s : string) : bool :=
  startswith p s ||
  match s with
  | EmptyString => false
  | String _ r => has_substring p r
  end.

(** [s.endswith(c)] for a one-character argument. *)
Fixpoint endswith (c : ascii) (s : string) : bool :=
  match s with
  | EmptyString => false
  | String a EmptyString => Ascii.eqb a c
  | String _ r => endswith c r
  end.

(** [s.split(c)]: one piece more than there are separators. *)
Fixpoint split (c : ascii) (s : string) : list string :=
  match s with
  | EmptyString => [EmptyString]
  | String a r =>
      if Ascii.eqb a c then EmptyString :: split c r
      else match split c r with
           | p :: ps => String a p :: ps
           | [] => [String a EmptyString]
           end
  end.

(** [s.split()]: the maximal runs of non-space characters. *)
Fixpoint split_ws_aux (cur : string) (s : string) : list string :=
  match s with
  | EmptyString => if is_empty cur then [] else [cur]
  | String a r =>
      if is_space a
      then (if is_empty cur then split_ws_aux EmptyString r
            else cur :: split_ws_aux EmptyString r)
      else split_ws_aux (cur +:+ String a EmptyString) r
  end.

Definition split_ws (s : string) : list string := split_ws_aux EmptyString s.

(** The cut [s.rsplit(c, 1)] makes: the text before and after the last [c]. *)
Fixpoint rsplit_last (c : ascii) (s : string) : option (string * string) :=
  match s with
  | EmptyString => None
  | String a r =>
      match rsplit_last c r with
      | Some (l, t) => Some (String a l, t)
      | None => if Ascii.eqb a c then Some (EmptyString, r) else None
      end
  end.

(** [s.rsplit(c, 1)] *)
Definition rsplit1 (c : ascii) (s : string) : list string :=
  match rsplit_last c s with
  | Some (l, t) => [l; t]
  | None => [s]
  end.

(** [s.replace(a, b)] for one-character arguments. *)
Fixpoint replace (a b : ascii) (s : string) : string :=
  match s with
  | EmptyString => EmptyString
  | String x r => String (if Ascii.eqb x a then b else x) (replace a b r)
  end.

(** [str(n)] for an [int]. *)
Definition str_of_int (n : Z) : string := NilZero.string_of_int (Z.to_int n).

Definition digit_val (a : ascii) : option Z :=
  let n := nat_of_ascii a in
  if (48 <=? n)%nat && (n <=? 57)%nat then Some (Z.of_nat n - 48) else None.

(** The digit part of an [int] literal: decimal digits, single underscores
    allowed between two digits. [prev] tells whether the previous character
    was a digit. *)
Fixpoint int_digits (acc : Z) (prev : bool) (s : string) : option Z :=
  match s with
  | EmptyString => if prev then Some acc else None
  | String a r =>
      match digit_val a with
      | Some d => int_digits (10 * acc + d) true r
      | None => if Ascii.eqb a "_" && prev then int_digits acc false r else None
      end
  end.

(** The white space [int] skips around the literal: of the code points
    below 128 only the six of C's [isspace]; the separators 28 to 31, which
    [str.strip] removes, are no white space here. *)
Definition is_int_space (a : ascii) : bool :=
  let n := nat_of_ascii a in
  ((9 <=? n)%nat && (n <=? 13)%nat) || (n =? 32)%nat || (n =? 133)%nat || (n =? 160)%nat.

(** The value of an [int] literal: surrounding white space is skipped and
    one sign is accepted. *)
Definition int_literal (s : string) : option Z :=
  match rstrip_by is_int_space (lstrip_by is_int_space s) with
  | String "+" r => int_digits 0 false r
  | String "-" r => Z.opp <$> int_digits 0 false r
  | t => int_digits 0 false t
  end.

(** The number of digit characters of [s]; signs, underscores and white
    space do not count, leading zeros do. *)
Fixpoint digit_count (s : string) : Z :=
  match s with
  | EmptyString => 0
  | String a r => (match digit_val a with Some _ => 1 | None => 0 end) + digit_count r
  end.

(** [sys.get_int_max_str_digits()], at its default. *)
Definition int_max_str_digits : Z := 4300.

(** [int(s)]: [None] stands for [ValueError], which a text with more digits
    than the interpreter's limit raises as well. *)
Definition py_int (s : string) : option Z :=
  if int_max_str_digits <? digit_count s then None else int_literal s.

End PyStr.

(** ** JSON values

    What [r.json()] and [json.loads] return: [None], [bool], [int], [str],
    [list] and [dict]. A [dict] is kept as its items in insertion order, and
    a key is looked up at its first item. (Numbers with a fraction are not
    represented; the pipeline reads no numeric field.) *)
Module Json.

Inductive json :=
  | JNull
  | JBool (b : bool)
  | JInt (n : Z)
  | JStr (s : string)
  | JArr (xs : list json)
  | JObj (items : list (string * json)).

(** Truth value of a Python object, as [if x:] and [x or y] test it. *)
Definition truthy (j : json) : bool :=
  match j with
  | JNull => false
  | JBool b => b
  | JInt n => negb (Z.eqb n 0)
  | JStr s => negb (PyStr.is_empty s)
  | JArr xs => match xs with [] => false | _ => true end
  | JObj items => match items with [] => false | _ => true end
  end.

Fixpoint assoc (k : string) (items : list (string * json)) : option json :=
  match items with
  | [] => None
  | (k', v) :: rest => if String.eqb k' k then Some v else assoc k rest
  end.

(** [d.get(k)]: [None] for a missing key; only a [dict] has the method. *)
Definition get (d : json) (k : string) : exn + json :=
  match d with
  | JObj items => inr (default JNull (assoc k items))
  | _ => inl AttributeError
  end.

End Json.
Import Json.

(** ** The metadata fetcher: [omdb_lookup] *)
Module Omdb.

(** What one pass through the [try] body does: [requests.get] raises,
    [r.json()] raises, [fname.write_text] raises because the file cannot be
    created, or a structured value comes back and is written. *)
Inductive response :=
  | TransportError
  | ParseError
  | WriteError
  | Structured (data : json).

(** The cache directory (file name to the value its JSON text decodes to),
    the number of HTTP requests issued so far, and the waits [time.sleep]
    was asked for, oldest first. [cache] lists the files that are there, can
    be read and hold a JSON document: a file holds what [json.dumps] wrote,
    and [json.loads] gives that value back. *)
Record world := World {
  cache : gmap string json;
  requests : nat;
  slept : list Z
}.

(** [if year:] on an optional [int]. *)
Definition year_given (year : option Z) : bool :=
  match year with
  | Some y => negb (Z.eqb y 0)
  | None => false
  end.

(** [safe_name = f"{title}__{year}" if year else title] *)
Definition safe_name (title : string) (year : option Z) : string :=
  match year with
  | Some y => if year_given year then title +:+ "__" +:+ PyStr.str_of_int y else title
  | None => title
  end.

(** [fname]: the name of the file inside [CACHE_DIR]. *)
Definition cache_file (title : string) (year : option Z) : string :=
  PyStr.replace "/" "_" (safe_name title year) +:+ ".json".

(** The [y] entry of [params], present only when [if year:] holds. *)
Definition year_param (year : option Z) : option string :=
  match year with
  | Some y => if year_given year then Some (PyStr.str_of_int y) else None
  | None => None
  end.

(** [{"Response": "False", "Error": "Failed after retries"}] *)
Definition failed_record : json :=
  JObj [("Response", JStr "False"); ("Error", JStr "Failed after retries")].

(** The [except Exception] branch is taken. *)
Definition is_failure (r : response) : bool :=
  match r with
  | Structured _ => false
  | _ => true
  end.

(** The waits of [k] failed attempts in a row, the first numbered [attempt]. *)
Definition backoff (attempt k : nat) : list Z :=
  (λ i, 2 ^ Z.of_nat (attempt + i)) <$> seq 0 k.

Section Lookup.

(** The file system, for a file name that is not in [cache]: the exception
    that [fname.exists()], [fname.read_text()] or [json.loads] raises, all
    three outside the [try]: [OSError] for a name the file system refuses
    (longer than it allows), or for a file that cannot be read, [ValueError]
    for a file that holds no JSON document. [None]: the file is not there. *)
Variable fs : string → option exn.

(** The remote service: the outcome of the [n]-th request of the run, given
    the [t] and [y] parameters it carries. *)
Variable network : nat → string → option string → response.

(** [for attempt in range(4)], with [k] iterations left. *)
Fixpoint attempts (k : nat) (attempt : nat) (title : string) (year : option Z)
    (w : world) : json * world :=
  match k with
  | O => (failed_record, w)
  | S k' =>
      let w1 := World (cache w) (S (requests w)) (slept w) in
      match network (requests w) title (year_param year) with
      | Structured data =>
          (data, World (<[cache_file title year := data]> (cache w1)) (requests w1) (slept w1))
      | _ =>
          attempts k' (S attempt) title year
            (World (cache w1) (requests w1) (slept w1 ++ [2 ^ Z.of_nat attempt]))
      end
  end.

(** [inl]: the exception that leaves the function, before any request. *)
Definition omdb_lookup (title : string) (year : option Z) (w : world)
    : exn + (json * world) :=
  match cache w !! cache_file title year with
  | Some data => inr (data, w)
  | None =>
      match fs (cache_file title year) with
      | Some e => inl e
      | None => inr (attempts 4 0 title year w)
      end
  end.

End Lookup.

End Omdb.

(** ** The genre normaliser *)
Module Genres.

Definition sentinel : string := "(no genres listed)".

(** The argument is [None] for Python's [None] and for a missing cell
    ([pd.isna]). *)
Definition parse_genres (genre_str : option string) : list string :=
  match genre_str with
  | None => []
  | Some s =>
      if PyStr.is_empty s then []
      else if PyStr.contains "|" s then
        PyStr.strip <$>
          filter (λ g, negb (PyStr.is_empty (PyStr.strip g))
                       && negb (String.eqb (PyStr.strip g) sentinel))
                 (PyStr.split "|" s)
      else
        PyStr.strip <$>
          filter (λ g, negb (PyStr.is_empty (PyStr.strip g))) (PyStr.split "," s)
  end.

(** [dict.fromkeys(xs)]: keys in insertion order; setting a key that is
    already present leaves its position. *)
Section Fromkeys.
Context {A : Type} `{EqDecision A}.

Definition dict_set (d : list A) (k : A) : list A :=
  if decide (k ∈ d) then d else d ++ [k].

Definition dict_fromkeys (xs : list A) : list A := foldl dict_set [] xs.

(** [list(dict.fromkeys(ml_genres + omdb_genres_list))] *)
Definition combine (ml_genres omdb_genres_list : list A) : list A :=
  dict_fromkeys (ml_genres ++ omdb_genres_list).

(** The specification's reading: keep an element, drop its later copies. *)
Fixpoint dedup_first (xs : list A) : list A :=
  match xs with
  | [] => []
  | x :: rest => x :: filter (λ y, y ≠ x) (dedup_first rest)
  end.

End Fromkeys.

End Genres.

(** ** The title parser *)
Module Title.

(** The body of the [try]: [inl] is the exception it raises. *)
Definition split_year (title_full : string) : exn + (string * Z) :=
  let parts := PyStr.rsplit1 "(" title_full in
  match parts !! 0%nat with
  | None => inl IndexError
  | Some p0 =>
      let title := PyStr.strip p0 in
      match parts !! 1%nat with
      | None => inl IndexError
      | Some p1 =>
          match PyStr.py_int (PyStr.rstrip_char ")" p1) with
          | None => inl ValueError
          | Some year => inr (title, year)
          end
      end
  end.

(** Lines 140-148 of [main]: the values of [title] and [year] afterwards. *)
Definition parse_title (title_full : string) : string * option Z :=
  if PyStr.endswith ")" title_full then
    match split_year title_full with
    | inr (title, year) => (title, Some year)
    | inl _ => (title_full, None)
    end
  else (title_full, None).

(** The specification's reading of the parenthetical: the text strictly
    between the last opening parenthesis and the final character. *)
Fixpoint drop_last (s : string) : string :=
  match s with
  | EmptyString => EmptyString
  | String a EmptyString => EmptyString
  | String a r => String a (drop_last r)
  end.

Definition spec_parse_title (title_full : string) : string * option Z :=
  if PyStr.endswith ")" title_full then
    match PyStr.rsplit_last "(" title_full with
    | Some (l, r) =>
        match PyStr.py_int (drop_last r) with
        | Some year => (PyStr.strip l, Some year)
        | None => (title_full, None)
        end
    | None => (title_full, None)
    end
  else (title_full, None).

End Title.

(** ** The relational store

    [schema.sql] is not part of the source; the tables are taken from the
    columns the statements name. Each table is the list of its rows in the
    order the engine scans them (insertion order). *)
Module Db.

(** A bound SQL parameter or stored column value. *)
Inductive sqlval :=
  | SNull
  | SInt (n : Z)
  | SText (s : string).

#[global] Instance sqlval_eq_dec : EqDecision sqlval.
Proof. solve_decision. Defined.

(** The SQL comparison [a = b] as a [WHERE] clause sees it: never true on
    [NULL]. *)
Definition sql_eq (a b : sqlval) : bool :=
  match a, b with
  | SNull, _ | _, SNull => false
  | _, _ => bool_decide (a = b)
  end.

Record movie := Movie {
  mv_id : Z;
  mv_movie_id : sqlval;
  mv_title : string;
  mv_year : option Z;
  mv_runtime_minutes : option Z;
  mv_plot : sqlval;
  mv_box_office : sqlval
}.

Record rating := Rating {
  rt_user_id : Z;
  rt_movie_ml_id : Z;
  rt_rating : Q;
  rt_timestamp : Z
}.

Record tables := Tables {
  movies : list movie;
  genres : list (Z * string);
  directors : list (Z * string);
  movie_genres : list (Z * Z);
  movie_directors : list (Z * Z);
  ratings : list rating
}.

(** Modelled from the spec: [schema.sql] is missing, so the id a new row
    gets ("its generated id") is the engine's default, one more than the
    largest id in the table, and 1 in an empty table. *)
Definition lastrowid (ids : list Z) : Z :=
  match ids with
  | [] => 1
  | i :: rest => 1 + foldr Z.max i rest
  end.

(** [WHERE movie_id = :mid OR title = :title] *)
Definition movie_matches (mid : sqlval) (title : string) (m : movie) : bool :=
  sql_eq (mv_movie_id m) mid || String.eqb (mv_title m) title.

(** The rows the [WHERE] clause selects, in scan order. *)
Definition matching (mid : sqlval) (title : string) (ms : list movie) : list movie :=
  filter (λ m, movie_matches mid title m = true) ms.

(** [SELECT id FROM movies WHERE movie_id = :mid OR title = :title], then
    [fetchone()]. *)
Definition select_movie (mid : sqlval) (title : string) (ms : list movie) : option Z :=
  mv_id <$> head (matching mid title ms).

(** [UPDATE movies SET year=, runtime_minutes=, plot=, box_office= WHERE id=:id] *)
Definition update_row (id : Z) (year runtime : option Z) (plot box_office : sqlval)
    (m : movie) : movie :=
  if Z.eqb (mv_id m) id
  then Movie (mv_id m) (mv_movie_id m) (mv_title m) year runtime plot box_office
  else m.

Definition update_movie (id : Z) (year runtime : option Z) (plot box_office : sqlval)
    (ms : list movie) : list movie :=
  update_row id year runtime plot box_office <$> ms.

(** [INSERT INTO movies (movie_id, title, year, runtime_minutes, plot, box_office)] *)
Definition insert_movie (mid : sqlval) (title : string) (year runtime : option Z)
    (plot box_office : sqlval) (ms : list movie) : Z * list movie :=
  let id := lastrowid (mv_id <$> ms) in
  (id, ms ++ [Movie id mid title year runtime plot box_office]).

(** [SELECT id FROM genres WHERE name=:name] (and the same on [directors]). *)
Definition select_name (name : string) (rows : list (Z * string)) : option Z :=
  fst <$> head (filter (λ r, String.eqb (snd r) name = true) rows).

(** Modelled from the spec: [schema.sql] is missing; [name] is unique in
    [genres] and in [directors]. [INSERT INTO genres (name) VALUES (:name)]. *)
Definition insert_name (name : string) (rows : list (Z * string))
    : violation + (Z * list (Z * string)) :=
  if bool_decide (name ∈ rows.*2) then inl UniqueViolation
  else let id := lastrowid rows.*1 in inr (id, rows ++ [(id, name)]).

(** Modelled from the spec: [schema.sql] is missing; the pair is unique in
    [movie_genres] and in [movie_directors].
    [INSERT INTO movie_genres (movie_id, genre_id) VALUES (:m,:g)]. *)
Definition insert_link (m x : Z) (rows : list (Z * Z)) : violation + list (Z * Z) :=
  if bool_decide ((m, x) ∈ rows) then inl UniqueViolation
  else inr (rows ++ [(m, x)]).

(** The primary key of a [ratings] row. *)
Definition rating_key (r : rating) : Z * Z := (rt_user_id r, rt_movie_ml_id r).

Definition same_key (a b : rating) : bool :=
  Z.eqb (rt_user_id a) (rt_user_id b) && Z.eqb (rt_movie_ml_id a) (rt_movie_ml_id b).

(** Modelled from the spec: [schema.sql] is missing; the primary key of
    [ratings] is [(user_id, movie_ml_id)], as the comment in [load_ratings]
    says. [INSERT OR REPLACE INTO ratings]: the rows in conflict are deleted,
    then the new row is inserted. *)
Definition replace_rating (r : rating) (rows : list rating) : list rating :=
  filter (λ old, same_key old r = false) rows ++ [r].

(** *** The connection

    [tx] is what the statements of the open transaction have produced so
    far; [executed] counts the calls of [conn.execute]. *)
Record conn := Conn {
  tx : tables;
  executed : nat
}.

Inductive outcome (A : Type) :=
  | Ok (a : A) (c : conn)
  | Raise (e : exn) (c : conn).
Arguments Ok {A} a c.
Arguments Raise {A} e c.

Definition M (A : Type) : Type := conn → outcome A.

#[global] Instance M_ret : MRet M := λ A a c, Ok a c.
#[global] Instance M_bind : MBind M := λ A B f m c,
  match m c with
  | Ok a c' => f a c'
  | Raise e c' => Raise e c'
  end.

(** [try: body except <class>: handler], where [catches] picks the class. *)
Definition try_except {A} (body : M A) (catches : exn → bool) (handler : M A) : M A :=
  λ c, match body c with
       | Ok a c' => Ok a c'
       | Raise e c' => if catches e then handler c' else Raise e c'
       end.

Section Statements.

(** What happens to the [n]-th call of [conn.execute] for reasons the tables
    above do not decide: the engine or the link to it fails the statement
    (lost connectivity, a constraint of the missing schema), or, in
    [load_ratings], a cell of the row does not convert ([int], [float]) or
    the driver cannot bind the number. The exception leaves the call, and no
    row has changed. [None]: the statement runs. *)
Variable faults : nat → option exn.

(** [conn.execute(text(...), params)]: a failed statement changes no row. *)
Definition execute {A} (stmt : tables → violation + (A * tables)) : M A :=
  λ c, let c' := Conn (tx c) (S (executed c)) in
       match faults (executed c) with
       | Some e => Raise e c'
       | None =>
           match stmt (tx c) with
           | inl v => Raise (IntegrityError v) c'
           | inr (a, t) => Ok a (Conn t (S (executed c)))
           end
       end.

Definition with_movies (f : list movie → list movie) (t : tables) : tables :=
  Tables (f (movies t)) (genres t) (directors t) (movie_genres t) (movie_directors t) (ratings t).

Definition upsert_movie (movie_unique_id : sqlval) (title : string) (year runtime : option Z)
    (plot box_office : sqlval) : M Z :=
  r ← execute (λ t, inr (select_movie movie_unique_id title (movies t), t));
  match r with
  | Some movie_db_id =>
      _ ← execute (λ t, inr (tt, with_movies (update_movie movie_db_id year runtime plot box_office) t));
      mret movie_db_id
  | None =>
      execute (λ t,
        let '(id, ms) := insert_movie movie_unique_id title year runtime plot box_office (movies t) in
        inr (id, with_movies (λ _, ms) t))
  end.

Definition get_or_create_genre (name : string) : M Z :=
  r ← execute (λ t, inr (select_name name (genres t), t));
  match r with
  | Some id => mret id
  | None =>
      execute (λ t,
        match insert_name name (genres t) with
        | inl v => inl v
        | inr (id, rows) =>
            inr (id, Tables (movies t) rows (directors t) (movie_genres t) (movie_directors t) (ratings t))
        end)
  end.

Definition link_movie_genre (movie_db_id genre_id : Z) : M unit :=
  try_except
    (execute (λ t,
       match insert_link movie_db_id genre_id (movie_genres t) with
       | inl v => inl v
       | inr rows =>
           inr (tt, Tables (movies t) (genres t) (directors t) rows (movie_directors t) (ratings t))
       end))
    is_integrity
    (mret tt).

Definition get_or_create_director (name : string) : M Z :=
  r ← execute (λ t, inr (select_name name (directors t), t));
  match r with
  | Some id => mret id
  | None =>
      execute (λ t,
        match insert_name name (directors t) with
        | inl v => inl v
        | inr (id, rows) =>
            inr (id, Tables (movies t) (genres t) rows (movie_genres t) (movie_directors t) (ratings t))
        end)
  end.

Definition link_movie_director (movie_db_id director_id : Z) : M unit :=
  try_except
    (execute (λ t,
       match insert_link movie_db_id director_id (movie_directors t) with
       | inl v => inl v
       | inr rows =>
           inr (tt, Tables (movies t) (genres t) (directors t) (movie_genres t) rows (ratings t))
       end))
    is_integrity
    (mret tt).

(** A row of [ratings_df] is taken after the [int] and [float] conversions;
    where they raise, the exception leaves [load_ratings] at the statement
    of that row (see [faults]) and the row is not read. *)
Fixpoint load_ratings (ratings_df : list rating) : M unit :=
  match ratings_df with
  | [] => mret tt
  | row :: rest =>
      _ ← execute (λ t,
            inr (tt, Tables (movies t) (genres t) (directors t) (movie_genres t)
                       (movie_directors t) (replace_rating row (ratings t))));
      load_ratings rest
  end.

(** No statement numbered from [lo] up to [hi] was hit by an error of
    another class than [IntegrityError]. *)
Definition tolerated (lo hi : nat) : Prop :=
  ∀ n, (lo ≤ n < hi)%nat →
    match faults n with
    | Some e => is_integrity e = true
    | None => True
    end.

(** An operation returns normally only if every error of another class than
    [IntegrityError] stayed away from its statements. *)
Definition sound {A} (m : M A) : Prop :=
  ∀ c a c', m c = Ok a c' →
    (executed c ≤ executed c')%nat ∧ tolerated (executed c) (executed c').

End Statements.

End Db.

(** ** The pipeline driver: [main] *)
Module Driver.
Import Db.

(** A cell of a row of [movies_df] as [pd.read_csv] leaves it: a [str], a
    missing cell (a NaN [float]), or a number, when the whole column is
    numeric. Of a number only its being zero matters here (a [bool] counts
    as 1 or 0). *)
Inductive cell :=
  | Str (s : string)
  | NaN
  | Num (n : Z).

(** One row of [movies_df]. [movieId] is a column of integers. *)
Record movie_row := MovieRow {
  row_movieId : Z;
  row_title : cell;
  row_genres : cell
}.

(** The locals [main] fills from the OMDb record. *)
Record fields := Fields {
  imdb_id : json;
  runtime : option Z;
  plot : json;
  box_office : json;
  omdb_genres : json;
  director_field : json
}.

(** Lines 154-159: the [try] that reads ["Runtime"]; every exception gives
    [None]. A value that is not a [str] raises in the test or in [split]. *)
Definition parse_runtime (omdb : json) : option Z :=
  match Json.get omdb "Runtime" with
  | inr (JStr s) =>
      if negb (PyStr.is_empty s) && PyStr.has_substring "min" s then
        match PyStr.split_ws s with
        | tok :: _ => PyStr.py_int tok
        | [] => None
        end
      else None
  | _ => None
  end.

Definition is_True (j : json) : bool :=
  match j with
  | JStr s => String.eqb s "True"
  | _ => false
  end.

(** Lines 152-170. *)
Definition extract (omdb : json) : exn + fields :=
  match Json.get omdb "Response" with
  | inl e => inl e
  | inr response =>
      if is_True response then
        match Json.get omdb "imdbID", Json.get omdb "Plot", Json.get omdb "BoxOffice",
              Json.get omdb "Genre", Json.get omdb "Director" with
        | inr i, inr p, inr b, inr g, inr d => inr (Fields i (parse_runtime omdb) p b g d)
        | _, _, _, _, _ => inl AttributeError
        end
      else inr (Fields JNull None JNull JNull JNull JNull)
  end.

(** Line 173: [imdb_id or f"ML_{ml_id}"], with [ml_id = str(row.movieId)]. *)
Definition movie_unique_id (row : movie_row) (f : fields) : json :=
  if truthy (imdb_id f) then imdb_id f
  else JStr ("ML_" +:+ PyStr.str_of_int (row_movieId row)).

(** What SQLite stores as an INTEGER: [-2**63 <= n < 2**63]. *)
Definition int64 (n : Z) : bool := (- 2 ^ 63 <=? n) && (n <? 2 ^ 63).

(** What the [sqlite3] driver does with a Python value bound to a
    statement: a [list] or a [dict] cannot be bound, and neither can an
    [int] that does not fit 64 bits. *)
Definition to_sql (j : json) : exn + sqlval :=
  match j with
  | JNull => inr SNull
  | JBool b => inr (SInt (if b then 1 else 0))
  | JInt n => if int64 n then inr (SInt n) else inl OverflowError
  | JStr s => inr (SText s)
  | JArr _ | JObj _ => inl ProgrammingError
  end.

(** The same for [year] and [runtime], an [int] or [None]. *)
Definition bindable_int (n : option Z) : bool :=
  match n with
  | Some k => int64 k
  | None => true
  end.

(** The parameters of the second statement of [upsert_movie], bound in the
    order the statement names them: [year], [runtime], [plot],
    [box_office]. *)
Definition bound_fields (year : option Z) (f : fields) : exn + (sqlval * sqlval) :=
  if negb (bindable_int year) then inl OverflowError
  else if negb (bindable_int (runtime f)) then inl OverflowError
  else
    match to_sql (plot f) with
    | inl e => inl e
    | inr p =>
        match to_sql (box_office f) with
        | inl e => inl e
        | inr b => inr (p, b)
        end
    end.

Definition raise {A} (e : exn) : M A := λ c, Raise e c.

Definition lift {A} (r : exn + A) : M A :=
  match r with
  | inl e => raise e
  | inr a => mret a
  end.

(** [for x in xs: body(x)] *)
Fixpoint for_each {A} (xs : list A) (body : A → M unit) : M unit :=
  match xs with
  | [] => mret tt
  | x :: rest => _ ← body x; for_each rest body
  end.

(** [parse_genres(row.genres)] on a cell of the catalog: a number that is
    not zero is neither false nor missing, and [in] does not apply to it. *)
Definition ml_genres_list (g : cell) : exn + list string :=
  match g with
  | Str s => inr (Genres.parse_genres (Some s))
  | NaN => inr (Genres.parse_genres None)
  | Num n => if Z.eqb n 0 then inr [] else inl TypeError
  end.

(** [parse_genres(omdb_genres) if omdb_genres else []] on a value of the
    record. A true value that is not a [str] gets into [parse_genres]: [in]
    does not apply to a number ([TypeError]); a [dict] passes the tests and
    has no [split] ([AttributeError]); for a [list] [pd.isna] gives an array
    whose truth value [or] asks for, and [isna_list] is what comes of that:
    the exception numpy raises (more than one element), or the truth value,
    with which the function returns [[]] or goes on to [split]. *)
Definition omdb_genres_list (isna_list : list json → exn + bool) (g : json)
    : exn + list string :=
  if truthy g then
    match g with
    | JStr s => inr (Genres.parse_genres (Some s))
    | JArr xs =>
        match isna_list xs with
        | inl e => inl e
        | inr true => inr []
        | inr false => inl AttributeError
        end
    | JObj _ => inl AttributeError
    | _ => inl TypeError
    end
  else inr [].

(** Lines 185-186: the names to link, [inr []] when the [if] fails. *)
Definition director_names (d : json) : exn + list string :=
  if truthy d then
    match d with
    | JStr s =>
        if String.eqb s "N/A" then inr []
        else inr (PyStr.strip <$>
                    filter (λ x, PyStr.is_empty (PyStr.strip x) = false) (PyStr.split "," s))
    | _ => inl AttributeError
    end
  else inr [].

Section Main.

Variable faults : nat → option exn.
Variable fs : string → option exn.
Variable network : nat → string → option string → Omdb.response.
Variable isna_list : list json → exn + bool.

(** Lines 172-189: the store operations for one movie. A parameter the
    driver cannot bind makes [conn.execute] raise before the statement
    reaches the engine: the identity at the [SELECT] of [upsert_movie], the
    other values at its second statement, after the [SELECT] has run. *)
Definition store_movie (row : movie_row) (title : string) (year : option Z) (f : fields) : M unit :=
  mid ← lift (to_sql (movie_unique_id row f));
  movie_db_id ←
    match bound_fields year f with
    | inl e =>
        _ ← execute faults (λ t, inr (select_movie mid title (movies t), t));
        raise e
    | inr (p, b) => upsert_movie faults mid title year (runtime f) p b
    end;
  ml_genres ← lift (ml_genres_list (row_genres row));
  og ← lift (omdb_genres_list isna_list (omdb_genres f));
  let combined_genres := Genres.combine ml_genres og in
  _ ← for_each combined_genres (λ g,
        gid ← get_or_create_genre faults g;
        link_movie_genre faults movie_db_id gid);
  names ← lift (director_names (director_field f));
  for_each names (λ dn,
    did ← get_or_create_director faults dn;
    link_movie_director faults movie_db_id did).

(** The body of the movie loop: the cache and the network on one side, the
    connection on the other. A title that is no [str] has no [endswith]. *)
Definition process_movie (row : movie_row) (w : Omdb.world) (c : conn)
    : outcome unit * Omdb.world :=
  match row_title row with
  | Str title_full =>
      let '(title, year) := Title.parse_title title_full in
      match Omdb.omdb_lookup fs network title year w with
      | inl e => (Raise e c, w)
      | inr (omdb, w1) =>
          match extract omdb with
          | inl e => (Raise e c, w1)
          | inr f => (store_movie row title year f c, w1)
          end
      end
  | _ => (Raise AttributeError c, w)
  end.

(** [for _, row in movies_df.iterrows(): ...] *)
Fixpoint movie_loop (movies_df : list movie_row) (w : Omdb.world) (c : conn)
    : outcome unit * Omdb.world :=
  match movies_df with
  | [] => (Ok tt c, w)
  | row :: rest =>
      match process_movie row w c with
      | (Ok _ c1, w1) => movie_loop rest w1 c1
      | (Raise e c1, w1) => (Raise e c1, w1)
      end
  end.

(** How a run ends: [status] is the exception that left [main], if any;
    [committed] is what the store holds afterwards; [disk] is the cache
    directory and the request log. *)
Record run := Run {
  status : option exn;
  committed : tables;
  disk : Omdb.world
}.

(** [main], from [with engine.connect() as conn:] on. [db] is the store as
    [ensure_schema] left it. Leaving the [with] block by an exception closes
    the connection, which rolls its transaction back. [conn.commit()] is one
    more call on the connection and can fail like a statement. *)
Definition main (movies_df : list movie_row) (ratings_df : list rating)
    (db : tables) (w : Omdb.world) : run :=
  match load_ratings faults ratings_df (Conn db 0) with
  | Raise e _ => Run (Some e) db w
  | Ok _ c1 =>
      match movie_loop movies_df w c1 with
      | (Raise e _, w') => Run (Some e) db w'
      | (Ok _ c2, w') =>
          match faults (executed c2) with
          | Some e => Run (Some e) db w'
          | None => Run None (tx c2) w'
          end
      end
  end.

End Main.

End Driver.

(** ** Assertions on the store operations *)
Module Hoare.
Import Db.

(** Started on tables that satisfy [P], the operation [m] ends normally with
    a value and tables that satisfy [Q], or raises an exception with tables
    that satisfy [E]. *)
Definition hoare {A} (P : tables → Prop) (m : M A)
    (Q : A → tables → Prop) (E : exn → tables → Prop) : Prop :=
  ∀ c, P (tx c) →
    match m c with
    | Ok a c' => Q a (tx c')
    | Raise e c' => E e (tx c')
    end.

(** What the statements assume of the tables and what a schema with these
    keys would enforce: row ids and names are keys, join pairs and rating
    keys occur once, and a join row names a movie and a genre (or director)
    that exist. *)
Record schema_ok (t : tables) : Prop := SchemaOk {
  ok_movie_ids : NoDup (mv_id <$> movies t);
  ok_genre_ids : NoDup (genres t).*1;
  ok_genre_names : NoDup (genres t).*2;
  ok_director_ids : NoDup (directors t).*1;
  ok_director_names : NoDup (directors t).*2;
  ok_movie_genres : NoDup (movie_genres t);
  ok_movie_directors : NoDup (movie_directors t);
  ok_ratings : NoDup (rating_key <$> ratings t);
  ok_genre_refs : ∀ m g, (m, g) ∈ movie_genres t →
    m ∈ (mv_id <$> movies t) ∧ g ∈ (genres t).*1;
  ok_director_refs : ∀ m d, (m, d) ∈ movie_directors t →
    m ∈ (mv_id <$> movies t) ∧ d ∈ (directors t).*1
}.

(** The columns of a movie row that no statement of the pipeline rewrites. *)
Definition movie_key (m : movie) : Z * sqlval * string :=
  (mv_id m, mv_movie_id m, mv_title m).

(** From [t] to [t'] rows were only added at the end of a table, movie rows
    kept their id, identity and title, and no rating changed. *)
Record grows (t t' : tables) : Prop := Grows {
  grows_movies : (movie_key <$> movies t) `prefix_of` (movie_key <$> movies t');
  grows_genres : genres t `prefix_of` genres t';
  grows_directors : directors t `prefix_of` directors t';
  grows_movie_genres : movie_genres t `prefix_of` movie_genres t';
  grows_movie_directors : movie_directors t `prefix_of` movie_directors t';
  grows_ratings : ratings t' = ratings t
}.

(** The movie row with id [m] is joined to a genre row, or to a director
    row, of the given name. *)
Definition has_genre (m : Z) (name : string) (t : tables) : Prop :=
  ∃ g, (g, name) ∈ genres t ∧ (m, g) ∈ movie_genres t.

Definition has_director (m : Z) (name : string) (t : tables) : Prop :=
  ∃ d, (d, name) ∈ directors t ∧ (m, d) ∈ movie_directors t.

(** From [t] to [t'] the movie rows are the same and the name and join
    tables only got rows at their end. *)
Record extends (t t' : tables) : Prop := Extends {
  extends_movies : movies t' = movies t;
  extends_genres : genres t `prefix_of` genres t';
  extends_directors : directors t `prefix_of` directors t';
  extends_movie_genres : movie_genres t `prefix_of` movie_genres t';
  extends_movie_directors : movie_directors t `prefix_of` movie_directors t'
}.

(** The catalog row [row], whose title parsed to [title], has a movie row
    that its fallback identity or its title selects, joined to every genre
    the catalog lists for it. *)
Definition catalogued (row : Driver.movie_row) (title : string) (t : tables) : Prop :=
  ∃ m, m ∈ movies t
    ∧ movie_matches (SText ("ML_" +:+ PyStr.str_of_int (Driver.row_movieId row))) title m = true
    ∧ ∀ gs g, Driver.ml_genres_list (Driver.row_genres row) = inr gs → g ∈ gs →
        has_genre (mv_id m) g t.

End Hoare.

(** ** Records the driver can digest *)
Module Records.

(** A value the database driver can bind to a statement: no [list], no
    [dict], and no [int] outside 64 bits. *)
Definition bindable (j : json) : bool :=
  match j with
  | JArr _ | JObj _ => false
  | JInt n => Driver.int64 n
  | _ => true
  end.

(** A [str], or a value the [if] tests of [main] take for false. *)
Definition text_or_absent (j : json) : bool :=
  match j with
  | JStr _ => true
  | _ => negb (truthy j)
  end.

Definition field (items : list (string * json)) (k : string) : json :=
  default JNull (Json.assoc k items).

(** A [dict] that, when its [Response] is ["True"], carries an [imdbID] that
    is false or bindable, a [Runtime] that reads as no number or as one of
    64 bits, a bindable [Plot] and [BoxOffice], and a [Genre] and a
    [Director] that are text or false. *)
Definition record_ok (omdb : json) : bool :=
  match omdb with
  | JObj items =>
      negb (Driver.is_True (field items "Response"))
      || ((bindable (field items "imdbID") || negb (truthy (field items "imdbID")))
          && Driver.bindable_int (Driver.parse_runtime omdb)
          && bindable (field items "Plot") && bindable (field items "BoxOffice")
          && text_or_absent (field items "Genre")
          && text_or_absent (field items "Director"))
  | _ => false
  end.

(** A [dict] whose [Response] is not ["True"]: the service found nothing,
    or refused, or the fetch gave up. *)
Definition declined (omdb : json) : bool :=
  match omdb with
  | JObj items => negb (Driver.is_True (field items "Response"))
  | _ => false
  end.

(** A genres cell [parse_genres] reads: a [str], a missing cell, or zero. *)
Definition genres_cell_ok (g : Driver.cell) : bool :=
  match g with
  | Driver.Num n => Z.eqb n 0
  | _ => true
  end.

(** A row of the catalog the loop can read: the title is a [str], the year
    read from it, if any, fits 64 bits, and [parse_genres] reads the genres
    cell. *)
Definition row_ok (row : Driver.movie_row) : bool :=
  match Driver.row_title row with
  | Driver.Str title_full =>
      Driver.bindable_int (Title.parse_title title_full).2
      && genres_cell_ok (Driver.row_genres row)
  | _ => false
  end.

(** What [record_ok] asks of a record with [Response] ["True"], on the
    locals [main] has filled from it. *)
Definition fields_ok (f : Driver.fields) : bool :=
  (bindable (Driver.imdb_id f) || negb (truthy (Driver.imdb_id f)))
  && Driver.bindable_int (Driver.runtime f)
  && bindable (Driver.plot f) && bindable (Driver.box_office f)
  && text_or_absent (Driver.omdb_genres f)
  && text_or_absent (Driver.director_field f).

(** What the store operations for one movie need, the engine apart: a year
    of 64 bits, a genres cell [parse_genres] reads, and locals that are
    [fields_ok]. *)
Definition store_ok (row : Driver.movie_row) (year : option Z) (f : Driver.fields) : bool :=
  Driver.bindable_int year && genres_cell_ok (Driver.row_genres row) && fields_ok f.

End Records.

Example strip_ex : PyStr.strip "  Toy Story 	" = "Toy Story".
Proof. reflexivity. Qed.
Example split_ex : PyStr.split "|" "a||b|" = ["a"; ""; "b"; ""].
Proof. reflexivity. Qed.
Example split_ws_ex : PyStr.split_ws " 142  min " = ["142"; "min"].
Proof. reflexivity. Qed.
Example rsplit_ex : PyStr.rsplit1 "(" "A (x) (1995)" = ["A (x) "; "1995)"].
Proof. reflexivity. Qed.
Example py_int_ex :
  PyStr.py_int " 1_995 " = Some 1995 ∧ PyStr.py_int "-07" = Some (-7)
  ∧ PyStr.py_int "1__9" = None ∧ PyStr.py_int "" = None ∧ PyStr.py_int "+" = None
  ∧ PyStr.py_int "19_" = None ∧ PyStr.py_int "abc" = None.
Proof. repeat split; reflexivity. Qed.
Example py_int_limit_ex :
  PyStr.py_int (string_of_list_ascii (replicate 4300 "1"%char)) ≠ None
  ∧ PyStr.py_int (string_of_list_ascii (replicate 4301 "1"%char)) = None
  ∧ PyStr.py_int (string_of_list_ascii (replicate 4301 "0"%char)) = None
  ∧ PyStr.py_int (String "-" (string_of_list_ascii (replicate 4300 "9"%char))) ≠ None.
Proof. repeat split; vm_compute; congruence. Qed.
Example py_int_separator_ex :
  PyStr.strip (String (ascii_of_nat 28) "5") = "5"
  ∧ PyStr.py_int (String (ascii_of_nat 28) "5") = None
  ∧ PyStr.py_int (String (ascii_of_nat 160) "5") = Some 5.
Proof. repeat split; reflexivity. Qed.
Example str_of_int_ex : PyStr.str_of_int 1995 = "1995" ∧ PyStr.str_of_int (-5) = "-5" ∧ PyStr.str_of_int 0 = "0".
Proof. repeat split; reflexivity. Qed.
Example parse_genres_ex :
  Genres.parse_genres (Some "Action|Adventure|(no genres listed)") = ["Action"; "Adventure"]
  ∧ Genres.parse_genres (Some "Comedy, Action") = ["Comedy"; "Action"]
  ∧ Genres.parse_genres (Some "") = [] ∧ Genres.parse_genres None = [].
Proof. repeat split; reflexivity. Qed.
Example combine_ex :
  Genres.combine ["Action"; "Adventure"] ["Comedy"; "Action"] = ["Action"; "Adventure"; "Comedy"].
Proof. reflexivity. Qed.
Example parse_title_ex :
  Title.parse_title "Toy Story (1995)" = ("Toy Story", Some 1995)
  ∧ Title.parse_title "Heat" = ("Heat", None)
  ∧ Title.parse_title "Weird (abc)" = ("Weird (abc)", None)
  ∧ Title.parse_title "nothing)" = ("nothing)", None).
Proof. repeat split; reflexivity. Qed.
Example cache_file_ex :
  Omdb.cache_file "Toy Story" (Some 1995) = "Toy Story__1995.json"
  ∧ Omdb.cache_file "Heat" None = "Heat.json"
  ∧ Omdb.cache_file "Face/Off" (Some 0) = "Face_Off.json".
Proof. repeat split; reflexivity. Qed.
Example to_sql_ex :
  Driver.to_sql (JInt (2 ^ 63 - 1)) = inr (Db.SInt (2 ^ 63 - 1))
  ∧ Driver.to_sql (JInt (2 ^ 63)) = inl OverflowError
  ∧ Driver.to_sql (JInt (- 2 ^ 63)) = inr (Db.SInt (- 2 ^ 63))
  ∧ Driver.to_sql (JArr [JInt 1]) = inl ProgrammingError
  ∧ Driver.to_sql (JBool true) = inr (Db.SInt 1).
Proof. repeat split; reflexivity. Qed.
Example omdb_genres_list_ex :
  Driver.omdb_genres_list (λ _, inr false) (JStr "Crime, Drama") = inr ["Crime"; "Drama"]
  ∧ Driver.omdb_genres_list (λ _, inr false) JNull = inr []
  ∧ Driver.omdb_genres_list (λ _, inr false) (JInt 7) = inl TypeError
  ∧ Driver.omdb_genres_list (λ _, inr false) (JArr [JStr "Drama"]) = inl AttributeError
  ∧ Driver.omdb_genres_list (λ _, inr false) (JObj [("a", JNull)]) = inl AttributeError
  ∧ Driver.ml_genres_list (Driver.Num 7) = inl TypeError
  ∧ Driver.ml_genres_list Driver.NaN = inr [].
Proof. repeat split; reflexivity. Qed.
Example parse_runtime_ex :
  Driver.parse_runtime (JObj [("Runtime", JStr "81 min")]) = Some 81
  ∧ Driver.parse_runtime (JObj [("Runtime", JStr "N/A")]) = None
  ∧ Driver.parse_runtime (JObj [("Runtime", JStr "1h 21min")]) = None
  ∧ Driver.parse_runtime (JObj [("Runtime", JArr [JStr "min"])]) = None.
Proof. repeat split; reflexivity. Qed.
(** A whole run on one catalog row and two rating rows, the network down. *)
Example main_ex :
  Driver.main (λ _, None) (λ _, None) (λ _ _ _, Omdb.TransportError) (λ _, inr false)
    [Driver.MovieRow 6 (Driver.Str "Heat (1995)") (Driver.Str "Action|Crime")]
    [Db.Rating 1 10 3 100; Db.Rating 1 10 (9 # 2) 200]
    (Db.Tables [] [] [] [] [] []) (Omdb.World ∅ 0 [])
  = Driver.Run None
      (Db.Tables
         [Db.Movie 1 (Db.SText "ML_6") "Heat" (Some 1995) None Db.SNull Db.SNull]
         [(1, "Action"); (2, "Crime")] []
         [(1, 1); (1, 2)] []
         [Db.Rating 1 10 (9 # 2) 200])
      (Omdb.World ∅ 4 [1; 2; 4; 8]).
Proof. vm_compute. reflexivity. Qed.

(** * Facts about the string methods *)
Section PyStrFacts.
Import PyStr.

Lemma is_empty_true s : is_empty s = true ↔ s = EmptyString.
Proof. destruct s; simpl; split; congruence. Qed.

Lemma is_empty_false s : is_empty s = false ↔ s ≠ EmptyString.
Proof. destruct s; simpl; split; congruence. Qed.

Lemma lstrip_by_head p s :
  lstrip_by p s = EmptyString ∨ ∃ a r, lstrip_by p s = String a r ∧ p a = false.
Proof.
  induction s as [|a s IH]; simpl; [by left|].
  destruct (p a) eqn:Ha; [done|]. right. by exists a, s.
Qed.

Lemma rstrip_by_cons p a r : p a = false → rstrip_by p (String a r) = String a (rstrip_by p r).
Proof. intros Ha. simpl. by rewrite Ha. Qed.

Lemma rstrip_by_idem p s : rstrip_by p (rstrip_by p s) = rstrip_by p s.
Proof.
  induction s as [|a s IH]; [done|]. simpl.
  destruct (p a && is_empty (rstrip_by p s)) eqn:E; [done|].
  simpl. rewrite IH, E. done.
Qed.

Lemma strip_idem s : strip (strip s) = strip s.
Proof.
  unfold strip. destruct (lstrip_by_head is_space s) as [->|(a & r & -> & Ha)]; [done|].
  rewrite (rstrip_by_cons _ _ _ Ha). simpl lstrip_by. rewrite Ha.
  rewrite (rstrip_by_cons _ _ _ Ha). by rewrite rstrip_by_idem.
Qed.

Lemma rsplit_last_None c s : rsplit_last c s = None ↔ contains c s = false.
Proof.
  induction s as [|a s IH]; simpl; [done|].
  destruct (rsplit_last c s) as [[l t]|].
  - split; [done|]. intros [_ H]%orb_false_iff. by apply IH in H.
  - destruct (Ascii.eqb a c); simpl; [done|]. split; [|done]. intros _. by apply IH.
Qed.

Lemma rsplit_last_Some c s l r :
  rsplit_last c s = Some (l, r) → s = l +:+ String c r ∧ contains c r = false.
Proof.
  revert l. induction s as [|a s IH]; intros l; simpl; [done|].
  destruct (rsplit_last c s) as [[l' t]|] eqn:E.
  - intros [= <- <-]. destruct (IH l' eq_refl) as [-> ?]. done.
  - destruct (Ascii.eqb a c) eqn:Ha; [|done]. intros [= <- <-].
    apply Ascii.eqb_eq in Ha as ->. split; [done|]. by apply rsplit_last_None.
Qed.

Lemma rsplit_last_app c l r :
  contains c r = false → rsplit_last c (l +:+ String c r) = Some (l, r).
Proof.
  intros Hr. induction l as [|a l IH]; simpl.
  - apply rsplit_last_None in Hr as ->. by rewrite Ascii.eqb_refl.
  - by rewrite IH.
Qed.

End PyStrFacts.

(** * The genre normaliser *)

(** Every name [parse_genres] returns is trimmed and not empty, and on the
    pipe-delimited path it is not the sentinel. *)
Lemma parse_genres_trimmed genre_str g :
  g ∈ Genres.parse_genres genre_str →
  PyStr.strip g = g ∧ g ≠ EmptyString
  ∧ (∀ s, genre_str = Some s → PyStr.contains "|" s = true → g ≠ Genres.sentinel).
Proof.
  unfold Genres.parse_genres. destruct genre_str as [s|]; [|by intros ?%elem_of_nil].
  destruct (PyStr.is_empty s); [by intros ?%elem_of_nil|].
  destruct (PyStr.contains "|" s) eqn:Hp.
  - intros (x & -> & [Hx _]%list_elem_of_filter)%list_elem_of_fmap.
    apply andb_True in Hx as [Hne Hs].
    apply negb_True, Is_true_false, is_empty_false in Hne.
    apply negb_True, Is_true_false in Hs.
    split; [apply strip_idem|]. split; [done|].
    intros _ _ _ Heq. rewrite Heq, String.eqb_refl in Hs. done.
  - intros (x & -> & [Hx _]%list_elem_of_filter)%list_elem_of_fmap.
    apply negb_True, Is_true_false, is_empty_false in Hx.
    split; [apply strip_idem|]. split; [done|]. intros s' [= <-]. congruence.
Qed.

(** C4: a genre string that consists of the sentinel alone, or that lists it
    between commas, has no pipe, takes the comma path and keeps the sentinel;
    only the pipe path filters it. *)
Theorem parse_genres_keeps_sentinel_without_pipe :
  Genres.parse_genres (Some "(no genres listed)") = ["(no genres listed)"]
  ∧ Genres.parse_genres (Some "Drama, (no genres listed)") = ["Drama"; "(no genres listed)"]
  ∧ Genres.parse_genres (Some "Drama|(no genres listed)") = ["Drama"].
Proof. repeat split; reflexivity. Qed.

(** * The genre merge *)
Section FromkeysFacts.
Context {A : Type} `{EqDecision A}.
Implicit Types xs ys acc : list A.

Lemma dedup_first_filter (P : A → Prop) `{!∀ x, Decision (P x)} xs :
  Genres.dedup_first (filter P xs) = filter P (Genres.dedup_first xs).
Proof.
  induction xs as [|x xs IH]; [done|]. simpl.
  rewrite !filter_cons. destruct (decide (P x)) as [Hx|Hx]; simpl.
  - rewrite IH, !list_filter_filter. f_equal. apply list_filter_iff. naive_solver.
  - rewrite IH, list_filter_filter. apply list_filter_iff. naive_solver.
Qed.

Lemma elem_of_dedup_first xs x : x ∈ Genres.dedup_first xs ↔ x ∈ xs.
Proof.
  induction xs as [|y xs IH]; [done|]. simpl.
  rewrite !elem_of_cons, list_elem_of_filter, IH.
  destruct (decide (x = y)); naive_solver.
Qed.

Lemma NoDup_dedup_first xs : NoDup (Genres.dedup_first xs).
Proof.
  induction xs as [|x xs IH]; simpl; [constructor|].
  constructor; [|by apply NoDup_filter].
  rewrite list_elem_of_filter. naive_solver.
Qed.

Lemma dedup_first_sublist xs : Genres.dedup_first xs `sublist_of` xs.
Proof.
  induction xs as [|x xs IH]; simpl; [done|].
  apply sublist_skip. etrans; [apply sublist_filter|done].
Qed.

Lemma foldl_dict_set acc xs :
  foldl Genres.dict_set acc xs = acc ++ Genres.dedup_first (filter (λ x, x ∉ acc) xs).
Proof.
  revert acc. induction xs as [|x xs IH]; intros acc; simpl.
  - by rewrite app_nil_r.
  - rewrite IH, filter_cons. unfold Genres.dict_set.
    destruct (decide (x ∈ acc)) as [Hx|Hx].
    + by rewrite decide_False by naive_solver.
    + rewrite decide_True by done. simpl. rewrite <-app_assoc. simpl.
      do 2 f_equal. rewrite <-dedup_first_filter, list_filter_filter.
      f_equal. apply list_filter_iff. intros y.
      rewrite not_elem_of_app, list_elem_of_singleton. naive_solver.
Qed.

Lemma dict_fromkeys_dedup xs : Genres.dict_fromkeys xs = Genres.dedup_first xs.
Proof.
  unfold Genres.dict_fromkeys. rewrite foldl_dict_set. simpl.
  f_equal. induction xs as [|x xs IH]; [done|].
  rewrite filter_cons_True by apply not_elem_of_nil. by rewrite IH.
Qed.

Lemma dict_fromkeys_prefix xs ys :
  Genres.dict_fromkeys xs `prefix_of` Genres.dict_fromkeys (xs ++ ys).
Proof.
  unfold Genres.dict_fromkeys. rewrite foldl_app, (foldl_dict_set (foldl _ _ _)).
  by apply prefix_app_r.
Qed.

End FromkeysFacts.

(** C5: the merged list is the catalog list followed by the API list with
    every later copy of a name dropped: its elements are distinct, they are
    exactly the names of the two lists, they keep the order of the
    concatenation, and the merge of any initial part of the concatenation is
    an initial part of the whole merge (a name stays where it first came). *)
Theorem combine_first_occurrence (ml_genres omdb_genres_list : list string) :
  let out := Genres.combine ml_genres omdb_genres_list in
  out = Genres.dedup_first (ml_genres ++ omdb_genres_list)
  ∧ NoDup out
  ∧ (∀ g, g ∈ out ↔ g ∈ ml_genres ++ omdb_genres_list)
  ∧ out `sublist_of` (ml_genres ++ omdb_genres_list)
  ∧ (∀ p q, ml_genres ++ omdb_genres_list = p ++ q → Genres.dict_fromkeys p `prefix_of` out).
Proof.
  intros out. unfold out, Genres.combine. rewrite dict_fromkeys_dedup.
  split; [done|]. split; [apply NoDup_dedup_first|].
  split; [intros g; apply elem_of_dedup_first|].
  split; [apply dedup_first_sublist|].
  intros p q ->. rewrite <-dict_fromkeys_dedup. apply dict_fromkeys_prefix.
Qed.

(** * The title parser *)

Lemma parse_title_no_paren title_full :
  PyStr.contains "(" title_full = false → Title.parse_title title_full = (title_full, None).
Proof.
  intros H. unfold Title.parse_title, Title.split_year, PyStr.rsplit1.
  apply rsplit_last_None in H as ->. simpl. by destruct (PyStr.endswith _ _).
Qed.

Lemma parse_title_cut l r :
  PyStr.contains "(" r = false →
  PyStr.endswith ")" (l +:+ String "(" r) = true →
  Title.parse_title (l +:+ String "(" r) =
    match PyStr.py_int (PyStr.rstrip_char ")" r) with
    | Some year => (PyStr.strip l, Some year)
    | None => (l +:+ String "(" r, None)
    end.
Proof.
  intros Hr He. unfold Title.parse_title, Title.split_year, PyStr.rsplit1.
  rewrite He, (rsplit_last_app _ _ _ Hr). simpl.
  by destruct (PyStr.py_int _).
Qed.

(** C6 (amended): the year is read from the text after the last opening
    parenthesis with all closing parentheses at its end removed; when that
    text is an integer the result is the trimmed left part and the integer,
    and in every other case (no closing parenthesis at the end, no opening
    parenthesis, text that is no integer) it is the whole input and no year.
    The function is total, and without a year the title is the input. *)
Theorem parse_title_amended (title_full : string) :
  (PyStr.endswith ")" title_full = false → Title.parse_title title_full = (title_full, None))
  ∧ (PyStr.contains "(" title_full = false → Title.parse_title title_full = (title_full, None))
  ∧ (∀ l r, title_full = l +:+ String "(" r →
       PyStr.contains "(" r = false →
       PyStr.endswith ")" title_full = true →
       Title.parse_title title_full =
         match PyStr.py_int (PyStr.rstrip_char ")" r) with
         | Some year => (PyStr.strip l, Some year)
         | None => (title_full, None)
         end)
  ∧ ((Title.parse_title title_full).2 = None → (Title.parse_title title_full).1 = title_full).
Proof.
  split; [|split; [|split]].
  - intros H. unfold Title.parse_title. by rewrite H.
  - apply parse_title_no_paren.
  - intros l r -> Hr He. by apply parse_title_cut.
  - destruct (PyStr.endswith ")" title_full) eqn:He.
    2:{ unfold Title.parse_title. by rewrite He. }
    destruct (PyStr.rsplit_last "(" title_full) as [[l r]|] eqn:Hs.
    + apply rsplit_last_Some in Hs as [-> Hr].
      rewrite (parse_title_cut _ _ Hr He). by destruct (PyStr.py_int _).
    + apply rsplit_last_None in Hs. by rewrite parse_title_no_paren.
Qed.

Lemma parse_title_amended_witness :
  Title.parse_title "Toy Story (1995)" = ("Toy Story", Some 1995)
  ∧ Title.parse_title "Heat" = ("Heat", None).
Proof.
  split.
  - destruct (parse_title_amended "Toy Story (1995)") as (_ & _ & H & _).
    apply (H "Toy Story " "1995)"); reflexivity.
  - destruct (parse_title_amended "Heat") as (H & _).
    apply H. reflexivity.
Defined.

(** C6, as stated, fails: with two closing parentheses at the end the text
    between the last opening parenthesis and the final character is ["1)"],
    no integer, yet the code returns the year 1 and the trimmed left part. *)
Lemma parse_title_double_paren :
  Title.parse_title "A (1))" = ("A", Some 1)
  ∧ Title.spec_parse_title "A (1))" = ("A (1))", None)
  ∧ Title.parse_title "A (1))" ≠ Title.spec_parse_title "A (1))".
Proof. repeat split. discriminate. Qed.

(** * The metadata fetcher *)
Section OmdbFacts.
Import Omdb.
Variable fs : string → option exn.
Variable network : nat → string → option string → response.

Lemma backoff_S a k : backoff a (S k) = 2 ^ Z.of_nat a :: backoff (S a) k.
Proof.
  unfold backoff. simpl. rewrite Nat.add_0_r. f_equal.
  rewrite <-fmap_S_seq, <-list_fmap_compose. apply list_fmap_ext.
  intros _ i _. simpl. do 2 f_equal. lia.
Qed.

Lemma attempts_all_fail k a title year w :
  (∀ i, (i < k)%nat → is_failure (network (requests w + i)%nat title (year_param year)) = true) →
  attempts network k a title year w =
    (failed_record, World (cache w) (requests w + k)%nat (slept w ++ backoff a k)).
Proof.
  revert a w. induction k as [|k IH]; intros a w Hf; simpl.
  - unfold backoff. simpl. rewrite Nat.add_0_r, app_nil_r. by destruct w.
  - pose proof (Hf 0%nat ltac:(lia)) as H0. rewrite Nat.add_0_r in H0.
    destruct (network (requests w) title (year_param year)); [| | |done].
    all: rewrite IH; simpl;
      [rewrite backoff_S, <-app_assoc; do 2 f_equal; lia
      |intros i Hi; specialize (Hf (S i) ltac:(lia));
       by rewrite Nat.add_succ_r in Hf].
Qed.

Lemma attempts_success k a title year w j data :
  (j < k)%nat →
  (∀ i, (i < j)%nat → is_failure (network (requests w + i)%nat title (year_param year)) = true) →
  network (requests w + j)%nat title (year_param year) = Structured data →
  attempts network k a title year w =
    (data, World (<[cache_file title year := data]> (cache w)) (requests w + j + 1)%nat
             (slept w ++ backoff a j)).
Proof.
  revert a w j. induction k as [|k IH]; intros a w j Hj Hf Hs; [lia|]. simpl.
  destruct j as [|j].
  - rewrite Nat.add_0_r in Hs. rewrite Hs. unfold backoff. simpl.
    rewrite app_nil_r. do 2 f_equal. lia.
  - pose proof (Hf 0%nat ltac:(lia)) as H0. rewrite Nat.add_0_r in H0.
    destruct (network (requests w) title (year_param year)); [| | |done].
    all: rewrite (IH _ _ j); simpl;
      [rewrite backoff_S, <-app_assoc; do 2 f_equal; lia
      |lia
      |intros i Hi; specialize (Hf (S i) ltac:(lia));
       by rewrite Nat.add_succ_r in Hf
      |by rewrite Nat.add_succ_r in Hs].
Qed.

(** Every way the loop can end: the first structured response is stored and
    returned, or all [k] attempts fail and nothing is stored. *)
Lemma attempts_cases k a title year w :
  (∃ j data, (j < k)%nat
     ∧ (∀ i, (i < j)%nat → is_failure (network (requests w + i)%nat title (year_param year)) = true)
     ∧ network (requests w + j)%nat title (year_param year) = Structured data
     ∧ attempts network k a title year w =
         (data, World (<[cache_file title year := data]> (cache w)) (requests w + j + 1)%nat
                  (slept w ++ backoff a j)))
  ∨ ((∀ i, (i < k)%nat → is_failure (network (requests w + i)%nat title (year_param year)) = true)
     ∧ attempts network k a title year w =
         (failed_record, World (cache w) (requests w + k)%nat (slept w ++ backoff a k))).
Proof.
  assert (∀ n, (n ≤ k)%nat →
    (∃ j data, (j < n)%nat
       ∧ (∀ i, (i < j)%nat → is_failure (network (requests w + i)%nat title (year_param year)) = true)
       ∧ network (requests w + j)%nat title (year_param year) = Structured data)
    ∨ (∀ i, (i < n)%nat → is_failure (network (requests w + i)%nat title (year_param year)) = true))
    as Hscan.
  { induction n as [|n IHn]; intros Hn; [right; intros; lia|].
    destruct IHn as [(j & d & ? & ? & ?)|Hall]; [lia| |].
    - left. exists j, d. split; [lia|done].
    - destruct (network (requests w + n)%nat title (year_param year)) as [| | |d] eqn:E.
      4:{ left. exists n, d. split; [lia|done]. }
      all: right; intros i Hi; destruct (decide (i = n)) as [->|];
        [by rewrite E|apply Hall; lia]. }
  destruct (Hscan k ltac:(lia)) as [(j & d & Hj & Hf & Hs)|Hall].
  - left. exists j, d. repeat split; try done. by apply attempts_success.
  - right. split; [done|]. by apply attempts_all_fail.
Qed.

Lemma omdb_lookup_hit title year w data :
  cache w !! cache_file title year = Some data →
  omdb_lookup fs network title year w = inr (data, w).
Proof. intros H. unfold omdb_lookup. by rewrite H. Qed.

Lemma omdb_lookup_miss title year w :
  cache w !! cache_file title year = None → fs (cache_file title year) = None →
  omdb_lookup fs network title year w = inr (attempts network 4 0 title year w).
Proof. intros H1 H2. unfold omdb_lookup. by rewrite H1, H2. Qed.

Lemma omdb_lookup_refused title year w e :
  cache w !! cache_file title year = None → fs (cache_file title year) = Some e →
  omdb_lookup fs network title year w = inl e.
Proof. intros H1 H2. unfold omdb_lookup. by rewrite H1, H2. Qed.

End OmdbFacts.

(** C2 (amended): for a key that is not in the cache and whose cache file
    the file system lets the fetch look for, the fetch returns, having
    issued at least one and at most four requests; when all four fail (in
    transport, in parsing or in writing) it returns the synthetic record
    whose [Response] is ["False"], having waited 1, 2, 4 and 8 units, and
    leaves the cache as it was, so that the next fetch of the key, in any
    later run, goes to the network again. *)
Theorem omdb_lookup_gives_up (fs : string → option exn)
    (network : nat → string → option string → Omdb.response)
    (title : string) (year : option Z) (w : Omdb.world) :
  Omdb.cache w !! Omdb.cache_file title year = None →
  fs (Omdb.cache_file title year) = None →
  ∃ data w',
    Omdb.omdb_lookup fs network title year w = inr (data, w')
    ∧ (Omdb.requests w < Omdb.requests w' ≤ Omdb.requests w + 4)%nat
    ∧ ((∀ i, (i < 4)%nat →
          Omdb.is_failure (network (Omdb.requests w + i)%nat title (Omdb.year_param year)) = true) →
       data = Omdb.failed_record
       ∧ Json.get data "Response" = inr (JStr "False")
       ∧ Omdb.cache w' = Omdb.cache w
       ∧ Omdb.requests w' = (Omdb.requests w + 4)%nat
       ∧ Omdb.slept w' = Omdb.slept w ++ [1; 2; 4; 8]
       ∧ ∀ network', ∃ data'' w'',
           Omdb.omdb_lookup fs network' title year w' = inr (data'', w'')
           ∧ (Omdb.requests w' < Omdb.requests w'')%nat).
Proof.
  intros Hmiss Hfs.
  destruct (Omdb.attempts network 4 0 title year w) as [data w'] eqn:Ha.
  exists data, w'. split; [by rewrite (omdb_lookup_miss _ _ _ _ _ Hmiss Hfs), Ha|].
  split.
  - destruct (attempts_cases network 4 0 title year w)
      as [(j & d & Hj & _ & _ & Hr)|[_ Hr]]; rewrite Ha in Hr;
      injection Hr as -> ->; simpl; lia.
  - intros Hf. rewrite (attempts_all_fail network 4 0 title year w Hf) in Ha.
    injection Ha as <- <-. cbn [Omdb.cache Omdb.requests Omdb.slept].
    repeat split; try done.
    intros network'.
    set (w' := Omdb.World _ _ _).
    destruct (Omdb.attempts network' 4 0 title year w') as [data'' w''] eqn:Ha'.
    exists data'', w''.
    split; [by rewrite (omdb_lookup_miss fs network' title year w' Hmiss Hfs), Ha'|].
    destruct (attempts_cases network' 4 0 title year w')
      as [(j & d & Hj & _ & _ & Hr)|[_ Hr]]; rewrite Ha' in Hr;
      injection Hr as -> ->; simpl; lia.
Qed.

Lemma omdb_lookup_gives_up_witness :
  ∃ w', Omdb.omdb_lookup (λ _, None) (λ _ _ _, Omdb.TransportError) "Heat" None
          (Omdb.World ∅ 0 []) = inr (Omdb.failed_record, w')
        ∧ Omdb.cache w' = ∅ ∧ Omdb.requests w' = 4%nat.
Proof.
  destruct (omdb_lookup_gives_up (λ _, None) (λ _ _ _, Omdb.TransportError) "Heat" None
              (Omdb.World ∅ 0 []) (lookup_empty _) eq_refl) as (data & w' & H & _ & Hall).
  destruct (Hall (λ _ _, eq_refl)) as (-> & _ & H2 & H3 & _).
  exists w'. exact (conj H (conj H2 H3)).
Defined.

(** C2, as stated, fails: the test for the cache file is made before the
    [try], and where the file system refuses the file name (here a name of
    more than 255 characters) its exception leaves the fetch. The key is not
    in the cache and each of the attempts there could be would fail, yet no
    record is returned and no attempt is made. *)
Lemma omdb_lookup_raises_on_long_name :
  let fs := λ file : string, if (255 <? String.length file)%nat then Some OSError else None in
  let network := λ (_ : nat) (_ : string) (_ : option string), Omdb.TransportError in
  let title := string_of_list_ascii (replicate 256 "x"%char) in
  let w := Omdb.World ∅ 0 [] in
  Omdb.cache w !! Omdb.cache_file title None = None
  ∧ (∀ i, Omdb.is_failure (network i title None) = true)
  ∧ Omdb.omdb_lookup fs network title None w = inl OSError
  ∧ ¬ ∃ data w', Omdb.omdb_lookup fs network title None w = inr (data, w').
Proof.
  intros fs network title w.
  assert (Omdb.omdb_lookup fs network title None w = inl OSError) as H.
  { apply omdb_lookup_refused; [apply lookup_empty|]. vm_compute. reflexivity. }
  split; [apply lookup_empty|]. split; [done|]. split; [exact H|].
  intros (data & w' & H'). rewrite H in H'. discriminate H'.
Qed.

(** C3: a cached record is returned as it is, with no request and no other
    change; on a miss, the first structured response (after fewer than four
    failures) is stored under the key's file and returned, whatever its
    [Response] flag, and from then on a fetch of the same key returns that
    record without touching the network. A record the fetch returns on a miss
    is either in the cache afterwards or the synthetic failure. *)
Theorem omdb_lookup_cached (fs : string → option exn)
    (network : nat → string → option string → Omdb.response)
    (title : string) (year : option Z) (w : Omdb.world) :
  (∀ data, Omdb.cache w !! Omdb.cache_file title year = Some data →
     Omdb.omdb_lookup fs network title year w = inr (data, w))
  ∧ (∀ j data,
       Omdb.cache w !! Omdb.cache_file title year = None →
       fs (Omdb.cache_file title year) = None →
       (j < 4)%nat →
       (∀ i, (i < j)%nat →
          Omdb.is_failure (network (Omdb.requests w + i)%nat title (Omdb.year_param year)) = true) →
       network (Omdb.requests w + j)%nat title (Omdb.year_param year) = Omdb.Structured data →
       ∃ w', Omdb.omdb_lookup fs network title year w = inr (data, w')
         ∧ Omdb.cache w' = <[Omdb.cache_file title year := data]> (Omdb.cache w)
         ∧ Omdb.requests w' = (Omdb.requests w + j + 1)%nat
         ∧ ∀ fs' network', Omdb.omdb_lookup fs' network' title year w' = inr (data, w'))
  ∧ (Omdb.cache w !! Omdb.cache_file title year = None →
     fs (Omdb.cache_file title year) = None →
     ∃ data w', Omdb.omdb_lookup fs network title year w = inr (data, w')
       ∧ (Omdb.cache w' !! Omdb.cache_file title year = Some data
          ∨ (data = Omdb.failed_record ∧ Omdb.cache w' = Omdb.cache w))).
Proof.
  split; [|split].
  - intros data. apply omdb_lookup_hit.
  - intros j data Hmiss Hfs Hj Hf Hs.
    eexists. split.
    { rewrite (omdb_lookup_miss _ _ _ _ _ Hmiss Hfs). f_equal. by apply attempts_success. }
    cbn [Omdb.cache Omdb.requests]. repeat split; try done.
    intros fs' network'. apply omdb_lookup_hit. apply lookup_insert_eq.
  - intros Hmiss Hfs. rewrite (omdb_lookup_miss _ _ _ _ _ Hmiss Hfs).
    destruct (attempts_cases network 4 0 title year w)
      as [(j & d & Hj & _ & _ & ->)|[_ ->]]; do 2 eexists; (split; [done|]); simpl.
    + left. apply lookup_insert_eq.
    + by right.
Qed.

Lemma omdb_lookup_cached_witness :
  let not_found := JObj [("Response", JStr "False"); ("Error", JStr "Movie not found!")] in
  let network := λ n (_ : string) (_ : option string),
    if (n <? 3)%nat then Omdb.TransportError else Omdb.Structured not_found in
  ∃ w', Omdb.omdb_lookup (λ _, None) network "Heat" (Some 1995) (Omdb.World ∅ 0 [])
          = inr (not_found, w')
    ∧ Omdb.requests w' = 4%nat
    ∧ Omdb.omdb_lookup (λ _, Some OSError) (λ _ _ _, Omdb.ParseError) "Heat" (Some 1995) w'
        = inr (not_found, w').
Proof.
  intros not_found network.
  destruct (omdb_lookup_cached (λ _, None) network "Heat" (Some 1995) (Omdb.World ∅ 0 []))
    as (_ & H & _).
  assert (∀ i, (i < 3)%nat →
            Omdb.is_failure (network (0 + i)%nat "Heat" (Some "1995")) = true) as Hf.
  { intros i Hi. do 3 (destruct i as [|i]; [reflexivity|]). lia. }
  destruct (H 3%nat not_found (lookup_empty _) eq_refl ltac:(lia) Hf eq_refl)
    as (w' & H1 & _ & H3 & H4).
  exists w'. exact (conj H1 (conj H3 (H4 _ _))).
Defined.

(** C10: the file name does not determine the key. A title that ends in two
    underscores and digits collides with the shorter title plus that year, and
    a slash collides with an underscore; a record stored under one key is
    what a fetch of the other key returns, without any request. *)
Theorem cache_file_not_injective :
  (("T__1995", None) ≠ ("T", Some 1995)
   ∧ Omdb.cache_file "T__1995" None = Omdb.cache_file "T" (Some 1995))
  ∧ ("a/b" ≠ "a_b" ∧ Omdb.cache_file "a/b" None = Omdb.cache_file "a_b" None)
  ∧ (∀ fs network fs' network' data w,
       Omdb.cache w !! Omdb.cache_file "T" (Some 1995) = None →
       fs (Omdb.cache_file "T" (Some 1995)) = None →
       network (Omdb.requests w) "T" (Some "1995") = Omdb.Structured data →
       ∃ w', Omdb.omdb_lookup fs network "T" (Some 1995) w = inr (data, w')
         ∧ Omdb.omdb_lookup fs' network' "T__1995" None w' = inr (data, w'))
  ∧ (∀ fs network title year title' year' data w,
       Omdb.cache_file title year = Omdb.cache_file title' year' →
       Omdb.cache w !! Omdb.cache_file title year = Some data →
       Omdb.omdb_lookup fs network title' year' w = inr (data, w)).
Proof.
  split; [split; [discriminate|reflexivity]|].
  split; [split; [discriminate|reflexivity]|].
  split.
  - intros fs network fs' network' data w Hmiss Hfs Hs.
    eexists. split.
    { rewrite (omdb_lookup_miss _ _ _ _ _ Hmiss Hfs). f_equal.
      apply (attempts_success network 4 0 "T" (Some 1995) w 0 data); [lia| |].
      - intros i Hi. lia.
      - by rewrite Nat.add_0_r. }
    apply omdb_lookup_hit.
    change (Omdb.cache_file "T__1995" None) with (Omdb.cache_file "T" (Some 1995)).
    apply lookup_insert_eq.
  - intros fs network title year title' year' data w Heq Hc.
    apply omdb_lookup_hit. by rewrite <-Heq.
Qed.

Lemma cache_file_not_injective_witness :
  let toy := JObj [("Response", JStr "True"); ("Title", JStr "T")] in
  ∃ w', Omdb.omdb_lookup (λ _, None) (λ _ _ _, Omdb.Structured toy) "T" (Some 1995)
          (Omdb.World ∅ 0 []) = inr (toy, w')
    ∧ Omdb.omdb_lookup (λ _, None) (λ _ _ _, Omdb.TransportError) "T__1995" None w'
        = inr (toy, w').
Proof.
  intros toy.
  destruct cache_file_not_injective as (_ & _ & H & _).
  exact (H (λ _, None) (λ _ _ _, Omdb.Structured toy) (λ _, None)
           (λ _ _ _, Omdb.TransportError) toy (Omdb.World ∅ 0 [])
           (lookup_empty _) eq_refl eq_refl).
Defined.

(** * The store operations *)
Section DbFacts.
Import Db.
Variable faults : nat → option exn.
Hypothesis no_faults : ∀ n, faults n = None.

Lemma execute_ok {A} (stmt : tables → violation + (A * tables)) c a t :
  stmt (tx c) = inr (a, t) →
  execute faults stmt c = Ok a (Conn t (S (executed c))).
Proof. intros H. unfold execute. by rewrite no_faults, H. Qed.

Lemma same_key_true a b : same_key a b = true ↔ rating_key a = rating_key b.
Proof.
  unfold same_key, rating_key. rewrite andb_true_iff, !Z.eqb_eq.
  split; [by intros [-> ->]|by intros [= -> ->]].
Qed.

Lemma same_key_false a b : same_key a b = false ↔ rating_key a ≠ rating_key b.
Proof. rewrite <-same_key_true. by destruct (same_key a b). Qed.

Lemma load_ratings_fold ratings_df c :
  load_ratings faults ratings_df c =
    Ok tt (Conn (Tables (movies (tx c)) (genres (tx c)) (directors (tx c))
                   (movie_genres (tx c)) (movie_directors (tx c))
                   (foldl (λ rows r, replace_rating r rows) (ratings (tx c)) ratings_df))
             (executed c + length ratings_df)).
Proof.
  revert c. induction ratings_df as [|r rest IH]; intros c; simpl.
  - rewrite Nat.add_0_r. by destruct c as [[] ?].
  - unfold mbind, M_bind. erewrite execute_ok by done. rewrite IH. simpl.
    do 2 f_equal. lia.
Qed.

Lemma filter_key_replace_rating k r rows :
  filter (λ x, rating_key x = k) (replace_rating r rows) =
    if decide (rating_key r = k) then [r] else filter (λ x, rating_key x = k) rows.
Proof.
  unfold replace_rating. rewrite filter_app, list_filter_filter, filter_cons, filter_nil.
  destruct (decide (rating_key r = k)) as [Hk|Hk].
  - replace (filter _ rows) with (@nil rating); [done|].
    symmetry. induction rows as [|x rows IH]; [done|].
    rewrite filter_cons_False; [done|]. rewrite same_key_false. naive_solver.
  - rewrite app_nil_r. apply list_filter_iff. intros x. rewrite same_key_false. naive_solver.
Qed.

Lemma filter_key_load k ratings_df rows :
  filter (λ x, rating_key x = k) (foldl (λ rows r, replace_rating r rows) rows ratings_df) =
    match last (filter (λ x, rating_key x = k) ratings_df) with
    | Some r => [r]
    | None => filter (λ x, rating_key x = k) rows
    end.
Proof.
  revert rows. induction ratings_df as [|r rest IH]; intros rows; simpl; [done|].
  rewrite IH, filter_key_replace_rating, filter_cons.
  destruct (decide (rating_key r = k)); [|done].
  destruct (filter _ rest) as [|y ys] eqn:E; [done|].
  rewrite last_cons_cons, (last_cons y ys). by destruct (last ys).
Qed.

Lemma NoDup_replace_rating r rows :
  NoDup (rating_key <$> rows) → NoDup (rating_key <$> replace_rating r rows).
Proof.
  intros Hnd. unfold replace_rating. rewrite fmap_app. apply NoDup_app. split; [|split].
  - eapply sublist_NoDup; [done|]. apply fmap_sublist, sublist_filter.
  - intros k (x & -> & [Hx _]%list_elem_of_filter)%list_elem_of_fmap.
    apply same_key_false in Hx. simpl. rewrite list_elem_of_singleton. done.
  - simpl. apply NoDup_singleton.
Qed.

Lemma NoDup_load ratings_df rows :
  NoDup (rating_key <$> rows) →
  NoDup (rating_key <$> foldl (λ rows r, replace_rating r rows) rows ratings_df).
Proof.
  revert rows. induction ratings_df as [|r rest IH]; intros rows Hnd; simpl; [done|].
  by apply IH, NoDup_replace_rating.
Qed.

End DbFacts.

(** C8: with the engine accepting every statement, loading any sequence of
    rating rows into a table that has one row per (user, movie) key succeeds
    and leaves one row per key at most; the rows with a given key are then
    exactly the last input row with that key, or, for a key no input row has,
    the rows that were there before. No other table changes. *)
Theorem load_ratings_last_wins (faults : nat → option exn)
    (ratings_df : list Db.rating) (c : Db.conn) :
  (∀ n, faults n = None) →
  NoDup (Db.rating_key <$> Db.ratings (Db.tx c)) →
  ∃ c', Db.load_ratings faults ratings_df c = Db.Ok tt c'
    ∧ NoDup (Db.rating_key <$> Db.ratings (Db.tx c'))
    ∧ (∀ k, filter (λ x, Db.rating_key x = k) (Db.ratings (Db.tx c')) =
            match last (filter (λ x, Db.rating_key x = k) ratings_df) with
            | Some r => [r]
            | None => filter (λ x, Db.rating_key x = k) (Db.ratings (Db.tx c))
            end)
    ∧ Db.movies (Db.tx c') = Db.movies (Db.tx c)
    ∧ Db.genres (Db.tx c') = Db.genres (Db.tx c)
    ∧ Db.directors (Db.tx c') = Db.directors (Db.tx c)
    ∧ Db.movie_genres (Db.tx c') = Db.movie_genres (Db.tx c)
    ∧ Db.movie_directors (Db.tx c') = Db.movie_directors (Db.tx c).
Proof.
  intros Hf Hnd. eexists. split; [by apply load_ratings_fold|]. simpl.
  split; [by apply NoDup_load|]. split; [|done].
  intros k. apply filter_key_load.
Qed.

Lemma load_ratings_last_wins_witness :
  ∃ c', Db.load_ratings (λ _, None)
          [Db.Rating 1 10 3 100; Db.Rating 1 10 (9 # 2) 200]
          (Db.Conn (Db.Tables [] [] [] [] [] []) 0) = Db.Ok tt c'
    ∧ Db.ratings (Db.tx c') = [Db.Rating 1 10 (9 # 2) 200].
Proof.
  destruct (load_ratings_last_wins (λ _, None)
              [Db.Rating 1 10 3 100; Db.Rating 1 10 (9 # 2) 200]
              (Db.Conn (Db.Tables [] [] [] [] [] []) 0) (λ _, eq_refl) (NoDup_nil_2 (A := Z * Z)))
    as (c' & H & _).
  exists c'. split; [exact H|].
  vm_compute in H. injection H as <-. reflexivity.
Defined.

(** ** Join rows *)

Ltac link_cases faults c :=
  unfold Db.link_movie_genre, Db.link_movie_director, Db.try_except, Db.execute,
         Db.insert_link;
  destruct (faults (Db.executed c)) as [[]|] eqn:?; simpl;
  repeat case_bool_decide; simpl; try done; try congruence.

(** What a link does, case by case: it inserts the join row when the pair
    is new; when the pair is there the insert is rejected, the rejection is
    swallowed and the table stays as it is, so that a table with distinct
    pairs keeps distinct pairs and holds the pair exactly once after the
    call. Every integrity error the statement raises is swallowed, whatever
    the constraint; every error of another class leaves the link operation.
    The same holds for genres and for directors. *)
Lemma link_movie_swallows_integrity (faults : nat → option exn) (c : Db.conn) (m x : Z) :
  let same := Db.Conn (Db.tx c) (S (Db.executed c)) in
  let t := Db.tx c in
  ((∀ e, faults (Db.executed c) = Some e →
      Db.link_movie_genre faults m x c =
        if is_integrity e then Db.Ok tt same else Db.Raise e same)
   ∧ (faults (Db.executed c) = None → (m, x) ∈ Db.movie_genres t →
      Db.link_movie_genre faults m x c = Db.Ok tt same)
   ∧ (faults (Db.executed c) = None → (m, x) ∉ Db.movie_genres t →
      Db.link_movie_genre faults m x c =
        Db.Ok tt (Db.Conn (Db.Tables (Db.movies t) (Db.genres t) (Db.directors t)
                             (Db.movie_genres t ++ [(m, x)]) (Db.movie_directors t)
                             (Db.ratings t))
                    (S (Db.executed c))))
   ∧ (faults (Db.executed c) = None → NoDup (Db.movie_genres t) →
      ∃ c', Db.link_movie_genre faults m x c = Db.Ok tt c'
        ∧ NoDup (Db.movie_genres (Db.tx c'))
        ∧ filter (λ p, p = (m, x)) (Db.movie_genres (Db.tx c')) = [(m, x)]))
  ∧ ((∀ e, faults (Db.executed c) = Some e →
      Db.link_movie_director faults m x c =
        if is_integrity e then Db.Ok tt same else Db.Raise e same)
   ∧ (faults (Db.executed c) = None → (m, x) ∈ Db.movie_directors t →
      Db.link_movie_director faults m x c = Db.Ok tt same)
   ∧ (faults (Db.executed c) = None → (m, x) ∉ Db.movie_directors t →
      Db.link_movie_director faults m x c =
        Db.Ok tt (Db.Conn (Db.Tables (Db.movies t) (Db.genres t) (Db.directors t)
                             (Db.movie_genres t) (Db.movie_directors t ++ [(m, x)])
                             (Db.ratings t))
                    (S (Db.executed c))))
   ∧ (faults (Db.executed c) = None → NoDup (Db.movie_directors t) →
      ∃ c', Db.link_movie_director faults m x c = Db.Ok tt c'
        ∧ NoDup (Db.movie_directors (Db.tx c'))
        ∧ filter (λ p, p = (m, x)) (Db.movie_directors (Db.tx c')) = [(m, x)])).
Proof.
  assert (∀ rows : list (Z * Z), NoDup rows →
            (m, x) ∈ rows → filter (λ p, p = (m, x)) rows = [(m, x)]) as Hone.
  { intros rows Hnd (l1 & l2 & ->)%list_elem_of_split.
    apply NoDup_app in Hnd as (_ & H1 & [H2 _]%NoDup_cons).
    rewrite filter_app, filter_cons_True by done.
    assert (∀ l : list (Z * Z), (m, x) ∉ l → filter (λ p, p = (m, x)) l = []) as Hnil.
    { intros l Hl. induction l as [|y l IH]; [done|].
      apply not_elem_of_cons in Hl as [? ?]. rewrite filter_cons_False by done. auto. }
    rewrite (Hnil l2 H2), (Hnil l1); [done|].
    intros Hin. apply (H1 _ Hin). left. }
  assert (∀ rows : list (Z * Z), NoDup rows → (m, x) ∉ rows →
            NoDup (rows ++ [(m, x)])
            ∧ filter (λ p, p = (m, x)) (rows ++ [(m, x)]) = [(m, x)]) as Hadd.
  { intros rows Hnd Hni.
    assert (NoDup (rows ++ [(m, x)])) as Hnd'.
    { apply NoDup_app. split; [done|]. split; [|apply NoDup_singleton].
      intros y Hy ->%list_elem_of_singleton. done. }
    split; [done|]. apply Hone; [done|]. apply elem_of_app. right. left. }
  intros same t. split.
  - split; [|split; [|split]].
    + intros e He. link_cases faults c. all: by simplify_eq.
    + intros Hf Hin. link_cases faults c.
    + intros Hf Hni. link_cases faults c.
    + intros Hf Hnd. destruct (decide ((m, x) ∈ Db.movie_genres t)) as [Hin|Hni].
      * exists same. link_cases faults c. split; [done|]. split; [done|]. by apply Hone.
      * eexists. link_cases faults c. split; [done|]. simpl. by apply Hadd.
  - split; [|split; [|split]].
    + intros e He. link_cases faults c. all: by simplify_eq.
    + intros Hf Hin. link_cases faults c.
    + intros Hf Hni. link_cases faults c.
    + intros Hf Hnd. destruct (decide ((m, x) ∈ Db.movie_directors t)) as [Hin|Hni].
      * exists same. link_cases faults c. split; [done|]. split; [done|]. by apply Hone.
      * eexists. link_cases faults c. split; [done|]. simpl. by apply Hadd.
Qed.

Lemma link_movie_twice :
  ∃ c1 c2,
    Db.link_movie_genre (λ _, None) 7 9 (Db.Conn (Db.Tables [] [] [] [] [] []) 0) = Db.Ok tt c1
    ∧ Db.link_movie_genre (λ _, None) 7 9 c1 = Db.Ok tt c2
    ∧ Db.movie_genres (Db.tx c2) = [(7, 9)].
Proof.
  pose (c0 := Db.Conn (Db.Tables [] [] [] [] [] []) 0).
  destruct (link_movie_swallows_integrity (λ _, None) c0 7 9) as [(_ & _ & H1 & _) _].
  specialize (H1 eq_refl ltac:(vm_compute; apply not_elem_of_nil)).
  eexists. 
  destruct (link_movie_swallows_integrity (λ _, None)
              (Db.Conn (Db.Tables [] [] [] [(7, 9)] [] []) 1) 7 9) as [(_ & H2 & _) _].
  specialize (H2 eq_refl ltac:(vm_compute; left)).
  eexists. split; [exact H1|]. split; [exact H2|]. reflexivity.
Defined.

(** C7: the handler of the link, [except IntegrityError: pass], is meant for
    the pair that is [# already linked], but it catches the whole class. An
    insert the engine rejects for a foreign key is an integrity error too
    and not the uniqueness violation: the pair is not linked, the link
    swallows the error and returns normally instead of letting it out, and
    the pair stays unlinked. The director link does the same with a
    not-null violation. *)
Theorem link_movie_genre_swallows_foreign_key :
  IntegrityError ForeignKeyViolation ≠ IntegrityError UniqueViolation
  ∧ Db.link_movie_genre (λ _, Some (IntegrityError ForeignKeyViolation)) 7 9
      (Db.Conn (Db.Tables [] [] [] [] [] []) 0)
    = Db.Ok tt (Db.Conn (Db.Tables [] [] [] [] [] []) 1)
  ∧ Db.link_movie_director (λ _, Some (IntegrityError NotNullViolation)) 7 9
      (Db.Conn (Db.Tables [] [] [] [] [] []) 0)
    = Db.Ok tt (Db.Conn (Db.Tables [] [] [] [] [] []) 1)
  ∧ ¬ ∃ c', Db.link_movie_genre (λ _, Some (IntegrityError ForeignKeyViolation)) 7 9
              (Db.Conn (Db.Tables [] [] [] [] [] []) 0)
            = Db.Raise (IntegrityError ForeignKeyViolation) c'.
Proof.
  split; [discriminate|]. split; [reflexivity|]. split; [reflexivity|].
  intros [c' H]. discriminate H.
Qed.

(** ** The movie upsert *)
Section UpsertFacts.
Import Db.
Variable faults : nat → option exn.
Hypothesis no_faults : ∀ n, faults n = None.
Variables (mid : sqlval) (title : string).

Lemma foldr_max_ge (i : Z) (rest : list Z) x : x ∈ i :: rest → x ≤ foldr Z.max i rest.
Proof.
  induction rest as [|y rest IH]; simpl.
  - intros ->%list_elem_of_singleton. lia.
  - rewrite !elem_of_cons. intros [->|[->|H]].
    + specialize (IH ltac:(left)). lia.
    + lia.
    + specialize (IH ltac:(by right)). lia.
Qed.

Lemma lastrowid_fresh ids : lastrowid ids ∉ ids.
Proof.
  destruct ids as [|i rest]; [apply not_elem_of_nil|].
  intros H%foldr_max_ge. simpl in H. lia.
Qed.

Lemma movie_matches_update_row id y r p b m :
  movie_matches mid title (update_row id y r p b m) = movie_matches mid title m.
Proof. unfold update_row. by destruct (Z.eqb _ _). Qed.

Lemma mv_id_update_row id y r p b m : mv_id (update_row id y r p b m) = mv_id m.
Proof. unfold update_row. by destruct (Z.eqb _ _). Qed.

Lemma matching_update_movie id y r p b ms :
  matching mid title (update_movie id y r p b ms) =
    update_movie id y r p b (matching mid title ms).
Proof.
  unfold matching, update_movie. induction ms as [|m ms IH]; [done|].
  rewrite fmap_cons, !filter_cons, movie_matches_update_row.
  destruct (decide _); [rewrite fmap_cons|]; by rewrite IH.
Qed.

Lemma matching_snoc ms y r p b id :
  matching mid title (ms ++ [Movie id mid title y r p b]) =
    matching mid title ms ++ [Movie id mid title y r p b].
Proof.
  unfold matching. rewrite filter_app, filter_cons_True; [done|].
  unfold movie_matches. simpl. by rewrite String.eqb_refl, orb_true_r.
Qed.

Lemma upsert_movie_found y r p b c row :
  head (matching mid title (movies (tx c))) = Some row →
  upsert_movie faults mid title y r p b c =
    Ok (mv_id row)
       (Conn (with_movies (update_movie (mv_id row) y r p b) (tx c)) (S (S (executed c)))).
Proof.
  intros Hh. unfold upsert_movie, mbind, M_bind, mret, M_ret, execute, select_movie. simpl.
  rewrite no_faults, Hh. simpl. by rewrite no_faults.
Qed.

Lemma upsert_movie_new y r p b c :
  head (matching mid title (movies (tx c))) = None →
  upsert_movie faults mid title y r p b c =
    Ok (lastrowid (mv_id <$> movies (tx c)))
       (Conn (with_movies
                (λ ms, ms ++ [Movie (lastrowid (mv_id <$> ms)) mid title y r p b]) (tx c))
             (S (S (executed c)))).
Proof.
  intros Hh. unfold upsert_movie, mbind, M_bind, execute, select_movie. simpl.
  rewrite no_faults, Hh. simpl. by rewrite no_faults.
Qed.

(** Two calls in a row: the second finds the row the first found or made. *)
Lemma upsert_movie_again y1 r1 p1 b1 y2 r2 p2 b2 c :
  ∃ id c1 c2 row others,
    upsert_movie faults mid title y1 r1 p1 b1 c = Ok id c1
    ∧ upsert_movie faults mid title y2 r2 p2 b2 c1 = Ok id c2
    ∧ length (movies (tx c2)) = length (movies (tx c1))
    ∧ matching mid title (movies (tx c2)) = row :: others
    ∧ length others = pred (length (matching mid title (movies (tx c))))
    ∧ mv_id row = id
    ∧ mv_year row = y2 ∧ mv_runtime_minutes row = r2
    ∧ mv_plot row = p2 ∧ mv_box_office row = b2.
Proof.
  destruct (matching mid title (movies (tx c))) as [|row0 rest] eqn:Hm.
  - pose (new := Movie (lastrowid (mv_id <$> movies (tx c))) mid title y1 r1 p1 b1).
    assert (head (matching mid title (movies (tx c))) = None) as E1 by (by rewrite Hm).
    apply (upsert_movie_new y1 r1 p1 b1) in E1.
    match type of E1 with _ = Ok _ ?k => set (c1 := k) in * end.
    assert (matching mid title (movies (tx c1)) = [new]) as Hm1.
    { cbn [c1 tx movies with_movies]. by rewrite matching_snoc, Hm. }
    assert (head (matching mid title (movies (tx c1))) = Some new) as E2 by (by rewrite Hm1).
    apply (upsert_movie_found y2 r2 p2 b2) in E2.
    eexists _, c1, _, _, _. split; [exact E1|]. split; [exact E2|].
    cbn [tx movies with_movies].
    split; [unfold update_movie; by rewrite length_fmap|].
    rewrite matching_update_movie, Hm1.
    unfold update_movie, update_row. simpl. rewrite Z.eqb_refl. done.
  - assert (head (matching mid title (movies (tx c))) = Some row0) as E1 by (by rewrite Hm).
    apply (upsert_movie_found y1 r1 p1 b1) in E1.
    match type of E1 with _ = Ok _ ?k => set (c1 := k) in * end.
    assert (matching mid title (movies (tx c1)) =
              update_movie (mv_id row0) y1 r1 p1 b1 (row0 :: rest)) as Hm1.
    { cbn [c1 tx movies with_movies]. by rewrite matching_update_movie, Hm. }
    assert (head (matching mid title (movies (tx c1))) =
              Some (update_row (mv_id row0) y1 r1 p1 b1 row0))
      as E2 by (by rewrite Hm1).
    apply (upsert_movie_found y2 r2 p2 b2) in E2.
    rewrite mv_id_update_row in E2.
    eexists _, c1, _, _, _. split; [exact E1|]. split; [exact E2|].
    cbn [tx movies with_movies].
    split; [unfold update_movie; by rewrite !length_fmap|].
    rewrite matching_update_movie, Hm1.
    unfold update_movie. rewrite !fmap_cons.
    split; [done|]. split; [by rewrite !length_fmap|].
    unfold update_row. simpl. rewrite Z.eqb_refl. simpl. rewrite Z.eqb_refl. done.
Qed.

End UpsertFacts.

(** C1 (amended): with the engine accepting every statement, [upsert_movie]
    takes the first row whose identity or title matches; if there is one it
    returns that row's id and rewrites year, runtime, plot and box office in
    the rows with that id, every other column and row staying as it was; if
    there is none it appends a row with a fresh id and returns it. Two calls
    in a row with the same identity and title return the same id, the second
    adds no row, and the first matching row then carries the fields of the
    second call. When at most one row of the table matched before the calls,
    exactly one row matches after them. *)
Theorem upsert_movie_amended (faults : nat → option exn) (c : Db.conn)
    (mid : Db.sqlval) (title : string) :
  (∀ n, faults n = None) →
  (∀ year runtime plot box_office,
     match head (Db.matching mid title (Db.movies (Db.tx c))) with
     | Some found =>
         ∃ c', Db.upsert_movie faults mid title year runtime plot box_office c
                 = Db.Ok (Db.mv_id found) c'
           ∧ Forall2 (λ old new,
                 Db.mv_id new = Db.mv_id old
                 ∧ Db.mv_movie_id new = Db.mv_movie_id old
                 ∧ Db.mv_title new = Db.mv_title old
                 ∧ (Db.mv_id old ≠ Db.mv_id found → new = old)
                 ∧ (Db.mv_id old = Db.mv_id found →
                    Db.mv_year new = year ∧ Db.mv_runtime_minutes new = runtime
                    ∧ Db.mv_plot new = plot ∧ Db.mv_box_office new = box_office))
               (Db.movies (Db.tx c)) (Db.movies (Db.tx c'))
     | None =>
         ∃ c' id, Db.upsert_movie faults mid title year runtime plot box_office c = Db.Ok id c'
           ∧ (id ∉ (Db.mv_id <$> Db.movies (Db.tx c)))
           ∧ Db.movies (Db.tx c') =
               Db.movies (Db.tx c) ++ [Db.Movie id mid title year runtime plot box_office]
     end)
  ∧ (∀ y1 r1 p1 b1 y2 r2 p2 b2,
       ∃ id c1 c2 row others,
         Db.upsert_movie faults mid title y1 r1 p1 b1 c = Db.Ok id c1
         ∧ Db.upsert_movie faults mid title y2 r2 p2 b2 c1 = Db.Ok id c2
         ∧ length (Db.movies (Db.tx c2)) = length (Db.movies (Db.tx c1))
         ∧ Db.matching mid title (Db.movies (Db.tx c2)) = row :: others
         ∧ Db.mv_id row = id
         ∧ Db.mv_year row = y2 ∧ Db.mv_runtime_minutes row = r2
         ∧ Db.mv_plot row = p2 ∧ Db.mv_box_office row = b2
         ∧ ((length (Db.matching mid title (Db.movies (Db.tx c))) ≤ 1)%nat → others = [])).
Proof.
  intros Hf. split.
  - intros year runtime plot box_office.
    destruct (head (Db.matching mid title (Db.movies (Db.tx c)))) as [found|] eqn:Hh.
    + eexists. split; [by apply upsert_movie_found|]. simpl.
      unfold Db.update_movie. apply Forall2_fmap_r, Forall_Forall2_diag, Forall_forall.
      intros old _. unfold Db.update_row.
      unfold compose. destruct (Z.eqb (Db.mv_id old) (Db.mv_id found)) eqn:E;
        [apply Z.eqb_eq in E|apply Z.eqb_neq in E]; simpl;
        repeat split; try done; intros; repeat split; try done; congruence.
    + do 2 eexists. split; [by apply upsert_movie_new|]. simpl.
      split; [apply lastrowid_fresh|done].
  - intros y1 r1 p1 b1 y2 r2 p2 b2.
    destruct (upsert_movie_again faults Hf mid title y1 r1 p1 b1 y2 r2 p2 b2 c)
      as (id & c1 & c2 & row & others & H1 & H2 & H3 & H4 & H5 & H6 & H7 & H8 & H9 & H10).
    exists id, c1, c2, row, others. repeat split; try done.
    intros Hle. apply nil_length_inv. lia.
Qed.

Lemma upsert_movie_amended_witness :
  ∃ id c1 c2,
    Db.upsert_movie (λ _, None) (Db.SText "tt0114709") "Toy Story" (Some 1995) (Some 81)
      Db.SNull Db.SNull (Db.Conn (Db.Tables [] [] [] [] [] []) 0) = Db.Ok id c1
    ∧ Db.upsert_movie (λ _, None) (Db.SText "tt0114709") "Toy Story" (Some 1995) (Some 90)
        Db.SNull Db.SNull c1 = Db.Ok id c2
    ∧ Db.movies (Db.tx c2) =
        [Db.Movie 1 (Db.SText "tt0114709") "Toy Story" (Some 1995) (Some 90) Db.SNull Db.SNull].
Proof.
  destruct (upsert_movie_amended (λ _, None) (Db.Conn (Db.Tables [] [] [] [] [] []) 0)
              (Db.SText "tt0114709") "Toy Story" (λ _, eq_refl)) as [_ H].
  destruct (H (Some 1995) (Some 81) Db.SNull Db.SNull (Some 1995) (Some 90) Db.SNull Db.SNull)
    as (id & c1 & c2 & _ & _ & H1 & H2 & _).
  exists id, c1, c2. split; [exact H1|]. split; [exact H2|].
  vm_compute in H1. injection H1 as <- <-.
  vm_compute in H2. injection H2 as <-. reflexivity.
Defined.

(** C1, as stated, fails in a table where the identity is on one row and the
    title on an earlier one: both calls update the earlier row, two rows
    match afterwards, and the only row that carries the identity keeps its
    old runtime. *)
Lemma upsert_movie_two_matching_rows :
  ∃ c1 c2,
    Db.upsert_movie (λ _, None) (Db.SText "X") "T" None (Some 1) Db.SNull Db.SNull
      (Db.Conn (Db.Tables
                  [Db.Movie 1 (Db.SText "Y") "T" None (Some 100) Db.SNull Db.SNull;
                   Db.Movie 2 (Db.SText "X") "A" None (Some 50) Db.SNull Db.SNull]
                  [] [] [] [] []) 0) = Db.Ok 1 c1
    ∧ Db.upsert_movie (λ _, None) (Db.SText "X") "T" None (Some 2) Db.SNull Db.SNull c1
        = Db.Ok 1 c2
    ∧ Db.movies (Db.tx c2) =
        [Db.Movie 1 (Db.SText "Y") "T" None (Some 2) Db.SNull Db.SNull;
         Db.Movie 2 (Db.SText "X") "A" None (Some 50) Db.SNull Db.SNull]
    ∧ length (Db.matching (Db.SText "X") "T" (Db.movies (Db.tx c2))) = 2%nat
    ∧ filter (λ m, Db.mv_movie_id m = Db.SText "X") (Db.movies (Db.tx c2)) =
        [Db.Movie 2 (Db.SText "X") "A" None (Some 50) Db.SNull Db.SNull].
Proof. do 2 eexists. repeat split. Qed.

(** * The driver *)
Section DriverFacts.
Import Db Driver.
Variable faults : nat → option exn.
Variable fs : string → option exn.
Variable network : nat → string → option string → Omdb.response.
Variable isna_list : list json → exn + bool.

Lemma tolerated_refl n : tolerated faults n n.
Proof. intros k Hk. lia. Qed.

Lemma tolerated_trans a b c :
  (a ≤ b)%nat → (b ≤ c)%nat →
  tolerated faults a b → tolerated faults b c → tolerated faults a c.
Proof.
  intros Hab Hbc H1 H2 n Hn.
  destruct (decide (n < b)%nat); [apply H1|apply H2]; lia.
Qed.

Lemma sound_ret {A} (a : A) : sound faults (mret a).
Proof. intros c a' c' [= <- <-]. split; [done|apply tolerated_refl]. Qed.

Lemma sound_raise {A} e : sound faults (raise (A := A) e).
Proof. intros c a c' H. discriminate H. Qed.

Lemma sound_lift {A} (r : exn + A) : sound faults (lift r).
Proof. destruct r; [apply sound_raise|apply sound_ret]. Qed.

Lemma sound_bind {A B} (m : M A) (f : A → M B) :
  sound faults m → (∀ a, sound faults (f a)) → sound faults (m ≫= f).
Proof.
  intros Hm Hf c b c'. unfold mbind, M_bind.
  destruct (m c) as [a c1|e c1] eqn:E; [|done]. intros H.
  destruct (Hm _ _ _ E) as [? ?]. destruct (Hf a _ _ _ H) as [? ?].
  split; [lia|]. by apply (tolerated_trans _ (executed c1)).
Qed.

Lemma sound_execute {A} (stmt : tables → violation + (A * tables)) :
  sound faults (execute faults stmt).
Proof.
  intros c a c'. unfold execute.
  destruct (faults (executed c)) eqn:Hf; [done|].
  destruct (stmt (tx c)) as [v|[a' t]]; [done|]. intros [= <- <-]. simpl.
  split; [lia|]. intros n Hn. assert (n = executed c) as -> by lia. by rewrite Hf.
Qed.

(** A caught exception of the one statement of a link is an integrity error,
    from the engine or from the pair being there. *)
Lemma sound_try_execute {A} (stmt : tables → violation + (A * tables)) (a : A) :
  sound faults (try_except (execute faults stmt) is_integrity (mret a)).
Proof.
  intros c a' c'. unfold try_except, execute.
  destruct (faults (executed c)) as [e|] eqn:Hf.
  - destruct (is_integrity e) eqn:He; [|done]. intros [= <- <-]. simpl.
    split; [lia|]. intros n Hn. assert (n = executed c) as -> by lia. by rewrite Hf.
  - destruct (stmt (tx c)) as [v|[a'' t]]; simpl; intros [= <- <-]; simpl.
    all: split; [lia|]; intros n Hn; assert (n = executed c) as -> by lia; by rewrite Hf.
Qed.

Lemma sound_for_each {A} (xs : list A) (body : A → M unit) :
  (∀ x, sound faults (body x)) → sound faults (for_each xs body).
Proof.
  intros Hb. induction xs as [|x xs IH]; simpl; [apply sound_ret|].
  apply sound_bind; [apply Hb|done].
Qed.

Lemma sound_get_or_create_genre name : sound faults (get_or_create_genre faults name).
Proof.
  apply sound_bind; [apply sound_execute|].
  intros [id|]; [apply sound_ret|apply sound_execute].
Qed.

Lemma sound_get_or_create_director name : sound faults (get_or_create_director faults name).
Proof.
  apply sound_bind; [apply sound_execute|].
  intros [id|]; [apply sound_ret|apply sound_execute].
Qed.

Lemma sound_upsert_movie mid title y r p b : sound faults (upsert_movie faults mid title y r p b).
Proof.
  apply sound_bind; [apply sound_execute|].
  intros [id|]; [|apply sound_execute].
  apply sound_bind; [apply sound_execute|]. intros _. apply sound_ret.
Qed.

Lemma sound_load_ratings ratings_df : sound faults (load_ratings faults ratings_df).
Proof.
  induction ratings_df as [|row rest IH]; simpl; [apply sound_ret|].
  apply sound_bind; [apply sound_execute|done].
Qed.

Lemma sound_store_movie row title year f : sound faults (store_movie faults isna_list row title year f).
Proof.
  unfold store_movie.
  apply sound_bind; [apply sound_lift|]. intros mid.
  apply sound_bind.
  { destruct (bound_fields year f) as [e|[p b]]; [|apply sound_upsert_movie].
    apply sound_bind; [apply sound_execute|]. intros _. apply sound_raise. }
  intros movie_db_id.
  apply sound_bind; [apply sound_lift|]. intros ml_genres.
  apply sound_bind; [apply sound_lift|]. intros og.
  apply sound_bind.
  { apply sound_for_each. intros g.
    apply sound_bind; [apply sound_get_or_create_genre|]. intros gid.
    apply sound_try_execute. }
  intros _. apply sound_bind; [apply sound_lift|]. intros names.
  apply sound_for_each. intros dn.
  apply sound_bind; [apply sound_get_or_create_director|]. intros did.
  apply sound_try_execute.
Qed.

Lemma movie_loop_tolerated movies_df w c u c' w' :
  movie_loop faults fs network isna_list movies_df w c = (Ok u c', w') →
  (executed c ≤ executed c')%nat ∧ tolerated faults (executed c) (executed c').
Proof.
  revert w c. induction movies_df as [|row rest IH]; intros w c; simpl.
  - intros [= <- <- <-]. split; [done|apply tolerated_refl].
  - destruct (process_movie faults fs network isna_list row w c) as [[u1 c1|e1 c1] w1] eqn:E; [|done].
    intros H. destruct (IH _ _ H) as [? ?].
    assert ((executed c ≤ executed c1)%nat ∧ tolerated faults (executed c) (executed c1))
      as [? ?].
    { unfold process_movie in E. destruct (row_title row) as [title_full| |]; [|done..].
      destruct (Title.parse_title title_full) as [title year].
      destruct (Omdb.omdb_lookup fs network title year w) as [e|[omdb w2]]; [done|].
      destruct (extract omdb) as [e|f]; [done|].
      injection E as E _. by apply (sound_store_movie _ _ _ _ _ _ _ E). }
    split; [lia|]. by apply (tolerated_trans _ (executed c1)).
Qed.

(** The loop over a list in two parts: an exception in the first part ends
    the loop there. *)
Lemma movie_loop_app pre rest w c :
  movie_loop faults fs network isna_list (pre ++ rest) w c =
    match movie_loop faults fs network isna_list pre w c with
    | (Ok _ c', w') => movie_loop faults fs network isna_list rest w' c'
    | (Raise e c', w') => (Raise e c', w')
    end.
Proof.
  revert w c. induction pre as [|row pre IH]; intros w c; simpl; [done|].
  destruct (process_movie faults fs network isna_list row w c) as [[u c1|e c1] w1]; [apply IH|done].
Qed.

Lemma movie_loop_raises pre row post w c c' w' e c'' w'' :
  movie_loop faults fs network isna_list pre w c = (Ok tt c', w') →
  process_movie faults fs network isna_list row w' c' = (Raise e c'', w'') →
  movie_loop faults fs network isna_list (pre ++ row :: post) w c = (Raise e c'', w'').
Proof. intros Hpre Hrow. rewrite movie_loop_app, Hpre. simpl. by rewrite Hrow. Qed.

End DriverFacts.

(** C9: the store changes only through the commit that follows the movie
    loop. A run that ends without exception has loaded all ratings and
    processed every movie row, no statement of it met an error other than an
    integrity error, and it commits the state the connection reached after
    the last row. A run that ends with an exception leaves the store as it
    was; in particular an exception raised while any movie row is processed,
    after any number of rows were processed successfully, ends the run with
    that exception and nothing committed, neither movie data nor the ratings
    loaded before. *)
Theorem main_commits_after_loop (faults : nat → option exn) (fs : string → option exn)
    (network : nat → string → option string → Omdb.response)
    (isna_list : list json → exn + bool)
    (movies_df : list Driver.movie_row) (ratings_df : list Db.rating)
    (db : Db.tables) (w : Omdb.world) :
  let r := Driver.main faults fs network isna_list movies_df ratings_df db w in
  (∀ e, Driver.status r = Some e → Driver.committed r = db)
  ∧ (Driver.status r = None →
     ∃ c1 c2 w',
       Db.load_ratings faults ratings_df (Db.Conn db 0) = Db.Ok tt c1
       ∧ Driver.movie_loop faults fs network isna_list movies_df w c1 = (Db.Ok tt c2, w')
       ∧ Db.tolerated faults 0 (Db.executed c2)
       ∧ faults (Db.executed c2) = None
       ∧ Driver.committed r = Db.tx c2
       ∧ Driver.disk r = w')
  ∧ (∀ pre row post c1 c' w' e c'' w'',
       movies_df = pre ++ row :: post →
       Db.load_ratings faults ratings_df (Db.Conn db 0) = Db.Ok tt c1 →
       Driver.movie_loop faults fs network isna_list pre w c1 = (Db.Ok tt c', w') →
       Driver.process_movie faults fs network isna_list row w' c' = (Db.Raise e c'', w'') →
       r = Driver.Run (Some e) db w'').
Proof.
  intros r. unfold r, Driver.main. split; [|split].
  - intros e.
    destruct (Db.load_ratings _ _ _) as [[] c1|e1 c1]; [|done].
    destruct (Driver.movie_loop _ _ _ _ _ _ _) as [[[] c2|e2 c2] w']; [|done].
    by destruct (faults (Db.executed c2)).
  - destruct (Db.load_ratings _ _ _) as [[] c1|e1 c1] eqn:Hload; [|done].
    destruct (Driver.movie_loop _ _ _ _ _ _ _) as [[[] c2|e2 c2] w'] eqn:Hloop; [|done].
    destruct (faults (Db.executed c2)) eqn:Hc; [done|].
    intros _. exists c1, c2, w'. repeat split; try done.
    destruct (sound_load_ratings faults ratings_df _ _ _ Hload) as [? ?].
    destruct (movie_loop_tolerated faults fs network isna_list _ _ _ _ _ _ Hloop) as [? ?].
    by apply (tolerated_trans faults 0 (Db.executed c1)).
  - intros pre row post c1 c' w' e c'' w'' -> Hr Hpre Hrow.
    rewrite Hr, (movie_loop_raises faults fs network isna_list pre row post w c1 c' w' e c'' w'' Hpre Hrow).
    done.
Qed.

Lemma main_commits_after_loop_witness :
  Driver.main (λ _, None) (λ _, None)
    (λ _ _ _, Omdb.Structured
       (JObj [("Response", JStr "True"); ("imdbID", JStr "tt0114709");
              ("Runtime", JStr "81 min"); ("Genre", JStr "Animation, Comedy");
              ("Director", JStr "John Lasseter")]))
    (λ _, inr false)
    [Driver.MovieRow 1 (Driver.Str "Toy Story (1995)") (Driver.Str "Adventure|Animation");
     Driver.MovieRow 2 Driver.NaN Driver.NaN]
    [Db.Rating 1 1 4 100]
    (Db.Tables [] [] [] [] [] []) (Omdb.World ∅ 0 [])
  = Driver.Run (Some AttributeError) (Db.Tables [] [] [] [] [] [])
      (Omdb.World
         {[ "Toy Story__1995.json" :=
              JObj [("Response", JStr "True"); ("imdbID", JStr "tt0114709");
                    ("Runtime", JStr "81 min"); ("Genre", JStr "Animation, Comedy");
                    ("Director", JStr "John Lasseter")] ]} 1 []).
Proof.
  pose (after_first :=
    Db.Conn
      (Db.Tables
         [Db.Movie 1 (Db.SText "tt0114709") "Toy Story" (Some 1995) (Some 81) Db.SNull Db.SNull]
         [(1, "Adventure"); (2, "Animation"); (3, "Comedy")]
         [(1, "John Lasseter")]
         [(1, 1); (1, 2); (1, 3)]
         [(1, 1)]
         [Db.Rating 1 1 4 100])
      15).
  pose (w1 :=
    Omdb.World
      {[ "Toy Story__1995.json" :=
           JObj [("Response", JStr "True"); ("imdbID", JStr "tt0114709");
                 ("Runtime", JStr "81 min"); ("Genre", JStr "Animation, Comedy");
                 ("Director", JStr "John Lasseter")] ]} 1 []).
  apply (proj2 (proj2 (main_commits_after_loop _ _ _ _ _ _ _ _))
           [Driver.MovieRow 1 (Driver.Str "Toy Story (1995)") (Driver.Str "Adventure|Animation")]
           (Driver.MovieRow 2 Driver.NaN Driver.NaN) []
           (Db.Conn (Db.Tables [] [] [] [] [] [Db.Rating 1 1 4 100]) 1)
           after_first w1 AttributeError after_first w1).
  all: vm_compute; reflexivity.
Defined.

(** * Further properties of the store operations *)
Section NameTables.
Import Db.
Implicit Types rows : list (Z * string).

Lemma select_name_Some name rows id :
  select_name name rows = Some id → (id, name) ∈ rows.
Proof.
  unfold select_name. destruct (head _) as [[i n]|] eqn:Hh; [|done].
  intros [= <-]. apply head_Some_elem_of, list_elem_of_filter in Hh as [Hn Hin].
  simpl in Hn. apply String.eqb_eq in Hn as <-. done.
Qed.

Lemma select_name_None name rows :
  select_name name rows = None ↔ name ∉ rows.*2.
Proof.
  unfold select_name. induction rows as [|[i n] rows IH]; simpl.
  - split; [intros _; apply not_elem_of_nil|done].
  - rewrite filter_cons. simpl. destruct (String.eqb_spec n name) as [->|Hne].
    + rewrite decide_True by done. simpl. split; [done|]. intros H. destruct H. left.
    + rewrite decide_False by (by intros ?). rewrite IH, not_elem_of_cons. naive_solver.
Qed.

Lemma select_name_unique name rows id :
  NoDup rows.*2 → (id, name) ∈ rows →
  select_name name rows = Some id ∧ filter (λ r, r.2 = name) rows = [(id, name)].
Proof.
  intros Hnd (l1 & l2 & ->)%list_elem_of_split.
  rewrite fmap_app, fmap_cons in Hnd. simpl in Hnd.
  apply NoDup_app in Hnd as (_ & H1 & [H2 _]%NoDup_cons).
  assert (∀ l : list (Z * string), name ∉ l.*2 →
            filter (λ r, String.eqb r.2 name = true) l = []
            ∧ filter (λ r, r.2 = name) l = []) as Hnil.
  { intros l Hl. induction l as [|[i n] l IH]; [done|].
    rewrite fmap_cons in Hl. apply not_elem_of_cons in Hl as [Hne Hl]. simpl in Hne.
    destruct (IH Hl) as [IH1 IH2]. split.
    - rewrite filter_cons_False; [done|]. simpl.
      intros E. apply String.eqb_eq in E. congruence.
    - rewrite filter_cons_False; [done|]. simpl. congruence. }
  assert (name ∉ l1.*2) as Hl1.
  { intros Hin. apply (H1 _ Hin). left. }
  destruct (Hnil l1 Hl1) as [E1 E1']. destruct (Hnil l2 H2) as [E2 E2'].
  unfold select_name. rewrite !filter_app, !filter_cons_True, E1, E1', E2, E2'; simpl; try done.
  apply String.eqb_refl.
Qed.

End NameTables.

Section StoreSpecs.
Import Db.
Variable faults : nat → option exn.

(** What a call leaves behind, whatever the engine does: the row it found or
    the row it made, and at an exception the tables as they were, the
    exception being one the engine raised at a statement of the call. *)
Lemma get_or_create_genre_spec name c :
  match get_or_create_genre faults name c with
  | Ok id c' =>
      (select_name name (genres (tx c)) = Some id ∧ tx c' = tx c)
      ∨ ((name ∉ (genres (tx c)).*2) ∧ id = lastrowid (genres (tx c)).*1
         ∧ tx c' = Tables (movies (tx c)) (genres (tx c) ++ [(id, name)]) (directors (tx c))
                     (movie_genres (tx c)) (movie_directors (tx c)) (ratings (tx c)))
  | Raise e c' =>
      tx c' = tx c ∧ ∃ n, (executed c ≤ n < executed c')%nat ∧ faults n = Some e
  end.
Proof.
  unfold get_or_create_genre, mbind, M_bind, mret, M_ret, execute. simpl.
  destruct (faults (executed c)) as [e|] eqn:F1.
  { split; [done|]. exists (executed c). split; [simpl; lia|done]. }
  destruct (select_name name (genres (tx c))) as [id|] eqn:Hs; simpl; [by left|].
  destruct (faults (S (executed c))) as [e|] eqn:F2.
  { split; [done|]. exists (S (executed c)). split; [simpl; lia|done]. }
  apply select_name_None in Hs. unfold insert_name.
  rewrite bool_decide_eq_false_2 by done. simpl. right. done.
Qed.

Lemma get_or_create_director_spec name c :
  match get_or_create_director faults name c with
  | Ok id c' =>
      (select_name name (directors (tx c)) = Some id ∧ tx c' = tx c)
      ∨ ((name ∉ (directors (tx c)).*2) ∧ id = lastrowid (directors (tx c)).*1
         ∧ tx c' = Tables (movies (tx c)) (genres (tx c)) (directors (tx c) ++ [(id, name)])
                     (movie_genres (tx c)) (movie_directors (tx c)) (ratings (tx c)))
  | Raise e c' =>
      tx c' = tx c ∧ ∃ n, (executed c ≤ n < executed c')%nat ∧ faults n = Some e
  end.
Proof.
  unfold get_or_create_director, mbind, M_bind, mret, M_ret, execute. simpl.
  destruct (faults (executed c)) as [e|] eqn:F1.
  { split; [done|]. exists (executed c). split; [simpl; lia|done]. }
  destruct (select_name name (directors (tx c))) as [id|] eqn:Hs; simpl; [by left|].
  destruct (faults (S (executed c))) as [e|] eqn:F2.
  { split; [done|]. exists (S (executed c)). split; [simpl; lia|done]. }
  apply select_name_None in Hs. unfold insert_name.
  rewrite bool_decide_eq_false_2 by done. simpl. right. done.
Qed.

Lemma upsert_movie_spec mid title y r p b c :
  match upsert_movie faults mid title y r p b c with
  | Ok id c' =>
      (∃ found, head (matching mid title (movies (tx c))) = Some found ∧ id = mv_id found
         ∧ tx c' = with_movies (update_movie id y r p b) (tx c))
      ∨ (matching mid title (movies (tx c)) = [] ∧ id = lastrowid (mv_id <$> movies (tx c))
         ∧ tx c' = with_movies (λ ms, ms ++ [Movie id mid title y r p b]) (tx c))
  | Raise e c' =>
      tx c' = tx c ∧ ∃ n, (executed c ≤ n < executed c')%nat ∧ faults n = Some e
  end.
Proof.
  unfold upsert_movie, mbind, M_bind, mret, M_ret, execute, select_movie. simpl.
  destruct (faults (executed c)) as [e|] eqn:F1.
  { split; [done|]. exists (executed c). split; [simpl; lia|done]. }
  destruct (head (matching mid title (movies (tx c)))) as [found|] eqn:Hs; simpl.
  - destruct (faults (S (executed c))) as [e|] eqn:F2; simpl.
    { split; [done|]. exists (S (executed c)). split; [lia|done]. }
    left. by exists found.
  - destruct (faults (S (executed c))) as [e|] eqn:F2; simpl.
    { split; [done|]. exists (S (executed c)). split; [lia|done]. }
    right. split; [|done]. by destruct (matching mid title (movies (tx c))).
Qed.

Lemma link_movie_genre_spec m x c :
  match link_movie_genre faults m x c with
  | Ok _ c' =>
      tx c' = tx c
      ∨ (((m, x) ∉ movie_genres (tx c))
         ∧ tx c' = Tables (movies (tx c)) (genres (tx c)) (directors (tx c))
                     (movie_genres (tx c) ++ [(m, x)]) (movie_directors (tx c)) (ratings (tx c)))
  | Raise e c' =>
      tx c' = tx c ∧ is_integrity e = false
      ∧ ∃ n, (executed c ≤ n < executed c')%nat ∧ faults n = Some e
  end.
Proof.
  unfold link_movie_genre, try_except, execute, insert_link.
  destruct (faults (executed c)) as [e|] eqn:F1.
  { destruct (is_integrity e) eqn:He; simpl; [by left|].
    split; [done|]. split; [done|]. exists (executed c). split; [lia|done]. }
  case_bool_decide; simpl; [by left|right; done].
Qed.

Lemma link_movie_director_spec m x c :
  match link_movie_director faults m x c with
  | Ok _ c' =>
      tx c' = tx c
      ∨ (((m, x) ∉ movie_directors (tx c))
         ∧ tx c' = Tables (movies (tx c)) (genres (tx c)) (directors (tx c))
                     (movie_genres (tx c)) (movie_directors (tx c) ++ [(m, x)]) (ratings (tx c)))
  | Raise e c' =>
      tx c' = tx c ∧ is_integrity e = false
      ∧ ∃ n, (executed c ≤ n < executed c')%nat ∧ faults n = Some e
  end.
Proof.
  unfold link_movie_director, try_except, execute, insert_link.
  destruct (faults (executed c)) as [e|] eqn:F1.
  { destruct (is_integrity e) eqn:He; simpl; [by left|].
    split; [done|]. split; [done|]. exists (executed c). split; [lia|done]. }
  case_bool_decide; simpl; [by left|right; done].
Qed.

End StoreSpecs.

(** X1: with the engine accepting every statement and genre names distinct,
    [get_or_create_genre] returns an id under which the name is stored, the
    name is stored exactly once afterwards, a name that was there leaves the
    tables as they were, a new name is appended under an id no row had, and
    a second call returns the same id and changes nothing. *)
Theorem get_or_create_genre_contract (faults : nat → option exn) (name : string) (c : Db.conn) :
  (∀ n, faults n = None) →
  NoDup (Db.genres (Db.tx c)).*2 →
  ∃ id c1,
    Db.get_or_create_genre faults name c = Db.Ok id c1
    ∧ filter (λ r, r.2 = name) (Db.genres (Db.tx c1)) = [(id, name)]
    ∧ NoDup (Db.genres (Db.tx c1)).*2
    ∧ (name ∈ (Db.genres (Db.tx c)).*2 → Db.tx c1 = Db.tx c)
    ∧ (name ∉ (Db.genres (Db.tx c)).*2 →
       (id ∉ (Db.genres (Db.tx c)).*1)
       ∧ Db.genres (Db.tx c1) = Db.genres (Db.tx c) ++ [(id, name)])
    ∧ ∃ c2, Db.get_or_create_genre faults name c1 = Db.Ok id c2 ∧ Db.tx c2 = Db.tx c1.
Proof.
  intros Hf Hnd.
  assert (∀ c0 id, NoDup (Db.genres (Db.tx c0)).*2 → (id, name) ∈ Db.genres (Db.tx c0) →
            ∃ c2, Db.get_or_create_genre faults name c0 = Db.Ok id c2 ∧ Db.tx c2 = Db.tx c0)
    as Hagain.
  { intros c0 id Hnd0 Hin. pose proof (get_or_create_genre_spec faults name c0) as H.
    destruct (select_name_unique name _ id Hnd0 Hin) as [Hs _].
    destruct (Db.get_or_create_genre faults name c0) as [id' c2|e c2].
    - exists c2. destruct H as [[Hs' ->]|[Hni _]].
      + split; [congruence|done].
      + destruct Hni. apply list_elem_of_fmap. by exists (id, name).
    - destruct H as (_ & n & _ & Hn). by rewrite Hf in Hn. }
  pose proof (get_or_create_genre_spec faults name c) as H.
  destruct (Db.get_or_create_genre faults name c) as [id c1|e c1].
  2:{ destruct H as (_ & n & _ & Hn). by rewrite Hf in Hn. }
  exists id, c1. split; [done|]. destruct H as [[Hs Ht]|(Hni & Hid & Ht)].
  - apply select_name_Some in Hs.
    destruct (select_name_unique name _ id Hnd Hs) as [_ Hone].
    split; [by rewrite Ht|]. split; [by rewrite Ht|]. split; [done|]. split.
    + intros Hni. destruct Hni. apply list_elem_of_fmap. by exists (id, name).
    + apply Hagain; by rewrite Ht.
  - assert (NoDup (Db.genres (Db.tx c1)).*2) as Hnd1.
    { rewrite Ht. simpl. rewrite fmap_app. apply NoDup_app. split; [done|].
      split; [|apply NoDup_singleton]. by intros y Hy ->%list_elem_of_singleton. }
    assert ((id, name) ∈ Db.genres (Db.tx c1)) as Hin1.
    { rewrite Ht. simpl. apply elem_of_app. right. left. }
    destruct (select_name_unique name _ id Hnd1 Hin1) as [_ Hone].
    split; [done|]. split; [done|]. split; [done|]. split.
    + intros _. split; [rewrite Hid; apply lastrowid_fresh|by rewrite Ht].
    + by apply Hagain.
Qed.

Lemma get_or_create_genre_contract_witness :
  ∃ c1 c2,
    Db.get_or_create_genre (λ _, None) "Crime"
      (Db.Conn (Db.Tables [] [(1, "Action")] [] [] [] []) 0) = Db.Ok 2 c1
    ∧ Db.genres (Db.tx c1) = [(1, "Action"); (2, "Crime")]
    ∧ Db.get_or_create_genre (λ _, None) "Crime" c1 = Db.Ok 2 c2
    ∧ Db.tx c2 = Db.tx c1.
Proof.
  destruct (get_or_create_genre_contract (λ _, None) "Crime"
              (Db.Conn (Db.Tables [] [(1, "Action")] [] [] [] []) 0) (λ _, eq_refl))
    as (id & c1 & H1 & _ & _ & _ & _ & c2 & H2 & H3).
  { vm_compute. apply NoDup_singleton. }
  exists c1, c2. vm_compute in H1. injection H1 as <- <-.
  repeat split; try reflexivity; assumption.
Defined.

(** X2: the same contract for [get_or_create_director] on the directors
    table. *)
Theorem get_or_create_director_contract (faults : nat → option exn) (name : string)
    (c : Db.conn) :
  (∀ n, faults n = None) →
  NoDup (Db.directors (Db.tx c)).*2 →
  ∃ id c1,
    Db.get_or_create_director faults name c = Db.Ok id c1
    ∧ filter (λ r, r.2 = name) (Db.directors (Db.tx c1)) = [(id, name)]
    ∧ NoDup (Db.directors (Db.tx c1)).*2
    ∧ (name ∈ (Db.directors (Db.tx c)).*2 → Db.tx c1 = Db.tx c)
    ∧ (name ∉ (Db.directors (Db.tx c)).*2 →
       (id ∉ (Db.directors (Db.tx c)).*1)
       ∧ Db.directors (Db.tx c1) = Db.directors (Db.tx c) ++ [(id, name)])
    ∧ ∃ c2, Db.get_or_create_director faults name c1 = Db.Ok id c2 ∧ Db.tx c2 = Db.tx c1.
Proof.
  intros Hf Hnd.
  assert (∀ c0 id, NoDup (Db.directors (Db.tx c0)).*2 → (id, name) ∈ Db.directors (Db.tx c0) →
            ∃ c2, Db.get_or_create_director faults name c0 = Db.Ok id c2 ∧ Db.tx c2 = Db.tx c0)
    as Hagain.
  { intros c0 id Hnd0 Hin. pose proof (get_or_create_director_spec faults name c0) as H.
    destruct (select_name_unique name _ id Hnd0 Hin) as [Hs _].
    destruct (Db.get_or_create_director faults name c0) as [id' c2|e c2].
    - exists c2. destruct H as [[Hs' ->]|[Hni _]].
      + split; [congruence|done].
      + destruct Hni. apply list_elem_of_fmap. by exists (id, name).
    - destruct H as (_ & n & _ & Hn). by rewrite Hf in Hn. }
  pose proof (get_or_create_director_spec faults name c) as H.
  destruct (Db.get_or_create_director faults name c) as [id c1|e c1].
  2:{ destruct H as (_ & n & _ & Hn). by rewrite Hf in Hn. }
  exists id, c1. split; [done|]. destruct H as [[Hs Ht]|(Hni & Hid & Ht)].
  - apply select_name_Some in Hs.
    destruct (select_name_unique name _ id Hnd Hs) as [_ Hone].
    split; [by rewrite Ht|]. split; [by rewrite Ht|]. split; [done|]. split.
    + intros Hni. destruct Hni. apply list_elem_of_fmap. by exists (id, name).
    + apply Hagain; by rewrite Ht.
  - assert (NoDup (Db.directors (Db.tx c1)).*2) as Hnd1.
    { rewrite Ht. simpl. rewrite fmap_app. apply NoDup_app. split; [done|].
      split; [|apply NoDup_singleton]. by intros y Hy ->%list_elem_of_singleton. }
    assert ((id, name) ∈ Db.directors (Db.tx c1)) as Hin1.
    { rewrite Ht. simpl. apply elem_of_app. right. left. }
    destruct (select_name_unique name _ id Hnd1 Hin1) as [_ Hone].
    split; [done|]. split; [done|]. split; [done|]. split.
    + intros _. split; [rewrite Hid; apply lastrowid_fresh|by rewrite Ht].
    + by apply Hagain.
Qed.

Lemma get_or_create_director_contract_witness :
  ∃ c1 c2,
    Db.get_or_create_director (λ _, None) "Michael Mann"
      (Db.Conn (Db.Tables [] [] [(4, "John Lasseter")] [] [] []) 0) = Db.Ok 5 c1
    ∧ Db.directors (Db.tx c1) = [(4, "John Lasseter"); (5, "Michael Mann")]
    ∧ Db.get_or_create_director (λ _, None) "Michael Mann" c1 = Db.Ok 5 c2
    ∧ Db.tx c2 = Db.tx c1.
Proof.
  destruct (get_or_create_director_contract (λ _, None) "Michael Mann"
              (Db.Conn (Db.Tables [] [] [(4, "John Lasseter")] [] [] []) 0) (λ _, eq_refl))
    as (id & c1 & H1 & _ & _ & _ & _ & c2 & H2 & H3).
  { vm_compute. apply NoDup_singleton. }
  exists c1, c2. vm_compute in H1. injection H1 as <- <-.
  repeat split; try reflexivity; assumption.
Defined.

(** X3: [upsert_movie], [get_or_create_genre] and [get_or_create_director]
    raise nothing of their own: each insert comes after a lookup that found
    no row, so it cannot hit a uniqueness constraint, and an exception that
    leaves one of them was raised by the engine at one of its statements; the
    tables are then as they were before the call. *)
Theorem guarded_inserts_raise_only_engine_errors (faults : nat → option exn) (c : Db.conn)
    (mid : Db.sqlval) (title name : string) (y r : option Z) (p b : Db.sqlval) :
  match Db.upsert_movie faults mid title y r p b c with
  | Db.Raise e c' =>
      Db.tx c' = Db.tx c
      ∧ ∃ n, (Db.executed c ≤ n < Db.executed c')%nat ∧ faults n = Some e
  | Db.Ok _ _ => True
  end
  ∧ match Db.get_or_create_genre faults name c with
    | Db.Raise e c' =>
        Db.tx c' = Db.tx c
        ∧ ∃ n, (Db.executed c ≤ n < Db.executed c')%nat ∧ faults n = Some e
    | Db.Ok _ _ => True
    end
  ∧ match Db.get_or_create_director faults name c with
    | Db.Raise e c' =>
        Db.tx c' = Db.tx c
        ∧ ∃ n, (Db.executed c ≤ n < Db.executed c')%nat ∧ faults n = Some e
    | Db.Ok _ _ => True
    end.
Proof.
  pose proof (upsert_movie_spec faults mid title y r p b c) as H1.
  pose proof (get_or_create_genre_spec faults name c) as H2.
  pose proof (get_or_create_director_spec faults name c) as H3.
  destruct (Db.upsert_movie _ _ _ _ _ _ _ _), (Db.get_or_create_genre _ _ _),
    (Db.get_or_create_director _ _ _); done.
Qed.

(** ** Loading ratings again *)
Section RatingsAgain.
Import Db.

Abbreviation load_rows := (foldl (λ rows r, replace_rating r rows)).

Lemma replace_rating_filter r rows :
  replace_rating r rows = filter (λ x, rating_key x ≠ rating_key r) rows ++ [r].
Proof.
  unfold replace_rating. f_equal. apply list_filter_iff. intros x. apply same_key_false.
Qed.

(** The loaded table: the old rows whose key no input row has, then the
    input rows that are the last of their key. *)
Lemma load_rows_split rows xs :
  load_rows rows xs =
    filter (λ x, rating_key x ∉ rating_key <$> xs) rows ++ load_rows [] xs.
Proof.
  induction xs as [|x xs IH] using rev_ind.
  - simpl. rewrite app_nil_r. symmetry.
    induction rows as [|r rows IHr]; [done|].
    rewrite filter_cons_True by apply not_elem_of_nil. by rewrite IHr.
  - rewrite !foldl_app. simpl. rewrite IH, !replace_rating_filter, filter_app, app_assoc.
    do 2 f_equal. rewrite list_filter_filter. apply list_filter_iff. intros y.
    rewrite fmap_app, not_elem_of_app. simpl. rewrite list_elem_of_singleton. naive_solver.
Qed.

Lemma load_rows_keys xs r : r ∈ load_rows [] xs → rating_key r ∈ rating_key <$> xs.
Proof.
  induction xs as [|x xs IH] using rev_ind; simpl; [by intros ?%elem_of_nil|].
  rewrite foldl_app. simpl. rewrite replace_rating_filter, elem_of_app, list_elem_of_filter.
  rewrite fmap_app, elem_of_app. intros [[_ H]|H%list_elem_of_singleton].
  - left. by apply IH.
  - subst r. right. left.
Qed.

Lemma load_rows_again rows xs : load_rows (load_rows rows xs) xs = load_rows rows xs.
Proof.
  rewrite (load_rows_split (load_rows rows xs)), (load_rows_split rows xs) at 1.
  rewrite filter_app, list_filter_filter.
  replace (filter _ (load_rows [] xs)) with (@nil rating).
  - rewrite app_nil_r, (load_rows_split rows xs). f_equal.
    apply list_filter_iff. naive_solver.
  - symmetry. generalize (load_rows_keys xs).
    induction (load_rows [] xs) as [|r l IH]; intros Hk; [done|].
    rewrite filter_cons_False.
    + apply IH. intros r' Hr'. apply Hk. by right.
    + intros Hn. apply Hn, Hk. left.
Qed.

End RatingsAgain.

(** X4: with the engine accepting every statement, loading the same rating
    rows a second time leaves every table as the first load left it. *)
Theorem load_ratings_idempotent (faults : nat → option exn)
    (ratings_df : list Db.rating) (c : Db.conn) :
  (∀ n, faults n = None) →
  ∃ c1 c2,
    Db.load_ratings faults ratings_df c = Db.Ok tt c1
    ∧ Db.load_ratings faults ratings_df c1 = Db.Ok tt c2
    ∧ Db.tx c2 = Db.tx c1.
Proof.
  intros Hf. do 2 eexists. split; [by apply load_ratings_fold|].
  split; [by apply load_ratings_fold|]. simpl. by rewrite load_rows_again.
Qed.

Lemma load_ratings_idempotent_witness :
  ∃ c1 c2,
    Db.load_ratings (λ _, None) [Db.Rating 1 10 3 100; Db.Rating 2 10 4 150; Db.Rating 1 10 (9 # 2) 200]
      (Db.Conn (Db.Tables [] [] [] [] [] [Db.Rating 1 10 1 50; Db.Rating 7 7 5 60]) 0) = Db.Ok tt c1
    ∧ Db.load_ratings (λ _, None) [Db.Rating 1 10 3 100; Db.Rating 2 10 4 150; Db.Rating 1 10 (9 # 2) 200] c1
        = Db.Ok tt c2
    ∧ Db.ratings (Db.tx c1) = [Db.Rating 7 7 5 60; Db.Rating 2 10 4 150; Db.Rating 1 10 (9 # 2) 200]
    ∧ Db.tx c2 = Db.tx c1.
Proof.
  destruct (load_ratings_idempotent (λ _, None)
              [Db.Rating 1 10 3 100; Db.Rating 2 10 4 150; Db.Rating 1 10 (9 # 2) 200]
              (Db.Conn (Db.Tables [] [] [] [] [] [Db.Rating 1 10 1 50; Db.Rating 7 7 5 60]) 0)
              (λ _, eq_refl)) as (c1 & c2 & H1 & H2 & H3).
  exists c1, c2. split; [exact H1|]. split; [exact H2|]. split; [|exact H3].
  vm_compute in H1. injection H1 as <-. reflexivity.
Defined.

(** * Further properties of the fetcher *)
Section CacheFileFacts.
Import PyStr.

Lemma contains_app c s t : contains c (s +:+ t) = contains c s || contains c t.
Proof. induction s as [|a s IH]; simpl; [done|]. by rewrite IH, orb_assoc. Qed.

Lemma contains_replace a b s : a ≠ b → contains a (replace a b s) = false.
Proof.
  intros Hab. induction s as [|x s IH]; simpl; [done|]. rewrite IH, orb_false_r.
  destruct (Ascii.eqb_spec x a) as [->|Hx].
  - apply Ascii.eqb_neq. congruence.
  - by apply Ascii.eqb_neq.
Qed.

End CacheFileFacts.

(** X5: whatever the title and the year, the cache file name contains no
    path separator and ends in [.json], so that the file lies directly in the
    cache directory. *)
Theorem cache_file_is_plain_name (title : string) (year : option Z) :
  PyStr.contains "/" (Omdb.cache_file title year) = false
  ∧ ∃ stem, Omdb.cache_file title year = stem +:+ ".json"
      ∧ PyStr.contains "/" stem = false.
Proof.
  unfold Omdb.cache_file. split.
  - rewrite contains_app, contains_replace by done. reflexivity.
  - eexists. split; [done|]. by apply contains_replace.
Qed.

Section FetcherFacts.
Import Omdb.
Variable fs : string → option exn.
Variable network : nat → string → option string → response.

Lemma attempts_year_zero k a title w :
  attempts network k a title (Some 0) w = attempts network k a title None w.
Proof.
  revert a w. induction k as [|k IH]; intros a w; simpl; [done|].
  destruct (network _ _ _); by rewrite ?IH.
Qed.

Lemma backoff_sum a k :
  foldr Z.add 0 (backoff a k) = 2 ^ Z.of_nat a * (2 ^ Z.of_nat k - 1).
Proof.
  revert a. induction k as [|k IH]; intros a.
  - unfold backoff. simpl. lia.
  - rewrite backoff_S. simpl foldr. rewrite IH.
    rewrite !Nat2Z.inj_succ, !Z.pow_succ_r by lia. lia.
Qed.

(** One fetch: at most four requests more, and what was in the cache stays. *)
Lemma omdb_lookup_frame title year w :
  match omdb_lookup fs network title year w with
  | inr (_, w') =>
      (requests w ≤ requests w' ≤ requests w + 4)%nat
      ∧ (∀ f d, cache w !! f = Some d → cache w' !! f = Some d)
  | inl _ => True
  end.
Proof.
  unfold omdb_lookup. destruct (cache w !! cache_file title year) eqn:Hc.
  - split; [lia|done].
  - destruct (fs (cache_file title year)); [done|].
    destruct (attempts_cases network 4 0 title year w)
      as [(j & d & Hj & _ & _ & ->)|[_ ->]]; simpl.
    + split; [lia|]. intros f d' Hf. rewrite lookup_insert_ne; [done|]. congruence.
    + split; [lia|done].
Qed.

End FetcherFacts.

(** X6: a year of 0 counts as no year: the fetch uses the cache file of the
    bare title, sends no [y] parameter, and returns what the fetch without a
    year returns. *)
Theorem omdb_lookup_year_zero (fs : string → option exn)
    (network : nat → string → option string → Omdb.response) (title : string)
    (w : Omdb.world) :
  Omdb.cache_file title (Some 0) = Omdb.cache_file title None
  ∧ Omdb.year_param (Some 0) = None
  ∧ Omdb.omdb_lookup fs network title (Some 0) w = Omdb.omdb_lookup fs network title None w.
Proof.
  split; [done|]. split; [done|].
  unfold Omdb.omdb_lookup.
  change (Omdb.cache_file title (Some 0)) with (Omdb.cache_file title None).
  by rewrite attempts_year_zero.
Qed.

(** X7: when the first [j] attempts of a fetch fail and the next one brings a
    structured response, with [j] below 4, the fetch has slept [j] times, for
    1, 2, 4, ... units in this order, [2^j - 1] units in all, and has issued
    [j + 1] requests. *)
Theorem omdb_lookup_backoff_schedule (fs : string → option exn)
    (network : nat → string → option string → Omdb.response)
    (title : string) (year : option Z) (w : Omdb.world) (j : nat) (data : json) :
  Omdb.cache w !! Omdb.cache_file title year = None →
  fs (Omdb.cache_file title year) = None →
  (j < 4)%nat →
  (∀ i, (i < j)%nat →
     Omdb.is_failure (network (Omdb.requests w + i)%nat title (Omdb.year_param year)) = true) →
  network (Omdb.requests w + j)%nat title (Omdb.year_param year) = Omdb.Structured data →
  ∃ w', Omdb.omdb_lookup fs network title year w = inr (data, w')
    ∧ Omdb.slept w' = Omdb.slept w ++ ((λ i, 2 ^ Z.of_nat i) <$> seq 0 j)
    ∧ foldr Z.add 0 ((λ i, 2 ^ Z.of_nat i) <$> seq 0 j) = 2 ^ Z.of_nat j - 1
    ∧ Omdb.requests w' = (Omdb.requests w + j + 1)%nat.
Proof.
  intros Hmiss Hfs Hj Hf Hs. eexists. split.
  { rewrite (omdb_lookup_miss _ _ _ _ _ Hmiss Hfs). f_equal.
    apply (attempts_success network 4 0 title year w j data Hj Hf Hs). }
  simpl. split; [done|]. split; [|done].
  pose proof (backoff_sum 0 j) as H. unfold Omdb.backoff in H. simpl in H.
  rewrite H. lia.
Qed.

Lemma omdb_lookup_backoff_schedule_witness :
  let network := λ n (_ : string) (_ : option string),
    if (n <? 3)%nat then Omdb.TransportError
    else Omdb.Structured (JObj [("Response", JStr "True")]) in
  ∃ w', Omdb.omdb_lookup (λ _, None) network "Heat" (Some 1995) (Omdb.World ∅ 0 [])
          = inr (JObj [("Response", JStr "True")], w')
    ∧ Omdb.slept w' = [1; 2; 4] ∧ Omdb.requests w' = 4%nat.
Proof.
  intros network.
  assert (∀ i, (i < 3)%nat →
            Omdb.is_failure (network (0 + i)%nat "Heat" (Some "1995")) = true) as Hf.
  { intros i Hi. do 3 (destruct i as [|i]; [reflexivity|]). lia. }
  destruct (omdb_lookup_backoff_schedule (λ _, None) network "Heat" (Some 1995)
              (Omdb.World ∅ 0 []) 3
              (JObj [("Response", JStr "True")]) (lookup_empty _) eq_refl ltac:(lia) Hf eq_refl)
    as (w' & H1 & H2 & _ & H4).
  exists w'. exact (conj H1 (conj H2 H4)).
Defined.

(** * Decimal text and the parsers that read it back *)
Section DecimalFacts.
Import PyStr.
Implicit Types (p : ascii → bool) (s t : string).

Lemma append_cons a s t : String a s +:+ t = String a (s +:+ t).
Proof. reflexivity. Qed.

Lemma append_nil s : EmptyString +:+ s = s.
Proof. reflexivity. Qed.

Lemma append_assoc s t u : (s +:+ t) +:+ u = s +:+ (t +:+ u).
Proof. induction s as [|a s IH]; [done|]. by rewrite !append_cons, IH. Qed.

Lemma chars_app s t :
  list_ascii_of_string (s +:+ t) = list_ascii_of_string s ++ list_ascii_of_string t.
Proof. induction s as [|a s IH]; [done|]. rewrite append_cons. simpl. by rewrite IH. Qed.

Lemma lstrip_by_clean p s :
  Forall (λ a, p a = false) (list_ascii_of_string s) → lstrip_by p s = s.
Proof. destruct s as [|a s]; simpl; [done|]. intros [Ha _]%Forall_cons. by rewrite Ha. Qed.

Lemma rstrip_by_clean p s :
  Forall (λ a, p a = false) (list_ascii_of_string s) → rstrip_by p s = s.
Proof.
  induction s as [|a s IH]; simpl; [done|].
  intros [Ha Hs]%Forall_cons. by rewrite IH, Ha.
Qed.

Lemma contains_clean c s :
  Forall (λ a, Ascii.eqb a c = false) (list_ascii_of_string s) → contains c s = false.
Proof.
  induction s as [|a s IH]; simpl; [done|].
  intros [Ha Hs]%Forall_cons. by rewrite IH, Ha.
Qed.

Lemma rstrip_by_snoc p s a : p a = true → rstrip_by p (s +:+ String a EmptyString) = rstrip_by p s.
Proof.
  intros Ha. induction s as [|x s IH]; [simpl; by rewrite Ha|].
  rewrite append_cons. simpl. by rewrite IH.
Qed.

Lemma strip_by_snoc p s a :
  p a = true →
  rstrip_by p (lstrip_by p (s +:+ String a EmptyString)) = rstrip_by p (lstrip_by p s).
Proof.
  intros Ha. induction s as [|x s IH]; [simpl; by rewrite Ha|].
  rewrite append_cons. simpl. destruct (p x) eqn:Hx; [done|].
  rewrite <-append_cons. by apply rstrip_by_snoc.
Qed.

Lemma endswith_snoc c s : endswith c (s +:+ String c EmptyString) = true.
Proof.
  induction s as [|a s IH]; [simpl; apply Ascii.eqb_refl|].
  rewrite append_cons. simpl.
  destruct (s +:+ String c EmptyString) eqn:E; [by destruct s|done].
Qed.

Lemma has_substring_app q s t : has_substring q t = true → has_substring q (s +:+ t) = true.
Proof.
  intros Ht. induction s as [|a s IH]; [done|].
  rewrite append_cons. simpl. by rewrite IH, orb_true_r.
Qed.

Lemma split_ws_aux_clean cur s t :
  Forall (λ a, is_space a = false) (list_ascii_of_string s) →
  split_ws_aux cur (s +:+ t) = split_ws_aux (cur +:+ s) t.
Proof.
  revert cur. induction s as [|a s IH]; intros cur.
  - intros _. rewrite append_nil. f_equal.
    induction cur as [|x cur IHc]; [done|]. by rewrite append_cons, <-IHc.
  - intros [Ha Hs]%Forall_cons. rewrite append_cons. simpl. rewrite Ha, IH by done.
    by rewrite append_assoc, append_cons, append_nil.
Qed.

Lemma digit_not_space a : is_Some (digit_val a) → is_space a = false ∧ is_int_space a = false.
Proof.
  unfold digit_val, is_space, is_int_space. generalize (nat_of_ascii a). intros n.
  destruct (Nat.leb_spec 48 n), (Nat.leb_spec n 57); simpl; try by intros [? [=]].
  intros _.
  destruct (Nat.leb_spec 9 n), (Nat.leb_spec n 13), (Nat.leb_spec 28 n), (Nat.leb_spec n 32),
    (Nat.eqb_spec n 32), (Nat.eqb_spec n 133), (Nat.eqb_spec n 160); simpl; try done; lia.
Qed.

Lemma digit_not_char a c : is_Some (digit_val a) → digit_val c = None → Ascii.eqb a c = false.
Proof.
  intros Ha Hc. destruct (Ascii.eqb_spec a c) as [->|]; [|done].
  rewrite Hc in Ha. by destruct Ha.
Qed.

Lemma uint_chars d :
  Forall (λ a, is_Some (digit_val a)) (list_ascii_of_string (NilEmpty.string_of_uint d)).
Proof. induction d; simpl; constructor; try done; by eexists. Qed.

Lemma int_digits_acc d acc :
  int_digits (Z.pos acc) true (NilEmpty.string_of_uint d) = Some (Z.pos (Pos.of_uint_acc d acc)).
Proof.
  revert acc. induction d; intros acc; simpl; [done|..];
    rewrite <-IHd; f_equal;
    match goal with
    | |- context [Z.of_nat (nat_of_ascii ?c) - 48] =>
        let v := eval vm_compute in (Z.of_nat (nat_of_ascii c) - 48) in
        change (Z.of_nat (nat_of_ascii c) - 48) with v
    end; lia.
Qed.

Lemma int_digits_zero d :
  int_digits 0 true (NilEmpty.string_of_uint d) = Some (Z.of_N (Pos.of_uint d)).
Proof. induction d; simpl; [done|done|..]; apply int_digits_acc. Qed.

Lemma int_digits_uint d :
  d ≠ Decimal.Nil →
  int_digits 0 false (NilEmpty.string_of_uint d) = Some (Z.of_N (Pos.of_uint d)).
Proof.
  destruct d; simpl; [done|intros _; apply int_digits_zero|..]; intros _; apply int_digits_acc.
Qed.

Lemma to_uint_not_nil q : Pos.to_uint q ≠ Decimal.Nil.
Proof.
  intros H. pose proof (DecimalPos.Unsigned.of_to q) as E. rewrite H in E. discriminate E.
Qed.

Lemma str_of_pos q :
  str_of_int (Z.pos q) = NilEmpty.string_of_uint (Pos.to_uint q).
Proof.
  unfold str_of_int. simpl. unfold NilZero.string_of_uint.
  pose proof (to_uint_not_nil q). by destruct (Pos.to_uint q).
Qed.

Lemma str_of_neg q :
  str_of_int (Z.neg q) = String "-" (NilEmpty.string_of_uint (Pos.to_uint q)).
Proof.
  unfold str_of_int. simpl. unfold NilZero.string_of_uint.
  pose proof (to_uint_not_nil q). by destruct (Pos.to_uint q).
Qed.

(** The characters of [str(n)]: digits, after at most one minus sign. *)
Lemma str_of_int_chars n :
  Forall (λ a, is_Some (digit_val a) ∨ a = "-"%char) (list_ascii_of_string (str_of_int n)).
Proof.
  destruct n as [|q|q].
  - repeat constructor. by eexists.
  - rewrite str_of_pos. eapply Forall_impl; [apply uint_chars|]. naive_solver.
  - rewrite str_of_neg. simpl. constructor; [by right|].
    eapply Forall_impl; [apply uint_chars|]. naive_solver.
Qed.

Lemma str_of_int_clean p n :
  (∀ a, is_Some (digit_val a) → p a = false) → p "-"%char = false →
  Forall (λ a, p a = false) (list_ascii_of_string (str_of_int n)).
Proof.
  intros Hd Hm. eapply Forall_impl; [apply str_of_int_chars|].
  intros a [Ha| ->]; auto.
Qed.

Lemma int_literal_uint d :
  d ≠ Decimal.Nil →
  int_literal (NilEmpty.string_of_uint d) = Some (Z.of_N (Pos.of_uint d)).
Proof.
  intros Hd. unfold int_literal.
  assert (Forall (λ a, is_int_space a = false)
            (list_ascii_of_string (NilEmpty.string_of_uint d))) as Hc.
  { eapply Forall_impl; [apply uint_chars|]. intros a Ha. by apply digit_not_space. }
  rewrite lstrip_by_clean, rstrip_by_clean by done.
  rewrite <-(int_digits_uint d Hd). by destruct d.
Qed.

(** The literal [str(n)] has the value [n]. *)
Lemma int_literal_str_of_int n : int_literal (str_of_int n) = Some n.
Proof.
  destruct n as [|q|q]; [done|..].
  - rewrite str_of_pos, int_literal_uint by apply to_uint_not_nil.
    by rewrite DecimalPos.Unsigned.of_to.
  - rewrite str_of_neg. unfold int_literal.
    assert (Forall (λ a, is_int_space a = false)
              (list_ascii_of_string (String "-" (NilEmpty.string_of_uint (Pos.to_uint q)))))
      as Hc.
    { constructor; [done|]. eapply Forall_impl; [apply uint_chars|].
      intros a Ha. by apply digit_not_space. }
    rewrite lstrip_by_clean, rstrip_by_clean by done.
    rewrite int_digits_uint by apply to_uint_not_nil.
    by rewrite DecimalPos.Unsigned.of_to.
Qed.

(** [int(str(n))] is [n], for an [n] the interpreter converts. *)
Lemma py_int_str_of_int n :
  digit_count (str_of_int n) ≤ int_max_str_digits → py_int (str_of_int n) = Some n.
Proof.
  intros H. unfold py_int. apply Z.ltb_ge in H. rewrite H. apply int_literal_str_of_int.
Qed.

Lemma str_of_int_inj n m : str_of_int n = str_of_int m → n = m.
Proof.
  intros H. pose proof (int_literal_str_of_int n) as Hn.
  rewrite H, int_literal_str_of_int in Hn. congruence.
Qed.

Lemma str_of_int_nonempty n : str_of_int n ≠ EmptyString.
Proof. intros H. pose proof (int_literal_str_of_int n) as Hn. by rewrite H in Hn. Qed.

End DecimalFacts.

(** X8: a title written as the bare title, a space, and the year in
    parentheses parses back to the trimmed bare title and that year, whatever
    the bare title contains (parentheses included), for every year whose
    decimal text stays within the interpreter's limit of 4300 digits. *)
Theorem parse_title_of_formatted (title : string) (year : Z) :
  PyStr.digit_count (PyStr.str_of_int year) ≤ PyStr.int_max_str_digits →
  Title.parse_title (title +:+ " (" +:+ PyStr.str_of_int year +:+ ")")
  = (PyStr.strip title, Some year).
Proof.
  intros Hlimit.
  assert (Forall (λ a, Ascii.eqb a "(" = false)
            (list_ascii_of_string (PyStr.str_of_int year))) as Hopen.
  { apply (str_of_int_clean (λ a, Ascii.eqb a "(")); [|done].
    intros a Ha. by apply digit_not_char. }
  assert (Forall (λ a, Ascii.eqb a ")" = false)
            (list_ascii_of_string (PyStr.str_of_int year))) as Hclose.
  { apply (str_of_int_clean (λ a, Ascii.eqb a ")")); [|done].
    intros a Ha. by apply digit_not_char. }
  replace (title +:+ " (" +:+ PyStr.str_of_int year +:+ ")")
    with ((title +:+ " ") +:+ String "(" (PyStr.str_of_int year +:+ ")"))
    by (by rewrite append_assoc).
  rewrite parse_title_cut.
  - unfold PyStr.rstrip_char. rewrite rstrip_by_snoc by done.
    rewrite rstrip_by_clean by done. rewrite py_int_str_of_int by done.
    f_equal. unfold PyStr.strip. by apply strip_by_snoc.
  - rewrite contains_app, contains_clean by done. reflexivity.
  - replace ((title +:+ " ") +:+ String "(" (PyStr.str_of_int year +:+ ")"))
      with (((title +:+ " ") +:+ String "(" (PyStr.str_of_int year)) +:+ ")")
      by (by rewrite !append_assoc).
    apply endswith_snoc.
Qed.

Lemma parse_title_of_formatted_witness :
  Title.parse_title "Heat (1995)" = ("Heat", Some 1995).
Proof.
  apply (parse_title_of_formatted "Heat" 1995). vm_compute. discriminate.
Defined.

(** The identity [main] falls back to, and that it tells movie ids apart. *)
Lemma movie_unique_id_fallback (row : Driver.movie_row) (f : Driver.fields) :
  truthy (Driver.imdb_id f) = false →
  Driver.to_sql (Driver.movie_unique_id row f)
  = inr (Db.SText ("ML_" +:+ PyStr.str_of_int (Driver.row_movieId row))).
Proof. intros H. unfold Driver.movie_unique_id. by rewrite H. Qed.

Lemma fallback_text_distinct (a b : Z) :
  a ≠ b →
  Db.sql_eq (Db.SText ("ML_" +:+ PyStr.str_of_int a)) (Db.SText ("ML_" +:+ PyStr.str_of_int b))
  = false.
Proof.
  intros Hab. apply bool_decide_eq_false_2. intros H. apply Hab, str_of_int_inj.
  assert ("ML_" +:+ PyStr.str_of_int a = "ML_" +:+ PyStr.str_of_int b) as H' by congruence.
  by injection H'.
Qed.

(** X10: a [Runtime] field that reads as a decimal integer of at most 4300
    digits, a space and [min] gives that integer as the runtime. *)
Theorem parse_runtime_of_minutes (items : list (string * json)) (n : Z) :
  PyStr.digit_count (PyStr.str_of_int n) ≤ PyStr.int_max_str_digits →
  Json.assoc "Runtime" items = Some (JStr (PyStr.str_of_int n +:+ " min")) →
  Driver.parse_runtime (JObj items) = Some n.
Proof.
  intros Hlimit Hr. unfold Driver.parse_runtime, Json.get. rewrite Hr. simpl.
  assert (PyStr.is_empty (PyStr.str_of_int n +:+ " min") = false) as ->.
  { pose proof (str_of_int_nonempty n). by destruct (PyStr.str_of_int n). }
  rewrite has_substring_app by done. simpl.
  unfold PyStr.split_ws. rewrite split_ws_aux_clean.
  2:{ apply (str_of_int_clean PyStr.is_space); [|done]. intros a Ha. by apply digit_not_space. }
  rewrite append_nil. simpl.
  pose proof (str_of_int_nonempty n) as Hne.
  destruct (PyStr.str_of_int n) eqn:E; [done|]. simpl. rewrite <-E.
  apply py_int_str_of_int. by rewrite E.
Qed.

Lemma parse_runtime_of_minutes_witness :
  Driver.parse_runtime
    (JObj [("Title", JStr "Heat"); ("Runtime", JStr "170 min")]) = Some 170.
Proof.
  apply (parse_runtime_of_minutes
           [("Title", JStr "Heat"); ("Runtime", JStr "170 min")] 170).
  - vm_compute. discriminate.
  - reflexivity.
Defined.

(** * Invariants of the movie pass *)
Section HoareRules.
Import Db Hoare Driver.
Variable faults : nat → option exn.

Lemma hoare_ret {A} (a : A) (Q : A → tables → Prop) E : hoare (Q a) (mret a) Q E.
Proof. intros c H. exact H. Qed.

Lemma hoare_bind {A B} P (m : M A) (f : A → M B) (Q' : A → tables → Prop) Q E :
  hoare P m Q' E → (∀ a, hoare (Q' a) (f a) Q E) → hoare P (m ≫= f) Q E.
Proof.
  intros Hm Hf c HP. specialize (Hm c HP). unfold mbind, M_bind.
  destruct (m c) as [a c1|e c1]; [by apply Hf|done].
Qed.

Lemma hoare_conseq {A} (P P' : tables → Prop) (m : M A)
    (Q Q' : A → tables → Prop) (E E' : exn → tables → Prop) :
  hoare P' m Q' E' →
  (∀ t, P t → P' t) → (∀ a t, Q' a t → Q a t) → (∀ e t, E' e t → E e t) →
  hoare P m Q E.
Proof.
  intros Hm HP HQ HE c Hc. specialize (Hm c (HP _ Hc)).
  destruct (m c); auto.
Qed.

Lemma hoare_lift {A} (r : exn + A) (P : tables → Prop) Q E :
  (∀ t, P t → match r with inl e => E e t | inr a => Q a t end) →
  hoare P (lift r) Q E.
Proof. intros H c Hc. specialize (H _ Hc). by destruct r. Qed.

Lemma hoare_for_each {A} (xs : list A) (body : A → M unit) (I : tables → Prop) E :
  (∀ x, x ∈ xs → hoare I (body x) (λ _, I) E) →
  hoare I (for_each xs body) (λ _, I) E.
Proof.
  induction xs as [|x xs IH]; intros Hb; simpl; [by intros c H|].
  apply (hoare_bind I _ _ (λ _, I)); [apply Hb; left|]. intros _. apply IH.
  intros y Hy. apply Hb. by right.
Qed.

(** *** How the tables move *)

Lemma grows_refl t : grows t t.
Proof. by constructor. Qed.

Lemma grows_trans t1 t2 t3 : grows t1 t2 → grows t2 t3 → grows t1 t3.
Proof.
  intros [] []. constructor; first [by etrans|congruence].
Qed.

Lemma grows_movie_id t t' i :
  grows t t' → i ∈ (mv_id <$> movies t) → i ∈ (mv_id <$> movies t').
Proof.
  intros [[k Hk] _ _ _ _ _] Hi.
  assert (mv_id <$> movies t' = (mv_id <$> movies t) ++ (fst ∘ fst <$> k)) as ->.
  { transitivity (fst ∘ fst <$> (movie_key <$> movies t')).
    - rewrite <-list_fmap_compose. by apply list_fmap_ext.
    - by rewrite Hk, fmap_app, <-list_fmap_compose. }
  apply elem_of_app. by left.
Qed.

Lemma grows_genre_id t t' i : grows t t' → i ∈ (genres t).*1 → i ∈ (genres t').*1.
Proof. intros [_ [k ->] _ _ _ _] Hi. rewrite fmap_app, elem_of_app. by left. Qed.

Lemma grows_director_id t t' i : grows t t' → i ∈ (directors t).*1 → i ∈ (directors t').*1.
Proof. intros [_ _ [k ->] _ _ _] Hi. rewrite fmap_app, elem_of_app. by left. Qed.

Lemma update_movie_keys id y r p b ms :
  movie_key <$> update_movie id y r p b ms = movie_key <$> ms.
Proof.
  unfold update_movie. rewrite <-list_fmap_compose. apply list_fmap_ext.
  intros _ m _. unfold update_row. simpl. by destruct (Z.eqb _ _).
Qed.

Lemma update_movie_ids id y r p b ms : mv_id <$> update_movie id y r p b ms = mv_id <$> ms.
Proof.
  unfold update_movie. rewrite <-list_fmap_compose. apply list_fmap_ext.
  intros _ m _. unfold update_row. simpl. by destruct (Z.eqb _ _).
Qed.

Lemma NoDup_snoc {A} (l : list A) x : NoDup l → x ∉ l → NoDup (l ++ [x]).
Proof.
  intros Hl Hx. apply NoDup_app. split; [done|]. split; [|apply NoDup_singleton].
  by intros y Hy ->%list_elem_of_singleton.
Qed.

Lemma schema_ok_movies t ms :
  schema_ok t → NoDup (mv_id <$> ms) →
  (∀ i, i ∈ (mv_id <$> movies t) → i ∈ (mv_id <$> ms)) →
  schema_ok (Tables ms (genres t) (directors t) (movie_genres t) (movie_directors t) (ratings t)).
Proof.
  intros [] Hnd Hsub. constructor; simpl; try done.
  - intros m g Hin. destruct (ok_genre_refs0 m g Hin). auto.
  - intros m d Hin. destruct (ok_director_refs0 m d Hin). auto.
Qed.

Lemma schema_ok_genre t id name :
  schema_ok t → id ∉ (genres t).*1 → name ∉ (genres t).*2 →
  schema_ok (Tables (movies t) (genres t ++ [(id, name)]) (directors t) (movie_genres t)
               (movie_directors t) (ratings t)).
Proof.
  intros [] Hid Hname. constructor; simpl; try done.
  - rewrite fmap_app. by apply NoDup_snoc.
  - rewrite fmap_app. by apply NoDup_snoc.
  - intros m g Hin. destruct (ok_genre_refs0 m g Hin). split; [done|].
    rewrite fmap_app, elem_of_app. by left.
Qed.

Lemma schema_ok_director t id name :
  schema_ok t → id ∉ (directors t).*1 → name ∉ (directors t).*2 →
  schema_ok (Tables (movies t) (genres t) (directors t ++ [(id, name)]) (movie_genres t)
               (movie_directors t) (ratings t)).
Proof.
  intros [] Hid Hname. constructor; simpl; try done.
  - rewrite fmap_app. by apply NoDup_snoc.
  - rewrite fmap_app. by apply NoDup_snoc.
  - intros m g Hin. destruct (ok_director_refs0 m g Hin). split; [done|].
    rewrite fmap_app, elem_of_app. by left.
Qed.

Lemma schema_ok_movie_genre t m g :
  schema_ok t → (m, g) ∉ movie_genres t →
  m ∈ (mv_id <$> movies t) → g ∈ (genres t).*1 →
  schema_ok (Tables (movies t) (genres t) (directors t) (movie_genres t ++ [(m, g)])
               (movie_directors t) (ratings t)).
Proof.
  intros [] Hni Hm Hg. constructor; simpl; try done.
  - by apply NoDup_snoc.
  - intros m' g' [Hin|Hin%list_elem_of_singleton]%elem_of_app; [auto|]. by simplify_eq.
Qed.

Lemma schema_ok_movie_director t m d :
  schema_ok t → (m, d) ∉ movie_directors t →
  m ∈ (mv_id <$> movies t) → d ∈ (directors t).*1 →
  schema_ok (Tables (movies t) (genres t) (directors t) (movie_genres t)
               (movie_directors t ++ [(m, d)]) (ratings t)).
Proof.
  intros [] Hni Hm Hd. constructor; simpl; try done.
  - by apply NoDup_snoc.
  - intros m' d' [Hin|Hin%list_elem_of_singleton]%elem_of_app; [auto|]. by simplify_eq.
Qed.

End HoareRules.

Section StoreInvariants.
Import Db Hoare Driver Records.
Variable faults : nat → option exn.
Variable isna_list : list json → exn + bool.

Lemma hoare_ghost {A} (P : tables → Prop) (m : M A) Q E :
  (∀ t1, P t1 → hoare (λ t, t = t1) m Q E) → hoare P m Q E.
Proof. intros H c Hc. by apply (H (tx c) Hc c). Qed.

(** *** Rows are only added *)

Lemma upsert_movie_moves mid title y r p b c :
  match upsert_movie faults mid title y r p b c with
  | Ok _ c' => grows (tx c) (tx c')
  | Raise e c' => tx c' = tx c ∧ ∃ n, faults n = Some e
  end.
Proof.
  pose proof (upsert_movie_spec faults mid title y r p b c) as H.
  destruct (upsert_movie faults mid title y r p b c) as [id c'|e c'].
  2:{ destruct H as (-> & n & _ & Hn). eauto. }
  destruct H as [(found & Hh & -> & ->)|(Hm & -> & ->)]; unfold with_movies.
  - constructor; simpl; try done. by rewrite update_movie_keys.
  - constructor; simpl; try done. rewrite fmap_app. by apply prefix_app_r.
Qed.

Lemma get_or_create_genre_moves name c :
  match get_or_create_genre faults name c with
  | Ok _ c' => grows (tx c) (tx c')
  | Raise e c' => tx c' = tx c ∧ ∃ n, faults n = Some e
  end.
Proof.
  pose proof (get_or_create_genre_spec faults name c) as H.
  destruct (get_or_create_genre faults name c) as [id c'|e c'].
  2:{ destruct H as (-> & n & _ & Hn). eauto. }
  destruct H as [[Hs ->]|(Hni & -> & ->)]; [apply grows_refl|].
  constructor; simpl; try done. by apply prefix_app_r.
Qed.

Lemma get_or_create_director_moves name c :
  match get_or_create_director faults name c with
  | Ok _ c' => grows (tx c) (tx c')
  | Raise e c' => tx c' = tx c ∧ ∃ n, faults n = Some e
  end.
Proof.
  pose proof (get_or_create_director_spec faults name c) as H.
  destruct (get_or_create_director faults name c) as [id c'|e c'].
  2:{ destruct H as (-> & n & _ & Hn). eauto. }
  destruct H as [[Hs ->]|(Hni & -> & ->)]; [apply grows_refl|].
  constructor; simpl; try done. by apply prefix_app_r.
Qed.

Lemma link_movie_genre_moves m g c :
  match link_movie_genre faults m g c with
  | Ok _ c' => grows (tx c) (tx c')
  | Raise e c' => tx c' = tx c ∧ ∃ n, faults n = Some e
  end.
Proof.
  pose proof (link_movie_genre_spec faults m g c) as H.
  destruct (link_movie_genre faults m g c) as [u c'|e c'].
  2:{ destruct H as (-> & _ & n & _ & Hn). eauto. }
  destruct H as [->|[Hni ->]]; [apply grows_refl|].
  constructor; simpl; try done. by apply prefix_app_r.
Qed.

Lemma link_movie_director_moves m d c :
  match link_movie_director faults m d c with
  | Ok _ c' => grows (tx c) (tx c')
  | Raise e c' => tx c' = tx c ∧ ∃ n, faults n = Some e
  end.
Proof.
  pose proof (link_movie_director_spec faults m d c) as H.
  destruct (link_movie_director faults m d c) as [u c'|e c'].
  2:{ destruct H as (-> & _ & n & _ & Hn). eauto. }
  destruct H as [->|[Hni ->]]; [apply grows_refl|].
  constructor; simpl; try done. by apply prefix_app_r.
Qed.

(** *** The keys stay keys *)

Lemma upsert_movie_schema mid title y r p b c :
  schema_ok (tx c) →
  match upsert_movie faults mid title y r p b c with
  | Ok id c' => schema_ok (tx c') ∧ id ∈ (mv_id <$> movies (tx c'))
  | Raise _ _ => True
  end.
Proof.
  intros Hok. pose proof (upsert_movie_spec faults mid title y r p b c) as H.
  destruct (upsert_movie faults mid title y r p b c) as [id c'|e c']; [|done].
  destruct H as [(found & Hh & -> & ->)|(Hm & -> & ->)]; unfold with_movies.
  - split.
    + apply schema_ok_movies; [done| |]; rewrite update_movie_ids; [apply Hok|done].
    + simpl. rewrite update_movie_ids. apply list_elem_of_fmap. exists found. split; [done|].
      apply head_Some_elem_of in Hh. unfold matching in Hh.
      by apply list_elem_of_filter in Hh as [_ ?].
  - split; simpl.
    + apply schema_ok_movies; [done| |].
      * rewrite fmap_app. apply NoDup_snoc; [apply Hok|apply lastrowid_fresh].
      * intros i Hi. rewrite fmap_app, elem_of_app. by left.
    + rewrite fmap_app, elem_of_app. right. left.
Qed.

Lemma get_or_create_genre_schema name c :
  schema_ok (tx c) →
  match get_or_create_genre faults name c with
  | Ok id c' => schema_ok (tx c') ∧ id ∈ (genres (tx c')).*1
  | Raise _ _ => True
  end.
Proof.
  intros Hok. pose proof (get_or_create_genre_spec faults name c) as H.
  destruct (get_or_create_genre faults name c) as [id c'|e c']; [|done].
  destruct H as [[Hs ->]|(Hni & -> & ->)].
  - split; [done|].
    apply select_name_Some in Hs. apply list_elem_of_fmap. by exists (id, name).
  - split; simpl.
    + apply schema_ok_genre; [done|apply lastrowid_fresh|done].
    + rewrite fmap_app, elem_of_app. right. left.
Qed.

Lemma get_or_create_director_schema name c :
  schema_ok (tx c) →
  match get_or_create_director faults name c with
  | Ok id c' => schema_ok (tx c') ∧ id ∈ (directors (tx c')).*1
  | Raise _ _ => True
  end.
Proof.
  intros Hok. pose proof (get_or_create_director_spec faults name c) as H.
  destruct (get_or_create_director faults name c) as [id c'|e c']; [|done].
  destruct H as [[Hs ->]|(Hni & -> & ->)].
  - split; [done|].
    apply select_name_Some in Hs. apply list_elem_of_fmap. by exists (id, name).
  - split; simpl.
    + apply schema_ok_director; [done|apply lastrowid_fresh|done].
    + rewrite fmap_app, elem_of_app. right. left.
Qed.

Lemma link_movie_genre_schema m g c :
  schema_ok (tx c) → m ∈ (mv_id <$> movies (tx c)) → g ∈ (genres (tx c)).*1 →
  match link_movie_genre faults m g c with
  | Ok _ c' => schema_ok (tx c')
  | Raise _ _ => True
  end.
Proof.
  intros Hok Hm Hg. pose proof (link_movie_genre_spec faults m g c) as H.
  destruct (link_movie_genre faults m g c) as [u c'|e c']; [|done].
  destruct H as [->|[Hni ->]]; [done|]. by apply schema_ok_movie_genre.
Qed.

Lemma link_movie_director_schema m d c :
  schema_ok (tx c) → m ∈ (mv_id <$> movies (tx c)) → d ∈ (directors (tx c)).*1 →
  match link_movie_director faults m d c with
  | Ok _ c' => schema_ok (tx c')
  | Raise _ _ => True
  end.
Proof.
  intros Hok Hm Hd. pose proof (link_movie_director_spec faults m d c) as H.
  destruct (link_movie_director faults m d c) as [u c'|e c']; [|done].
  destruct H as [->|[Hni ->]]; [done|]. by apply schema_ok_movie_director.
Qed.

Lemma to_sql_bindable j : bindable j = true → ∃ v, to_sql j = inr v.
Proof. destruct j as [| |n| | |]; simpl; try done; eauto. intros ->. eauto. Qed.

(** With [store_ok] none of the conversions of [store_movie] fails. *)
Lemma store_ok_inv row year f :
  store_ok row year f = true →
  (∃ mid, to_sql (movie_unique_id row f) = inr mid)
  ∧ (∃ p b, bound_fields year f = inr (p, b)
       ∧ to_sql (plot f) = inr p ∧ to_sql (box_office f) = inr b)
  ∧ (∃ ml, ml_genres_list (row_genres row) = inr ml)
  ∧ (∃ og, omdb_genres_list isna_list (omdb_genres f) = inr og)
  ∧ (∃ names, director_names (director_field f) = inr names).
Proof.
  unfold store_ok, fields_ok. intros H.
  apply andb_true_iff in H as [H Hf]. apply andb_true_iff in H as [Hy Hc].
  apply andb_true_iff in Hf as [Hf Hd]. apply andb_true_iff in Hf as [Hf Hg].
  apply andb_true_iff in Hf as [Hf Hb]. apply andb_true_iff in Hf as [Hf Hp].
  apply andb_true_iff in Hf as [Hi Hr].
  split; [|split; [|split; [|split]]].
  - unfold movie_unique_id. destruct (truthy (imdb_id f)) eqn:Ht; [|simpl; eauto].
    rewrite orb_false_r in Hi. by apply to_sql_bindable.
  - unfold bound_fields. rewrite Hy, Hr. simpl.
    destruct (to_sql_bindable _ Hp) as [p Hp']. destruct (to_sql_bindable _ Hb) as [b Hb'].
    rewrite Hp', Hb'. eauto.
  - destruct (row_genres row) as [x| |n]; simpl in *; eauto. rewrite Hc. eauto.
  - unfold omdb_genres_list, text_or_absent in *.
    destruct (omdb_genres f) as [|[]|z|x|[|? ?]|[|? ?]]; simpl in *; try done; eauto.
    + destruct (Z.eqb z 0); simpl in *; try done; eauto.
    + destruct (PyStr.is_empty x); simpl; eauto.
  - unfold director_names, text_or_absent in *.
    destruct (director_field f) as [|[]|z|x|[|? ?]|[|? ?]]; simpl in *; try done; eauto.
    + destruct (Z.eqb z 0); simpl in *; try done; eauto.
    + destruct (PyStr.is_empty x), (String.eqb x "N/A"); simpl; eauto.
Qed.

Lemma hoare_execute_read {A} (q : tables → A) (J : tables → Prop) :
  hoare J (execute faults (λ t, inr (q t, t))) (λ _, J) (λ e t, J t ∧ ∃ n, faults n = Some e).
Proof.
  intros c Hc. unfold execute. destruct (faults (executed c)) eqn:Hf; simpl; eauto.
Qed.

(** *** [store_movie] under an invariant its operations keep *)
Section Generic.
Variable J : tables → Prop.
Variables Mv Gn Dr : Z → tables → Prop.

Let Eng : exn → tables → Prop := λ e t, J t ∧ ∃ n, faults n = Some e.

Hypothesis keep_upsert : ∀ mid title y r p b,
  hoare J (upsert_movie faults mid title y r p b) (λ id t, J t ∧ Mv id t) Eng.
Hypothesis keep_genre : ∀ m name,
  hoare (λ t, J t ∧ Mv m t) (get_or_create_genre faults name)
    (λ g t, (J t ∧ Mv m t) ∧ Gn g t) Eng.
Hypothesis keep_link_genre : ∀ m g,
  hoare (λ t, (J t ∧ Mv m t) ∧ Gn g t) (link_movie_genre faults m g)
    (λ _ t, J t ∧ Mv m t) Eng.
Hypothesis keep_director : ∀ m name,
  hoare (λ t, J t ∧ Mv m t) (get_or_create_director faults name)
    (λ d t, (J t ∧ Mv m t) ∧ Dr d t) Eng.
Hypothesis keep_link_director : ∀ m d,
  hoare (λ t, (J t ∧ Mv m t) ∧ Dr d t) (link_movie_director faults m d)
    (λ _ t, J t ∧ Mv m t) Eng.

Lemma store_movie_keeps row title year f :
  hoare J (store_movie faults isna_list row title year f) (λ _, J)
    (λ e t, J t ∧ (store_ok row year f = true → ∃ n, faults n = Some e)).
Proof.
  set (K := store_ok row year f = true).
  set (E := λ (e : exn) t, J t ∧ (K → ∃ n, faults n = Some e)).
  assert (∀ {A} P (m : M A) Q, hoare P m Q Eng → hoare P m Q E) as Hweak.
  { intros A P m Q H. eapply hoare_conseq; [exact H|done|done|].
    intros e t [? ?]. by split. }
  assert (∀ {A} (r : exn + A) (P : tables → Prop),
            (K → ∃ a, r = inr a) → (∀ t, P t → J t) →
            hoare P (lift r) (λ _, P) E) as Hlift.
  { intros A r P Hr HJ. apply hoare_lift. intros t Ht. destruct r as [e|a]; [|done].
    split; [by apply HJ|]. intros HK. destruct (Hr HK) as [a Ha]. discriminate Ha. }
  unfold store_movie.
  apply (hoare_bind _ _ _ (λ _, J)).
  { apply Hlift; [|done]. intros HK. apply (store_ok_inv _ _ _ HK). }
  intros mid.
  apply (hoare_bind _ _ _ (λ id t, J t ∧ Mv id t)).
  { destruct (bound_fields year f) as [e|[p b]] eqn:Hb; [|apply Hweak, keep_upsert].
    apply (hoare_bind _ _ _ (λ _, J)); [apply Hweak, hoare_execute_read|].
    intros _ c Hc. split; [done|]. intros HK.
    destruct (store_ok_inv _ _ _ HK) as (_ & (p & b & Hb' & _) & _). congruence. }
  intros movie_db_id.
  set (I := λ t, J t ∧ Mv movie_db_id t).
  apply (hoare_bind _ _ _ (λ _, I)).
  { apply Hlift; [|by intros t []]. intros HK. apply (store_ok_inv _ _ _ HK). }
  intros ml.
  apply (hoare_bind _ _ _ (λ _, I)).
  { apply Hlift; [|by intros t []]. intros HK. apply (store_ok_inv _ _ _ HK). }
  intros og.
  apply (hoare_bind _ _ _ (λ _, I)).
  { apply hoare_for_each. intros g _.
    apply (hoare_bind _ _ _ (λ gid t, I t ∧ Gn gid t)).
    - apply Hweak, keep_genre.
    - intros gid. apply Hweak, keep_link_genre. }
  intros _.
  apply (hoare_bind _ _ _ (λ _, I)).
  { apply Hlift; [|by intros t []]. intros HK. apply (store_ok_inv _ _ _ HK). }
  intros names.
  eapply hoare_conseq.
  - apply hoare_for_each. intros dn _.
    apply (hoare_bind _ _ _ (λ did t, I t ∧ Dr did t)).
    + apply Hweak, keep_director.
    + intros did. apply Hweak, keep_link_director.
  - done.
  - intros _ t [? _]. done.
  - done.
Qed.

End Generic.

(** From what an operation does to a connection to a triple. *)
Lemma hoare_of_outcome {A} (m : M A) (P : tables → Prop) (Q : A → tables → Prop)
    (J : tables → Prop) :
  (∀ c, P (tx c) →
     match m c with
     | Ok a c' => Q a (tx c')
     | Raise e c' => J (tx c') ∧ ∃ n, faults n = Some e
     end) →
  hoare P m Q (λ e t, J t ∧ ∃ n, faults n = Some e).
Proof. intros H c Hc. apply (H c Hc). Qed.

Lemma store_movie_grows t0 row title year f :
  hoare (grows t0) (store_movie faults isna_list row title year f) (λ _, grows t0)
    (λ e t, grows t0 t ∧ (store_ok row year f = true → ∃ n, faults n = Some e)).
Proof.
  apply (store_movie_keeps (grows t0) (λ _ _, True) (λ _ _, True) (λ _ _, True)).
  - intros mid ti y r p b. apply hoare_of_outcome. intros c Hc.
    pose proof (upsert_movie_moves mid ti y r p b c) as H.
    destruct (upsert_movie _ _ _ _ _ _ _ c) as [id c'|e c'].
    + split; [by apply (grows_trans _ (tx c))|done].
    + destruct H as [-> ?]. done.
  - intros m name. apply hoare_of_outcome. intros c [Hc _].
    pose proof (get_or_create_genre_moves name c) as H.
    destruct (get_or_create_genre _ _ c) as [id c'|e c'].
    + split; [|done]. split; [by apply (grows_trans _ (tx c))|done].
    + destruct H as [-> ?]. done.
  - intros m g. apply hoare_of_outcome. intros c [[Hc _] _].
    pose proof (link_movie_genre_moves m g c) as H.
    destruct (link_movie_genre _ _ _ c) as [id c'|e c'].
    + split; [by apply (grows_trans _ (tx c))|done].
    + destruct H as [-> ?]. done.
  - intros m name. apply hoare_of_outcome. intros c [Hc _].
    pose proof (get_or_create_director_moves name c) as H.
    destruct (get_or_create_director _ _ c) as [id c'|e c'].
    + split; [|done]. split; [by apply (grows_trans _ (tx c))|done].
    + destruct H as [-> ?]. done.
  - intros m d. apply hoare_of_outcome. intros c [[Hc _] _].
    pose proof (link_movie_director_moves m d c) as H.
    destruct (link_movie_director _ _ _ c) as [id c'|e c'].
    + split; [by apply (grows_trans _ (tx c))|done].
    + destruct H as [-> ?]. done.
Qed.

Lemma store_movie_schema row title year f :
  hoare schema_ok (store_movie faults isna_list row title year f) (λ _, schema_ok)
    (λ e t, schema_ok t ∧ (store_ok row year f = true → ∃ n, faults n = Some e)).
Proof.
  apply (store_movie_keeps schema_ok
           (λ m t, m ∈ (mv_id <$> movies t))
           (λ g t, g ∈ (genres t).*1)
           (λ d t, d ∈ (directors t).*1)).
  - intros mid ti y r p b. apply hoare_of_outcome. intros c Hc.
    pose proof (upsert_movie_moves mid ti y r p b c) as H.
    pose proof (upsert_movie_schema mid ti y r p b c Hc) as H'.
    destruct (upsert_movie _ _ _ _ _ _ _ c) as [id c'|e c']; [done|].
    destruct H as [-> ?]. done.
  - intros m name. apply hoare_of_outcome. intros c [Hc Hm].
    pose proof (get_or_create_genre_moves name c) as H.
    pose proof (get_or_create_genre_schema name c Hc) as H'.
    destruct (get_or_create_genre _ _ c) as [id c'|e c'].
    + destruct H'. split; [|done]. split; [done|]. by apply (grows_movie_id (tx c)).
    + destruct H as [-> ?]. done.
  - intros m g. apply hoare_of_outcome. intros c [[Hc Hm] Hg].
    pose proof (link_movie_genre_moves m g c) as H.
    pose proof (link_movie_genre_schema m g c Hc Hm Hg) as H'.
    destruct (link_movie_genre _ _ _ c) as [id c'|e c'].
    + split; [done|]. by apply (grows_movie_id (tx c)).
    + destruct H as [-> ?]. done.
  - intros m name. apply hoare_of_outcome. intros c [Hc Hm].
    pose proof (get_or_create_director_moves name c) as H.
    pose proof (get_or_create_director_schema name c Hc) as H'.
    destruct (get_or_create_director _ _ c) as [id c'|e c'].
    + destruct H'. split; [|done]. split; [done|]. by apply (grows_movie_id (tx c)).
    + destruct H as [-> ?]. done.
  - intros m d. apply hoare_of_outcome. intros c [[Hc Hm] Hd].
    pose proof (link_movie_director_moves m d c) as H.
    pose proof (link_movie_director_schema m d c Hc Hm Hd) as H'.
    destruct (link_movie_director _ _ _ c) as [id c'|e c'].
    + split; [done|]. by apply (grows_movie_id (tx c)).
    + destruct H as [-> ?]. done.
Qed.

End StoreInvariants.

(** * The whole run *)
Section RunFacts.
Import Db Hoare Driver Records.
Variable faults : nat → option exn.
Variable fs : string → option exn.
Variable network : nat → string → option string → Omdb.response.
Variable isna_list : list json → exn + bool.

Lemma load_ratings_outcome ratings_df c :
  match load_ratings faults ratings_df c with
  | Ok _ c' =>
      tx c' = Tables (movies (tx c)) (genres (tx c)) (directors (tx c))
                (movie_genres (tx c)) (movie_directors (tx c))
                (foldl (λ rows r, replace_rating r rows) (ratings (tx c)) ratings_df)
  | Raise e _ => ∃ n, faults n = Some e
  end.
Proof.
  revert c. induction ratings_df as [|row rest IH]; intros c; simpl.
  - by destruct c as [[] ?].
  - unfold mbind, M_bind, execute. destruct (faults (executed c)) as [e|] eqn:Hf; [eauto|].
    match goal with |- context [load_ratings faults rest ?k] => specialize (IH k) end.
    destruct (load_ratings faults rest _); [|done]. by rewrite IH.
Qed.

Lemma movie_loop_keeps (J : tables → Prop) :
  (∀ row title year f,
     hoare J (store_movie faults isna_list row title year f) (λ _, J)
       (λ e t, J t ∧ (store_ok row year f = true → ∃ n, faults n = Some e))) →
  ∀ movies_df w c, J (tx c) →
    match movie_loop faults fs network isna_list movies_df w c with
    | (Ok _ c', _) => J (tx c')
    | (Raise _ c', _) => J (tx c')
    end.
Proof.
  intros Hs movies_df. induction movies_df as [|row rest IH]; intros w c Hc; simpl; [done|].
  assert (match process_movie faults fs network isna_list row w c with
          | (Ok _ c', _) => J (tx c')
          | (Raise _ c', _) => J (tx c')
          end) as Hp.
  { unfold process_movie. destruct (row_title row) as [title_full| |]; [|done..].
    destruct (Title.parse_title title_full) as [title year].
    destruct (Omdb.omdb_lookup fs network title year w) as [e|[omdb w1]]; [done|].
    destruct (extract omdb) as [e|f]; [done|].
    specialize (Hs row title year f c Hc).
    destruct (store_movie faults isna_list row title year f c); [done|]. by destruct Hs. }
  destruct (process_movie faults fs network isna_list row w c) as [[u c1|e c1] w1]; [|done].
  by apply IH.
Qed.

Lemma record_ok_extract omdb :
  record_ok omdb = true → ∃ f, extract omdb = inr f ∧ fields_ok f = true.
Proof.
  destruct omdb as [| | | | |items]; try done. unfold record_ok, extract, Json.get.
  fold (field items "Response"). destruct (is_True (field items "Response")); simpl.
  - intros H. eexists. split; [done|]. exact H.
  - intros _. by eexists.
Qed.

(** A property of records that the synthetic record has holds of what a
    fetch returns and of what it leaves in the cache, when it holds of the
    cache and of the service; a fetch that raises has met the file system. *)
Lemma omdb_lookup_sat (P : json → bool) title year w :
  P Omdb.failed_record = true →
  (∀ file d, Omdb.cache w !! file = Some d → P d = true) →
  (∀ n t y d, network n t y = Omdb.Structured d → P d = true) →
  match Omdb.omdb_lookup fs network title year w with
  | inr (d, w') => P d = true ∧ (∀ file d', Omdb.cache w' !! file = Some d' → P d' = true)
  | inl e => fs (Omdb.cache_file title year) = Some e
  end.
Proof.
  intros Hfail Hc Hn. unfold Omdb.omdb_lookup.
  destruct (Omdb.cache w !! Omdb.cache_file title year) as [d|] eqn:Hd.
  - split; [by apply (Hc _ _ Hd)|done].
  - destruct (fs (Omdb.cache_file title year)) as [e|]; [done|].
    destruct (attempts_cases network 4 0 title year w)
      as [(j & d & Hj & _ & Hs & ->)|[_ ->]]; simpl.
    + apply Hn in Hs. split; [done|]. intros file d'.
      rewrite lookup_insert. case_decide; [by intros [= <-]|apply Hc].
    + split; [done|]. apply Hc.
Qed.

(** The cache and the service hold digestible records only. *)
Let cache_ok (w : Omdb.world) : Prop :=
  ∀ file d, Omdb.cache w !! file = Some d → record_ok d = true.
Let network_ok : Prop :=
  ∀ n t y d, network n t y = Omdb.Structured d → record_ok d = true.

Lemma movie_loop_errors movies_df w c :
  Forall (λ row, row_ok row = true) movies_df →
  cache_ok w → network_ok →
  match movie_loop faults fs network isna_list movies_df w c with
  | (Raise e _, _) => (∃ n, faults n = Some e) ∨ (∃ file, fs file = Some e)
  | (Ok _ _, _) => True
  end.
Proof.
  intros Ht Hc Hn. revert w c Hc.
  induction Ht as [|row rest Hrow _ IH]; intros w c Hc; simpl; [done|].
  unfold process_movie. unfold row_ok in Hrow.
  destruct (row_title row) as [title_full| |]; [|done..].
  apply andb_true_iff in Hrow as [Hyear Hcell].
  destruct (Title.parse_title title_full) as [title year]. simpl in Hyear.
  pose proof (omdb_lookup_sat record_ok title year w eq_refl Hc Hn) as Hl.
  destruct (Omdb.omdb_lookup fs network title year w) as [e|[omdb w1]]; [eauto|].
  destruct Hl as [Hr Hc'].
  destruct (record_ok_extract omdb Hr) as (f & -> & Hf).
  pose proof (store_movie_grows faults isna_list (tx c) row title year f c (grows_refl _)) as Hs.
  destruct (store_movie faults isna_list row title year f c) as [u c1|e c1].
  - by apply IH.
  - destruct Hs as [_ Hs]. left. apply Hs. unfold store_ok. by rewrite Hyear, Hcell, Hf.
Qed.

Lemma movie_loop_world movies_df w c :
  let w' := (movie_loop faults fs network isna_list movies_df w c).2 in
  (Omdb.requests w ≤ Omdb.requests w' ≤ Omdb.requests w + 4 * length movies_df)%nat
  ∧ (∀ file d, Omdb.cache w !! file = Some d → Omdb.cache w' !! file = Some d).
Proof.
  revert w c. induction movies_df as [|row rest IH]; intros w c; simpl.
  - split; [lia|done].
  - assert (∃ o w1, process_movie faults fs network isna_list row w c = (o, w1)
              ∧ (Omdb.requests w ≤ Omdb.requests w1 ≤ Omdb.requests w + 4)%nat
              ∧ (∀ file d, Omdb.cache w !! file = Some d → Omdb.cache w1 !! file = Some d))
      as (o & w1 & -> & Hreq & Hcache).
    { unfold process_movie. destruct (row_title row) as [title_full| |].
      2,3: do 2 eexists; (split; [done|]); (split; [lia|done]).
      destruct (Title.parse_title title_full) as [title year].
      pose proof (omdb_lookup_frame fs network title year w) as H.
      destruct (Omdb.omdb_lookup fs network title year w) as [e|[omdb w1]].
      { do 2 eexists. split; [done|]. split; [lia|done]. }
      destruct (extract omdb); do 2 eexists; (split; [done|exact H]). }
    destruct o as [u c1|e c1]; simpl.
    + specialize (IH w1 c1). simpl in IH. destruct IH as [? Hc2]. split; [lia|]. auto.
    + split; [lia|done].
Qed.

End RunFacts.

(** X11: a run keeps the keys of the store. If in the store row ids and
    names are unique, join pairs and rating keys occur once and every join
    row names an existing movie and an existing genre or director, the same
    holds of what the run leaves in the store, whatever the network and the
    engine do. The run never needs the engine to enforce these constraints. *)
Theorem main_keeps_schema (faults : nat → option exn) (fs : string → option exn)
    (network : nat → string → option string → Omdb.response)
    (isna_list : list json → exn + bool)
    (movies_df : list Driver.movie_row) (ratings_df : list Db.rating)
    (db : Db.tables) (w : Omdb.world) :
  Hoare.schema_ok db →
  Hoare.schema_ok (Driver.committed (Driver.main faults fs network isna_list movies_df ratings_df db w)).
Proof.
  intros Hok. unfold Driver.main.
  pose proof (load_ratings_outcome faults ratings_df (Db.Conn db 0)) as Hl.
  destruct (Db.load_ratings faults ratings_df (Db.Conn db 0)) as [u c1|e c1]; [|done].
  assert (Hoare.schema_ok (Db.tx c1)) as Hok1.
  { rewrite Hl. simpl. destruct Hok. constructor; simpl; try done. by apply NoDup_load. }
  pose proof (movie_loop_keeps faults fs network isna_list Hoare.schema_ok
                (store_movie_schema faults isna_list) movies_df w c1 Hok1) as Hm.
  destruct (Driver.movie_loop faults fs network isna_list movies_df w c1) as [[u2 c2|e2 c2] w']; [|done].
  by destruct (faults (Db.executed c2)).
Qed.

Lemma main_keeps_schema_witness :
  Hoare.schema_ok
    (Driver.committed
       (Driver.main (λ _, None) (λ _, None) (λ _ _ _, Omdb.TransportError) (λ _, inr false)
          [Driver.MovieRow 6 (Driver.Str "Heat (1995)") (Driver.Str "Action|Crime")]
          [Db.Rating 1 10 3 100]
          (Db.Tables [] [(1, "Action")] [] [] [] []) (Omdb.World ∅ 0 []))).
Proof.
  apply main_keeps_schema. constructor; simpl; try apply NoDup_nil_2;
    try apply NoDup_singleton; intros ? ? H; by apply elem_of_nil in H.
Defined.

(** X12: a run that completes has only added rows to the movie, genre,
    director and join tables, at their ends; every movie row that was there
    kept its id, identity and title; and the ratings it leaves are exactly
    the loaded ones: the movie pass touches no rating. *)
Theorem main_only_adds (faults : nat → option exn) (fs : string → option exn)
    (network : nat → string → option string → Omdb.response)
    (isna_list : list json → exn + bool)
    (movies_df : list Driver.movie_row) (ratings_df : list Db.rating)
    (db : Db.tables) (w : Omdb.world) :
  let r := Driver.main faults fs network isna_list movies_df ratings_df db w in
  Driver.status r = None →
  (Hoare.movie_key <$> Db.movies db) `prefix_of` (Hoare.movie_key <$> Db.movies (Driver.committed r))
  ∧ Db.genres db `prefix_of` Db.genres (Driver.committed r)
  ∧ Db.directors db `prefix_of` Db.directors (Driver.committed r)
  ∧ Db.movie_genres db `prefix_of` Db.movie_genres (Driver.committed r)
  ∧ Db.movie_directors db `prefix_of` Db.movie_directors (Driver.committed r)
  ∧ Db.ratings (Driver.committed r)
    = foldl (λ rows x, Db.replace_rating x rows) (Db.ratings db) ratings_df.
Proof.
  intros r. unfold r, Driver.main.
  pose proof (load_ratings_outcome faults ratings_df (Db.Conn db 0)) as Hl.
  destruct (Db.load_ratings faults ratings_df (Db.Conn db 0)) as [u c1|e c1]; [|done].
  pose proof (movie_loop_keeps faults fs network isna_list (Hoare.grows (Db.tx c1))
                (store_movie_grows faults isna_list (Db.tx c1)) movies_df w c1 (grows_refl _))
    as Hm.
  destruct (Driver.movie_loop faults fs network isna_list movies_df w c1) as [[u2 c2|e2 c2] w']; [|done].
  destruct (faults (Db.executed c2)); [done|]. intros _. simpl.
  destruct Hm as [H1 H2 H3 H4 H5 H6]. rewrite Hl in H1, H2, H3, H4, H5, H6. simpl in *.
  done.
Qed.

Lemma main_only_adds_witness :
  let r := Driver.main (λ _, None) (λ _, None) (λ _ _ _, Omdb.TransportError) (λ _, inr false)
             [Driver.MovieRow 6 (Driver.Str "Heat (1995)") (Driver.Str "Action|Crime")]
             [Db.Rating 1 10 3 100]
             (Db.Tables [] [(1, "Action")] [] [] [] [Db.Rating 1 10 5 7])
             (Omdb.World ∅ 0 []) in
  Db.genres (Driver.committed r) = [(1, "Action"); (2, "Crime")]
  ∧ Db.ratings (Driver.committed r) = [Db.Rating 1 10 3 100].
Proof.
  intros r.
  assert (Driver.status r = None) as Hs by (vm_compute; reflexivity).
  pose proof (main_only_adds (λ _, None) (λ _, None) (λ _ _ _, Omdb.TransportError)
                (λ _, inr false)
                [Driver.MovieRow 6 (Driver.Str "Heat (1995)") (Driver.Str "Action|Crime")]
                [Db.Rating 1 10 3 100]
                (Db.Tables [] [(1, "Action")] [] [] [] [Db.Rating 1 10 5 7])
                (Omdb.World ∅ 0 []) Hs) as (_ & _ & _ & _ & _ & H).
  split; [vm_compute; reflexivity|].
  etrans; [exact H|]. vm_compute. reflexivity.
Defined.

(** X13: the run ends with an exception only if the engine or the file
    system raises one. When every catalog row has a text title whose year,
    if one is read from it, fits 64 bits, and a genres cell that is text,
    missing or zero, and when every record of the cache and of the service
    is a [dict] that, if its [Response] is ["True"], has an [imdbID] that is
    false or can be bound, a [Runtime] that reads as no number or as one of
    64 bits, a [Plot] and a [BoxOffice] that can be bound and a [Genre] and
    a [Director] that are text or false, then an exception that ends the run
    is one the engine raised at a statement or at the commit, or one the
    file system raised when a cache file was looked for; when neither raises
    the run completes, whichever requests fail. *)
Theorem main_fails_only_with_engine (faults : nat → option exn) (fs : string → option exn)
    (network : nat → string → option string → Omdb.response)
    (isna_list : list json → exn + bool)
    (movies_df : list Driver.movie_row) (ratings_df : list Db.rating)
    (db : Db.tables) (w : Omdb.world) :
  Forall (λ row, Records.row_ok row = true) movies_df →
  (∀ file d, Omdb.cache w !! file = Some d → Records.record_ok d = true) →
  (∀ n t y d, network n t y = Omdb.Structured d → Records.record_ok d = true) →
  let r := Driver.main faults fs network isna_list movies_df ratings_df db w in
  (∀ e, Driver.status r = Some e →
     (∃ n, faults n = Some e) ∨ (∃ file, fs file = Some e))
  ∧ ((∀ n, faults n = None) → (∀ file, fs file = None) → Driver.status r = None).
Proof.
  intros Ht Hc Hn r.
  assert (∀ e, Driver.status r = Some e →
            (∃ n, faults n = Some e) ∨ (∃ file, fs file = Some e)) as Herr.
  { unfold r, Driver.main.
    pose proof (load_ratings_outcome faults ratings_df (Db.Conn db 0)) as Hl.
    destruct (Db.load_ratings faults ratings_df (Db.Conn db 0)) as [u c1|e c1].
    2:{ simpl. intros e' [= <-]. by left. }
    pose proof (movie_loop_errors faults fs network isna_list movies_df w c1 Ht Hc Hn) as Hm.
    destruct (Driver.movie_loop faults fs network isna_list movies_df w c1)
      as [[u2 c2|e2 c2] w'].
    - destruct (faults (Db.executed c2)) as [e|] eqn:Hf; [|done].
      simpl. intros e' [= <-]. eauto.
    - simpl. by intros e' [= <-]. }
  split; [done|]. intros Hf Hfs.
  destruct (Driver.status r) as [e|] eqn:Hs; [|done].
  destruct (Herr e eq_refl) as [[n Hn']|[file Hn']]; [by rewrite Hf in Hn'|by rewrite Hfs in Hn'].
Qed.

Lemma main_fails_only_with_engine_witness :
  Driver.status
    (Driver.main (λ _, None) (λ _, None)
       (λ n _ _, if (n <? 2)%nat then Omdb.TransportError
                 else Omdb.Structured (JObj [("Response", JStr "False")]))
       (λ _, inr false)
       [Driver.MovieRow 6 (Driver.Str "Heat (1995)") (Driver.Str "Action|Crime");
        Driver.MovieRow 7 (Driver.Str "Sabrina") Driver.NaN]
       [] (Db.Tables [] [] [] [] [] []) (Omdb.World ∅ 0 [])) = None.
Proof.
  refine (proj2 (main_fails_only_with_engine (λ _, None) (λ _, None) _ _ _ _ _ _ _ _ _)
            (λ _, eq_refl) (λ _, eq_refl)).
  - repeat constructor.
  - intros file d H. simpl in H. by rewrite lookup_empty in H.
  - intros n t y d. destruct (n <? 2)%nat; [done|]. by intros [= <-].
Defined.

(** X14: a run issues at most four requests per catalog row, and no entry of
    the cache is removed or replaced: what a file held before the run it
    holds after it. *)
Theorem main_request_budget (faults : nat → option exn) (fs : string → option exn)
    (network : nat → string → option string → Omdb.response)
    (isna_list : list json → exn + bool)
    (movies_df : list Driver.movie_row) (ratings_df : list Db.rating)
    (db : Db.tables) (w : Omdb.world) :
  let w' := Driver.disk (Driver.main faults fs network isna_list movies_df ratings_df db w) in
  (Omdb.requests w ≤ Omdb.requests w' ≤ Omdb.requests w + 4 * length movies_df)%nat
  ∧ (∀ file d, Omdb.cache w !! file = Some d → Omdb.cache w' !! file = Some d).
Proof.
  unfold Driver.main.
  destruct (Db.load_ratings faults ratings_df (Db.Conn db 0)) as [u c1|e c1].
  2:{ simpl. split; [lia|done]. }
  pose proof (movie_loop_world faults fs network isna_list movies_df w c1) as H. simpl in H.
  destruct (Driver.movie_loop faults fs network isna_list movies_df w c1) as [[u2 c2|e2 c2] w'];
    [destruct (faults (Db.executed c2))|]; exact H.
Qed.

(** * The list formats of the catalog and of the service *)
Section FormatFacts.
Import PyStr.
Implicit Types (s t : string) (c : ascii).

Lemma split_clean c s : contains c s = false → split c s = [s].
Proof.
  induction s as [|a s IH]; simpl; [done|].
  intros [Ha Hs]%orb_false_elim. by rewrite Ha, (IH Hs).
Qed.

Lemma split_app c s t : contains c s = false → split c (s +:+ String c t) = s :: split c t.
Proof.
  induction s as [|a s IH]; intros Hs.
  - rewrite append_nil. simpl. by rewrite Ascii.eqb_refl.
  - simpl in Hs. apply orb_false_elim in Hs as [Ha Hs].
    rewrite append_cons. simpl. by rewrite Ha, (IH Hs).
Qed.

(** The pieces of a list written with the separator [c] and the padding
    [pad] after it, filtered and trimmed, are the names of the list. *)
Lemma strip_pieces (P : string → Prop) `{!∀ x, Decision (P x)} c pad
    (init : list string) last lead :
  (∀ l g, l = EmptyString ∨ l = pad → g ∈ init ++ [last] →
     P (l +:+ g) ∧ strip (l +:+ g) = g ∧ contains c (l +:+ g) = false) →
  lead = EmptyString ∨ lead = pad →
  strip <$> filter P (split c (lead +:+ foldr (λ g acc, g +:+ String c (pad +:+ acc)) last init))
  = init ++ [last].
Proof.
  revert lead. induction init as [|g rest IH]; intros lead Hok Hl; simpl.
  - destruct (Hok lead last Hl) as (HP & Hs & Hc); [by left|].
    rewrite (split_clean _ _ Hc), filter_cons_True by done. simpl. by rewrite Hs.
  - destruct (Hok lead g Hl) as (HP & Hs & Hc); [by left|].
    rewrite <-append_assoc, (split_app _ _ _ Hc), filter_cons_True by done.
    rewrite fmap_cons, Hs. f_equal. apply IH; [|by right].
    intros l g' Hl' Hg'. apply Hok; [done|by right].
Qed.

Lemma joined_nonempty (sep : string) (init : list string) last :
  Forall (λ g, g ≠ EmptyString) (init ++ [last]) →
  is_empty (foldr (λ g acc, g +:+ sep +:+ acc) last init) = false.
Proof.
  destruct init as [|g rest]; simpl; intros [Hg _]%Forall_cons.
  - by destruct last.
  - by destruct g.
Qed.

Lemma joined_contains c (sep : string) (init : list string) last :
  contains c (foldr (λ g acc, g +:+ sep +:+ acc) last init)
  = existsb (contains c) (init ++ [last]) || (negb (bool_decide (init = [])) && contains c sep).
Proof.
  induction init as [|g rest IH]; simpl.
  - by rewrite !orb_false_r.
  - rewrite !contains_app, IH.
    by destruct (contains c g), (contains c sep), (existsb _ _), (bool_decide _).
Qed.

Lemma existsb_clean c (names : list string) :
  Forall (λ g, contains c g = false) names → existsb (contains c) names = false.
Proof. induction 1 as [|g rest Hg _ IH]; simpl; [done|]. by rewrite Hg, IH. Qed.

End FormatFacts.

(** X15: [parse_genres] inverts the catalog's format. Two or more names that
    are trimmed, non-empty, free of the pipe and different from the
    sentinel, written with a pipe between them, parse back to the same names
    in the same order. *)
Theorem parse_genres_of_pipe_list (init : list string) (last : string) :
  init ≠ [] →
  Forall (λ g, PyStr.strip g = g ∧ g ≠ EmptyString ∧ PyStr.contains "|" g = false
               ∧ g ≠ Genres.sentinel) (init ++ [last]) →
  Genres.parse_genres (Some (foldr (λ g acc, g +:+ "|" +:+ acc) last init)) = init ++ [last].
Proof.
  intros Hne Hall. unfold Genres.parse_genres.
  rewrite joined_nonempty by (eapply Forall_impl; [exact Hall|]; naive_solver).
  rewrite joined_contains, bool_decide_eq_false_2, orb_true_r by done.
  apply (strip_pieces
           (λ g, negb (PyStr.is_empty (PyStr.strip g))
                 && negb (String.eqb (PyStr.strip g) Genres.sentinel))
           "|" EmptyString init last EmptyString); [|by left].
  intros l g Hl Hg. assert (l = EmptyString) as -> by (by destruct Hl). rewrite append_nil.
  rewrite Forall_forall in Hall. destruct (Hall g Hg) as (Hs & Hg' & Hc & Hsen).
  split; [|done]. rewrite Hs. apply andb_True. split; apply negb_True, Is_true_false.
  - by apply is_empty_false.
  - by apply String.eqb_neq.
Qed.

Lemma parse_genres_of_pipe_list_witness :
  Genres.parse_genres (Some "Action|Crime|Film-Noir") = ["Action"; "Crime"; "Film-Noir"].
Proof.
  apply (parse_genres_of_pipe_list ["Action"; "Crime"] "Film-Noir"); [done|].
  simpl. repeat (apply Forall_cons; split; [by repeat split|]). apply Forall_nil_2.
Defined.

(** X16: the two readers of the service's list format invert it. Names that
    are trimmed, non-empty and free of commas, written with a comma and a
    space between them, are what the director list of [main] reads back,
    unless the text is ["N/A"], which gives no name; and [parse_genres]
    reads the same names back when none of them contains a pipe. *)
Theorem comma_list_round_trip (init : list string) (last : string) :
  Forall (λ g, PyStr.strip g = g ∧ g ≠ EmptyString ∧ PyStr.contains "," g = false)
    (init ++ [last]) →
  let s := foldr (λ g acc, g +:+ ", " +:+ acc) last init in
  Driver.director_names (JStr s) = inr (if String.eqb s "N/A" then [] else init ++ [last])
  ∧ (Forall (λ g, PyStr.contains "|" g = false) (init ++ [last]) →
     Genres.parse_genres (Some s) = init ++ [last]).
Proof.
  intros Hall s.
  assert (PyStr.is_empty s = false) as Hne.
  { apply joined_nonempty. eapply Forall_impl; [exact Hall|]. naive_solver. }
  assert (∀ l g, l = EmptyString ∨ l = " " → g ∈ init ++ [last] →
            PyStr.is_empty (PyStr.strip (l +:+ g)) = false
            ∧ PyStr.strip (l +:+ g) = g ∧ PyStr.contains "," (l +:+ g) = false) as Hok.
  { intros l g Hl Hg. rewrite Forall_forall in Hall.
    destruct (Hall g Hg) as (Hs & Hg' & Hc).
    assert (PyStr.strip (l +:+ g) = g) as Hs'.
    { destruct Hl as [-> | ->]; [by rewrite append_nil|exact Hs]. }
    rewrite Hs'. split; [by apply is_empty_false|]. split; [done|].
    destruct Hl as [-> | ->]; [by rewrite append_nil|exact Hc]. }
  split.
  - unfold Driver.director_names. simpl. rewrite Hne. simpl.
    destruct (String.eqb s "N/A"); [done|]. f_equal.
    apply (strip_pieces (λ x, PyStr.is_empty (PyStr.strip x) = false)
             "," " " init last EmptyString); [exact Hok|by left].
  - intros Hpipe. unfold Genres.parse_genres. rewrite Hne. unfold s.
    rewrite joined_contains, existsb_clean by done. simpl.
    rewrite andb_false_r.
    apply (strip_pieces (λ g, negb (PyStr.is_empty (PyStr.strip g)))
             "," " " init last EmptyString); [|by left].
    intros l g Hl Hg. destruct (Hok l g Hl Hg) as (H1 & H2 & H3).
    split; [|done]. apply negb_True, Is_true_false. exact H1.
Qed.

Lemma comma_list_round_trip_witness :
  Driver.director_names (JStr "Joel Coen, Ethan Coen") = inr ["Joel Coen"; "Ethan Coen"]
  ∧ Genres.parse_genres (Some "Crime, Drama, Thriller") = ["Crime"; "Drama"; "Thriller"].
Proof.
  split.
  - apply (comma_list_round_trip ["Joel Coen"] "Ethan Coen").
    simpl. repeat (apply Forall_cons; split; [by repeat split|]). apply Forall_nil_2.
  - apply (comma_list_round_trip ["Crime"; "Drama"] "Thriller").
    + simpl. repeat (apply Forall_cons; split; [by repeat split|]). apply Forall_nil_2.
    + simpl. repeat (apply Forall_cons; split; [done|]). apply Forall_nil_2.
Defined.

(** * What the movie step stores *)
Section LinkFacts.
Import Db Hoare Driver Records.
Variable faults : nat → option exn.
Variable isna_list : list json → exn + bool.
Hypothesis no_faults : ∀ n, faults n = None.

Lemma extends_refl t : extends t t.
Proof. by constructor. Qed.

Lemma extends_trans t1 t2 t3 : extends t1 t2 → extends t2 t3 → extends t1 t3.
Proof. intros [] []. constructor; first [by etrans|congruence]. Qed.

Lemma has_genre_extends m name t t' : extends t t' → has_genre m name t → has_genre m name t'.
Proof.
  intros [_ [k1 Hk1] _ [k2 Hk2] _] (g & H1 & H2). exists g.
  rewrite Hk1, Hk2, !elem_of_app. auto.
Qed.

Lemma has_director_extends m name t t' :
  extends t t' → has_director m name t → has_director m name t'.
Proof.
  intros [_ _ [k1 Hk1] _ [k2 Hk2]] (d & H1 & H2). exists d.
  rewrite Hk1, Hk2, !elem_of_app. auto.
Qed.

Lemma bind_lift_inr {A B} (a : A) (k : A → M B) c : (lift (inr a) ≫= k) c = k a c.
Proof. reflexivity. Qed.

Lemma bind_ok {A B} (m : M A) (k : A → M B) c a c1 : m c = Ok a c1 → (m ≫= k) c = k a c1.
Proof. intros H. unfold mbind, M_bind. by rewrite H. Qed.

Lemma link_movie_genre_links m x c :
  ∃ c', link_movie_genre faults m x c = Ok tt c'
        ∧ extends (tx c) (tx c') ∧ genres (tx c') = genres (tx c)
        ∧ (m, x) ∈ movie_genres (tx c').
Proof.
  unfold link_movie_genre, try_except, execute, insert_link. rewrite no_faults.
  case_bool_decide as Hin; simpl.
  - eexists. split; [done|]. simpl. split; [apply extends_refl|done].
  - eexists. split; [done|]. simpl. split.
    + constructor; simpl; try done. by apply prefix_app_r.
    + split; [done|]. rewrite elem_of_app. right. by left.
Qed.

Lemma link_movie_director_links m x c :
  ∃ c', link_movie_director faults m x c = Ok tt c'
        ∧ extends (tx c) (tx c') ∧ directors (tx c') = directors (tx c)
        ∧ (m, x) ∈ movie_directors (tx c').
Proof.
  unfold link_movie_director, try_except, execute, insert_link. rewrite no_faults.
  case_bool_decide as Hin; simpl.
  - eexists. split; [done|]. simpl. split; [apply extends_refl|done].
  - eexists. split; [done|]. simpl. split.
    + constructor; simpl; try done. by apply prefix_app_r.
    + split; [done|]. rewrite elem_of_app. right. by left.
Qed.

Lemma genre_step m name c :
  ∃ c', (gid ← get_or_create_genre faults name; link_movie_genre faults m gid) c = Ok tt c'
        ∧ extends (tx c) (tx c') ∧ has_genre m name (tx c').
Proof.
  pose proof (get_or_create_genre_spec faults name c) as H.
  destruct (get_or_create_genre faults name c) as [gid c1|e c1] eqn:Hg.
  2:{ destruct H as (_ & n & _ & Hn). by rewrite no_faults in Hn. }
  rewrite (bind_ok _ _ _ _ _ Hg).
  destruct (link_movie_genre_links m gid c1) as (c' & -> & He & Hsame & Hin).
  exists c'. split; [done|].
  assert (extends (tx c) (tx c1) ∧ (gid, name) ∈ genres (tx c1)) as [He1 Hg1].
  { destruct H as [[Hs ->]|(Hni & -> & ->)].
    - split; [apply extends_refl|by apply select_name_Some].
    - split; [constructor; simpl; try done; by apply prefix_app_r|].
      simpl. rewrite elem_of_app. right. by left. }
  split; [by apply (extends_trans _ (tx c1))|]. exists gid. by rewrite Hsame.
Qed.

Lemma director_step m name c :
  ∃ c', (did ← get_or_create_director faults name; link_movie_director faults m did) c
          = Ok tt c'
        ∧ extends (tx c) (tx c') ∧ has_director m name (tx c').
Proof.
  pose proof (get_or_create_director_spec faults name c) as H.
  destruct (get_or_create_director faults name c) as [did c1|e c1] eqn:Hd.
  2:{ destruct H as (_ & n & _ & Hn). by rewrite no_faults in Hn. }
  rewrite (bind_ok _ _ _ _ _ Hd).
  destruct (link_movie_director_links m did c1) as (c' & -> & He & Hsame & Hin).
  exists c'. split; [done|].
  assert (extends (tx c) (tx c1) ∧ (did, name) ∈ directors (tx c1)) as [He1 Hd1].
  { destruct H as [[Hs ->]|(Hni & -> & ->)].
    - split; [apply extends_refl|by apply select_name_Some].
    - split; [constructor; simpl; try done; by apply prefix_app_r|].
      simpl. rewrite elem_of_app. right. by left. }
  split; [by apply (extends_trans _ (tx c1))|]. exists did. by rewrite Hsame.
Qed.

(** A loop whose body only extends the tables and reaches [R x] for its
    element [x], where [R] survives extensions, reaches [R] for all. *)
Lemma for_each_links {A} (xs : list A) (body : A → M unit) (R : A → tables → Prop) :
  (∀ x t t', extends t t' → R x t → R x t') →
  (∀ x c, ∃ c', body x c = Ok tt c' ∧ extends (tx c) (tx c') ∧ R x (tx c')) →
  ∀ c, ∃ c', for_each xs body c = Ok tt c' ∧ extends (tx c) (tx c')
             ∧ ∀ x, x ∈ xs → R x (tx c').
Proof.
  intros Hmono Hbody. induction xs as [|x xs IH]; intros c; simpl.
  - exists c. split; [done|]. split; [apply extends_refl|]. by intros x ?%elem_of_nil.
  - destruct (Hbody x c) as (c1 & Hb & He1 & HR). rewrite (bind_ok _ _ _ _ _ Hb).
    destruct (IH c1) as (c' & -> & He & Hall). exists c'. split; [done|].
    split; [by apply (extends_trans _ (tx c1))|].
    intros y [->|Hy]%elem_of_cons; [by apply (Hmono _ (tx c1))|by apply Hall].
Qed.

Lemma upsert_movie_row mid title y r p b c :
  ∃ id c' m, upsert_movie faults mid title y r p b c = Ok id c'
    ∧ m ∈ movies (tx c') ∧ mv_id m = id ∧ movie_matches mid title m = true
    ∧ mv_year m = y ∧ mv_runtime_minutes m = r ∧ mv_plot m = p ∧ mv_box_office m = b.
Proof.
  pose proof (upsert_movie_spec faults mid title y r p b c) as H.
  destruct (upsert_movie faults mid title y r p b c) as [id c'|e c'].
  2:{ destruct H as (_ & n & _ & Hn). by rewrite no_faults in Hn. }
  destruct H as [(found & Hh & -> & Ht)|(Hm & -> & Ht)].
  - exists (mv_id found), c', (update_row (mv_id found) y r p b found). split; [done|].
    apply head_Some_elem_of in Hh. apply list_elem_of_filter in Hh as [Hmatch Hin].
    split. { rewrite Ht. simpl. unfold update_movie. apply list_elem_of_fmap. by exists found. }
    unfold update_row. rewrite Z.eqb_refl. simpl. done.
  - eexists _, c', (Movie _ mid title y r p b). split; [done|].
    split; [rewrite Ht; simpl; rewrite elem_of_app; right; by left|]. split; [done|].
    split; [|done]. unfold movie_matches. simpl. by rewrite String.eqb_refl, orb_true_r.
Qed.

Lemma store_movie_post row title year f c :
  store_ok row year f = true →
  ∃ c' m mid,
    store_movie faults isna_list row title year f c = Ok tt c'
    ∧ m ∈ movies (tx c')
    ∧ to_sql (movie_unique_id row f) = inr mid
    ∧ movie_matches mid title m = true
    ∧ mv_year m = year ∧ mv_runtime_minutes m = runtime f
    ∧ to_sql (plot f) = inr (mv_plot m) ∧ to_sql (box_office f) = inr (mv_box_office m)
    ∧ (∀ ml g, ml_genres_list (row_genres row) = inr ml → g ∈ ml →
         has_genre (mv_id m) g (tx c'))
    ∧ (∀ og g, omdb_genres_list isna_list (omdb_genres f) = inr og → g ∈ og →
         has_genre (mv_id m) g (tx c'))
    ∧ (∀ names d, director_names (director_field f) = inr names → d ∈ names →
         has_director (mv_id m) d (tx c')).
Proof.
  intros Hok.
  destruct (store_ok_inv isna_list row year f Hok)
    as ([mid Hm] & (p & b & Hpb & Hp & Hb) & [ml Hml] & [og Hog] & [names Hnames]).
  unfold store_movie. rewrite Hm, bind_lift_inr, Hpb.
  destruct (upsert_movie_row mid title year (runtime f) p b c)
    as (id & c1 & m & Hu & Hin & Hid & Hmatch & Hy & Hr & Hpl & Hbo).
  rewrite (bind_ok _ _ _ _ _ Hu), Hml, bind_lift_inr, Hog, bind_lift_inr.
  destruct (for_each_links
              (Genres.combine ml og)
              (λ g, gid ← get_or_create_genre faults g; link_movie_genre faults id gid)
              (has_genre id) (has_genre_extends id) (genre_step id) c1)
    as (c2 & Hf1 & He1 & Hg).
  rewrite (bind_ok _ _ _ _ _ Hf1), Hnames, bind_lift_inr.
  destruct (for_each_links names
              (λ dn, did ← get_or_create_director faults dn; link_movie_director faults id did)
              (has_director id) (has_director_extends id) (director_step id) c2)
    as (c3 & -> & He2 & Hd).
  exists c3, m, mid. split; [done|].
  split. { by rewrite (extends_movies _ _ He2), (extends_movies _ _ He1). }
  split; [done|]. split; [done|]. split; [done|]. split; [done|].
  split; [by rewrite Hpl|]. split; [by rewrite Hbo|]. rewrite Hid.
  assert (∀ g, g ∈ ml ++ og → has_genre id g (tx c3)) as Hall.
  { intros g Hg'. apply (has_genre_extends _ _ _ _ He2), Hg.
    unfold Genres.combine. by rewrite dict_fromkeys_dedup, elem_of_dedup_first. }
  split; [|split].
  - intros ml' g [= <-] Hg'. apply Hall, elem_of_app. by left.
  - intros og' g [= <-] Hg'. apply Hall, elem_of_app. by right.
  - intros names' d [= <-] Hd'. by apply Hd.
Qed.

(** The movie table after the operations: the row the lookup found is
    overwritten, or a new row stands at the end. *)
Lemma store_movie_movies row title year f c :
  store_ok row year f = true →
  ∃ c' mid p b,
    store_movie faults isna_list row title year f c = Ok tt c'
    ∧ to_sql (movie_unique_id row f) = inr mid
    ∧ ((∃ found, head (matching mid title (movies (tx c))) = Some found
          ∧ movies (tx c')
            = update_movie (mv_id found) year (runtime f) p b (movies (tx c)))
       ∨ (matching mid title (movies (tx c)) = []
          ∧ movies (tx c')
            = movies (tx c)
              ++ [Movie (lastrowid (mv_id <$> movies (tx c))) mid title year (runtime f) p b])).
Proof.
  intros Hok.
  destruct (store_ok_inv isna_list row year f Hok)
    as ([mid Hm] & (p & b & Hpb & Hp & Hb) & [ml Hml] & [og Hog] & [names Hnames]).
  unfold store_movie. rewrite Hm, bind_lift_inr, Hpb.
  pose proof (upsert_movie_spec faults mid title year (runtime f) p b c) as Hu.
  destruct (upsert_movie faults mid title year (runtime f) p b c) as [id c1|e c1] eqn:Hup.
  2:{ destruct Hu as (_ & n & _ & Hn). by rewrite no_faults in Hn. }
  rewrite (bind_ok _ _ _ _ _ Hup), Hml, bind_lift_inr, Hog, bind_lift_inr.
  destruct (for_each_links
              (Genres.combine ml og)
              (λ g, gid ← get_or_create_genre faults g; link_movie_genre faults id gid)
              (has_genre id) (has_genre_extends id) (genre_step id) c1)
    as (c2 & Hf1 & He1 & _).
  rewrite (bind_ok _ _ _ _ _ Hf1), Hnames, bind_lift_inr.
  destruct (for_each_links names
              (λ dn, did ← get_or_create_director faults dn; link_movie_director faults id did)
              (has_director id) (has_director_extends id) (director_step id) c2)
    as (c3 & -> & He2 & _).
  exists c3, mid, p, b. split; [done|]. split; [done|].
  rewrite (extends_movies _ _ He2), (extends_movies _ _ He1).
  destruct Hu as [(found & Hh & -> & ->)|(Hnone & -> & ->)]; [left|right].
  - exists found. by split.
  - by split.
Qed.

End LinkFacts.

(** X9: the fallback identity keeps movies apart. The engine accepts every
    statement, the service gives no identity for two catalog rows with
    different movie ids and different titles, and no stored movie has the
    fallback identity or the title of the second. Then storing the first and
    the second gives the second a movie row of its own: a new row at the end
    of the table, under an id no row had, with the identity [ML_] followed
    by its movie id and with its title. *)
Theorem fallback_identity_separates_movies (faults : nat → option exn)
    (isna_list : list json → exn + bool) (r1 r2 : Driver.movie_row) (t1 t2 : string)
    (y1 y2 : option Z) (f1 f2 : Driver.fields) (c : Db.conn) :
  (∀ n, faults n = None) →
  Records.store_ok r1 y1 f1 = true → Records.store_ok r2 y2 f2 = true →
  truthy (Driver.imdb_id f1) = false → truthy (Driver.imdb_id f2) = false →
  Driver.row_movieId r1 ≠ Driver.row_movieId r2 → t1 ≠ t2 →
  Db.matching (Db.SText ("ML_" +:+ PyStr.str_of_int (Driver.row_movieId r2))) t2
    (Db.movies (Db.tx c)) = [] →
  ∃ c1 c2 m2,
    Driver.store_movie faults isna_list r1 t1 y1 f1 c = Db.Ok tt c1
    ∧ Driver.store_movie faults isna_list r2 t2 y2 f2 c1 = Db.Ok tt c2
    ∧ Db.movies (Db.tx c2) = Db.movies (Db.tx c1) ++ [m2]
    ∧ Db.mv_movie_id m2 = Db.SText ("ML_" +:+ PyStr.str_of_int (Driver.row_movieId r2))
    ∧ Db.mv_title m2 = t2
    ∧ Db.mv_id m2 ∉ (Db.mv_id <$> Db.movies (Db.tx c1)).
Proof.
  intros Hf Hok1 Hok2 Hi1 Hi2 Hid Ht Hnone.
  destruct (store_movie_movies faults isna_list Hf r1 t1 y1 f1 c Hok1)
    as (c1 & mid1 & p1 & b1 & Hs1 & Hm1 & Hcase1).
  rewrite (movie_unique_id_fallback _ _ Hi1) in Hm1. injection Hm1 as <-.
  destruct (store_movie_movies faults isna_list Hf r2 t2 y2 f2 c1 Hok2)
    as (c2 & mid2 & p2 & b2 & Hs2 & Hm2 & Hcase2).
  rewrite (movie_unique_id_fallback _ _ Hi2) in Hm2. injection Hm2 as <-.
  set (mid2 := Db.SText ("ML_" +:+ PyStr.str_of_int (Driver.row_movieId r2))) in *.
  assert (Db.matching mid2 t2 (Db.movies (Db.tx c1)) = []) as Hnone1.
  { destruct Hcase1 as [(found & _ & ->)|(_ & ->)].
    - by rewrite matching_update_movie, Hnone.
    - unfold Db.matching in *. rewrite filter_app, Hnone, filter_cons_False; [done|].
      change (Db.sql_eq (Db.SText ("ML_" +:+ PyStr.str_of_int (Driver.row_movieId r1))) mid2
              || String.eqb t1 t2 ≠ true).
      subst mid2. rewrite (fallback_text_distinct _ _ Hid). simpl.
      intros H. by apply String.eqb_eq in H. }
  destruct Hcase2 as [(found & Hh & _)|(_ & Hmovies)]; [by rewrite Hnone1 in Hh|].
  exists c1, c2, (Db.Movie (Db.lastrowid (Db.mv_id <$> Db.movies (Db.tx c1))) mid2 t2 y2
                    (Driver.runtime f2) p2 b2).
  split; [done|]. split; [done|]. split; [done|]. split; [done|]. split; [done|].
  apply lastrowid_fresh.
Qed.

Lemma fallback_identity_separates_movies_witness :
  ∃ c1 c2 m2,
    Driver.store_movie (λ _, None) (λ _, inr false)
      (Driver.MovieRow 1 (Driver.Str "Heat (1995)") Driver.NaN) "Heat" (Some 1995)
      (Driver.Fields JNull None JNull JNull JNull JNull)
      (Db.Conn (Db.Tables [] [] [] [] [] []) 0) = Db.Ok tt c1
    ∧ Driver.store_movie (λ _, None) (λ _, inr false)
        (Driver.MovieRow 10 (Driver.Str "Sabrina (1995)") Driver.NaN) "Sabrina" (Some 1995)
        (Driver.Fields (JStr "") None JNull JNull JNull JNull) c1 = Db.Ok tt c2
    ∧ Db.movies (Db.tx c2) = Db.movies (Db.tx c1) ++ [m2]
    ∧ Db.mv_movie_id m2 = Db.SText "ML_10"
    ∧ Db.mv_title m2 = "Sabrina"
    ∧ Db.mv_id m2 ∉ (Db.mv_id <$> Db.movies (Db.tx c1)).
Proof.
  apply (fallback_identity_separates_movies (λ _, None) (λ _, inr false)
           (Driver.MovieRow 1 (Driver.Str "Heat (1995)") Driver.NaN)
           (Driver.MovieRow 10 (Driver.Str "Sabrina (1995)") Driver.NaN)
           "Heat" "Sabrina" (Some 1995) (Some 1995)
           (Driver.Fields JNull None JNull JNull JNull JNull)
           (Driver.Fields (JStr "") None JNull JNull JNull JNull)
           (Db.Conn (Db.Tables [] [] [] [] [] []) 0));
    first [done|reflexivity|simpl; lia].
Defined.

(** X17: what the store operations for one movie leave. The engine accepts
    every statement; the year and the runtime fit 64 bits; the genres cell
    of the catalog row is text, missing or zero; the [imdbID] is false or
    can be bound, the plot and the box office can be bound (no [list], no
    [dict], no [int] beyond 64 bits), and the [Genre] and [Director] values
    are text or false. Then the operations complete and leave a movie row
    that the identity or the title selects, with the year, runtime, plot and
    box office of this call, joined to a genre row for every genre of the
    catalog and of the record and to a director row for every director of
    the record. *)
Theorem store_movie_stores_and_links (faults : nat → option exn)
    (isna_list : list json → exn + bool) (row : Driver.movie_row)
    (title : string) (year : option Z) (f : Driver.fields) (c : Db.conn) :
  (∀ n, faults n = None) →
  Records.store_ok row year f = true →
  ∃ c' m mid,
    Driver.store_movie faults isna_list row title year f c = Db.Ok tt c'
    ∧ m ∈ Db.movies (Db.tx c')
    ∧ Driver.to_sql (Driver.movie_unique_id row f) = inr mid
    ∧ Db.movie_matches mid title m = true
    ∧ Db.mv_year m = year ∧ Db.mv_runtime_minutes m = Driver.runtime f
    ∧ Driver.to_sql (Driver.plot f) = inr (Db.mv_plot m)
    ∧ Driver.to_sql (Driver.box_office f) = inr (Db.mv_box_office m)
    ∧ (∀ ml g, Driver.ml_genres_list (Driver.row_genres row) = inr ml → g ∈ ml →
         Hoare.has_genre (Db.mv_id m) g (Db.tx c'))
    ∧ (∀ og g, Driver.omdb_genres_list isna_list (Driver.omdb_genres f) = inr og → g ∈ og →
         Hoare.has_genre (Db.mv_id m) g (Db.tx c'))
    ∧ (∀ names d, Driver.director_names (Driver.director_field f) = inr names → d ∈ names →
         Hoare.has_director (Db.mv_id m) d (Db.tx c')).
Proof. intros Hf Hok. by apply store_movie_post. Qed.

Lemma store_movie_stores_and_links_witness :
  ∃ c' m,
    Driver.store_movie (λ _, None) (λ _, inr false)
      (Driver.MovieRow 6 (Driver.Str "Heat (1995)") (Driver.Str "Action|Crime"))
      "Heat" (Some 1995)
      (Driver.Fields (JStr "tt0113277") (Some 170) (JStr "A heist.") JNull
         (JStr "Crime, Drama") (JStr "Michael Mann"))
      (Db.Conn (Db.Tables [] [(1, "Drama")] [] [] [] []) 0) = Db.Ok tt c'
    ∧ m ∈ Db.movies (Db.tx c')
    ∧ Db.mv_movie_id m = Db.SText "tt0113277"
    ∧ Db.mv_runtime_minutes m = Some 170
    ∧ Hoare.has_genre (Db.mv_id m) "Action" (Db.tx c')
    ∧ Hoare.has_genre (Db.mv_id m) "Drama" (Db.tx c')
    ∧ Hoare.has_director (Db.mv_id m) "Michael Mann" (Db.tx c').
Proof.
  destruct (store_movie_stores_and_links (λ _, None) (λ _, inr false)
              (Driver.MovieRow 6 (Driver.Str "Heat (1995)") (Driver.Str "Action|Crime"))
              "Heat" (Some 1995)
              (Driver.Fields (JStr "tt0113277") (Some 170) (JStr "A heist.") JNull
                 (JStr "Crime, Drama") (JStr "Michael Mann"))
              (Db.Conn (Db.Tables [] [(1, "Drama")] [] [] [] []) 0)
              (λ _, eq_refl) eq_refl)
    as (c' & m & mid & H1 & H2 & H3 & H4 & H5 & H6 & H7 & H8 & H9 & H10 & H11).
  exists c', m. split; [exact H1|]. split; [exact H2|].
  assert (Db.mv_movie_id m = Db.SText "tt0113277") as Hid.
  { vm_compute in H1. injection H1 as <-.
    apply list_elem_of_singleton in H2. by rewrite H2. }
  split; [exact Hid|]. split; [exact H6|].
  split; [apply (H9 _ _ eq_refl); vm_compute; by left|].
  split; [apply (H10 _ _ eq_refl); vm_compute; right; by left|].
  apply (H11 _ _ eq_refl). vm_compute. by left.
Defined.

(** * A run without usable records *)
Section OfflineRun.
Import Db Hoare Driver Records.
Variable faults : nat → option exn.
Variable fs : string → option exn.
Variable network : nat → string → option string → Omdb.response.
Variable isna_list : list json → exn + bool.
Hypothesis no_faults : ∀ n, faults n = None.
Hypothesis no_fs : ∀ file, fs file = None.

Lemma declined_extract omdb :
  declined omdb = true → extract omdb = inr (Fields JNull None JNull JNull JNull JNull).
Proof.
  destruct omdb as [| | | | |items]; try done. simpl. unfold extract, Json.get.
  fold (field items "Response"). by destruct (is_True (field items "Response")).
Qed.

Lemma catalogued_grows row title t t' :
  grows t t' → catalogued row title t → catalogued row title t'.
Proof.
  intros [[k Hk] [kg Hkg] _ [kmg Hkmg] _ _] (m & Hin & Hmatch & Hgen).
  assert (movie_key m ∈ movie_key <$> movies t') as Hin'.
  { rewrite Hk, elem_of_app. left. by apply list_elem_of_fmap_2. }
  apply list_elem_of_fmap in Hin' as (m' & Heq & Hm'). unfold movie_key in Heq.
  injection Heq as Hid Hmid Ht. exists m'. split; [done|]. split.
  - unfold movie_matches in *. by rewrite <-Hmid, <-Ht.
  - intros gs g Hgs Hg. destruct (Hgen gs g Hgs Hg) as (x & H1 & H2). exists x.
    rewrite <-Hid, Hkg, Hkmg, !elem_of_app. auto.
Qed.

Lemma process_movie_offline row w c :
  row_ok row = true →
  (∀ file d, Omdb.cache w !! file = Some d → declined d = true) →
  (∀ n t y d, network n t y = Omdb.Structured d → declined d = true) →
  ∃ title_full c' w',
    row_title row = Str title_full
    ∧ process_movie faults fs network isna_list row w c = (Ok tt c', w')
    ∧ (∀ file d, Omdb.cache w' !! file = Some d → declined d = true)
    ∧ grows (tx c) (tx c')
    ∧ catalogued row (Title.parse_title title_full).1 (tx c').
Proof.
  intros Hrow Hc Hn. unfold process_movie. unfold row_ok in Hrow.
  destruct (row_title row) as [title_full| |]; [|done..].
  apply andb_true_iff in Hrow as [Hyear Hcell]. exists title_full.
  destruct (Title.parse_title title_full) as [title year]. simpl in Hyear |- *.
  pose proof (omdb_lookup_sat fs network declined title year w eq_refl Hc Hn) as Hl.
  destruct (Omdb.omdb_lookup fs network title year w) as [e|[omdb w1]].
  { by rewrite no_fs in Hl. }
  destruct Hl as [Hr Hc']. rewrite (declined_extract _ Hr).
  set (f := Fields JNull None JNull JNull JNull JNull).
  assert (store_ok row year f = true) as Hok.
  { unfold store_ok. by rewrite Hyear, Hcell. }
  pose proof (store_movie_grows faults isna_list (tx c) row title year f c (grows_refl _)) as Hg.
  destruct (store_movie_post faults isna_list no_faults row title year f c Hok)
    as (c' & m & mid & Hs & Hin & Hmid & Hmatch & _ & _ & _ & _ & Hgen & _).
  rewrite Hs in Hg. exists c', w1. split; [done|]. split; [by rewrite Hs|].
  split; [done|]. split; [done|].
  exists m. split; [done|]. split; [|done]. simpl in Hmid. by injection Hmid as <-.
Qed.

Lemma movie_loop_offline movies_df w c :
  Forall (λ row, row_ok row = true) movies_df →
  (∀ file d, Omdb.cache w !! file = Some d → declined d = true) →
  (∀ n t y d, network n t y = Omdb.Structured d → declined d = true) →
  ∃ c' w', movie_loop faults fs network isna_list movies_df w c = (Ok tt c', w')
    ∧ grows (tx c) (tx c')
    ∧ ∀ row title_full, row ∈ movies_df → row_title row = Str title_full →
        catalogued row (Title.parse_title title_full).1 (tx c').
Proof.
  intros Ht Hc Hn. revert w c Hc.
  induction Ht as [|row rest Hrow _ IH]; intros w c Hc; simpl.
  - exists c, w. split; [done|]. split; [apply grows_refl|]. by intros ? ? ?%elem_of_nil.
  - destruct (process_movie_offline row w c Hrow Hc Hn)
      as (title_full & c1 & w1 & Htitle & -> & Hc1 & Hg1 & Hcat).
    destruct (IH w1 c1 Hc1) as (c' & w' & -> & Hg & Hall).
    exists c', w'. split; [done|]. split; [by apply (grows_trans _ (tx c1))|].
    intros r tf [->|Hr]%elem_of_cons Hrt; [|by apply Hall].
    rewrite Htitle in Hrt. injection Hrt as <-. by apply (catalogued_grows _ _ (tx c1)).
Qed.

End OfflineRun.

(** X18: a run that gets no usable record still stores the catalog. The
    engine accepts every statement and the file system raises nothing when
    a cache file is looked for; every catalog row has a text title whose
    year, if one is read from it, fits 64 bits, and a genres cell that is
    text, missing or zero; the cache and the service hold only [dict]
    records whose [Response] is not ["True"] (requests may fail as well).
    Then the run commits, and every catalog row has a movie row that its
    fallback identity or its parsed title selects, joined to each genre the
    catalog lists for it. *)
Theorem main_offline_stores_catalog (faults : nat → option exn) (fs : string → option exn)
    (network : nat → string → option string → Omdb.response)
    (isna_list : list json → exn + bool)
    (movies_df : list Driver.movie_row) (ratings_df : list Db.rating)
    (db : Db.tables) (w : Omdb.world) :
  (∀ n, faults n = None) →
  (∀ file, fs file = None) →
  Forall (λ row, Records.row_ok row = true) movies_df →
  (∀ file d, Omdb.cache w !! file = Some d → Records.declined d = true) →
  (∀ n t y d, network n t y = Omdb.Structured d → Records.declined d = true) →
  let r := Driver.main faults fs network isna_list movies_df ratings_df db w in
  Driver.status r = None
  ∧ ∀ row title_full, row ∈ movies_df → Driver.row_title row = Driver.Str title_full →
      Hoare.catalogued row (Title.parse_title title_full).1 (Driver.committed r).
Proof.
  intros Hf Hfs Ht Hc Hn r. unfold r, Driver.main.
  pose proof (load_ratings_outcome faults ratings_df (Db.Conn db 0)) as Hl.
  destruct (Db.load_ratings faults ratings_df (Db.Conn db 0)) as [u c1|e c1].
  2:{ destruct Hl as [n Hl]. by rewrite Hf in Hl. }
  destruct (movie_loop_offline faults fs network isna_list Hf Hfs movies_df w c1 Ht Hc Hn)
    as (c2 & w' & -> & _ & Hall).
  rewrite Hf. simpl. split; [done|exact Hall].
Qed.

Lemma main_offline_stores_catalog_witness :
  let r := Driver.main (λ _, None) (λ _, None)
             (λ n _ _, if (n <? 2)%nat then Omdb.TransportError
                       else Omdb.Structured (JObj [("Response", JStr "False")]))
             (λ _, inr false)
             [Driver.MovieRow 6 (Driver.Str "Heat (1995)") (Driver.Str "Action|Crime")]
             [] (Db.Tables [] [] [] [] [] []) (Omdb.World ∅ 0 []) in
  Driver.status r = None
  ∧ Hoare.catalogued (Driver.MovieRow 6 (Driver.Str "Heat (1995)") (Driver.Str "Action|Crime"))
      "Heat" (Driver.committed r).
Proof.
  intros r.
  assert (∀ file d, Omdb.cache (Omdb.World ∅ 0 []) !! file = Some d →
            Records.declined d = true) as Hc.
  { intros file d H. simpl in H. by rewrite lookup_empty in H. }
  assert (∀ (n : nat) (t : string) (y : option string) d,
            (if (n <? 2)%nat then Omdb.TransportError
             else Omdb.Structured (JObj [("Response", JStr "False")])) = Omdb.Structured d →
            Records.declined d = true) as Hn.
  { intros n t y d. destruct (n <? 2)%nat; [done|]. by intros [= <-]. }
  destruct (main_offline_stores_catalog (λ _, None) (λ _, None)
              (λ n _ _, if (n <? 2)%nat then Omdb.TransportError
                        else Omdb.Structured (JObj [("Response", JStr "False")]))
              (λ _, inr false)
              [Driver.MovieRow 6 (Driver.Str "Heat (1995)") (Driver.Str "Action|Crime")]
              [] (Db.Tables [] [] [] [] [] []) (Omdb.World ∅ 0 [])
              (λ _, eq_refl) (λ _, eq_refl) ltac:(repeat constructor) Hc Hn) as [H1 H2].
  split; [exact H1|]. apply (H2 _ "Heat (1995)"); [by left|done].
Defined.

(** * A catalog row without a title *)
Section MissingTitle.
Import Db Driver.
Variable faults : nat → option exn.
Variable fs : string → option exn.
Variable network : nat → string → option string → Omdb.response.
Variable isna_list : list json → exn + bool.

Lemma movie_loop_missing_title movies_df row w c :
  row ∈ movies_df → (∀ s, row_title row ≠ Str s) →
  ∃ e c' w', movie_loop faults fs network isna_list movies_df w c = (Raise e c', w').
Proof.
  intros Hin Hnone. revert w c.
  induction movies_df as [|x rest IH]; intros w c; [by apply elem_of_nil in Hin|].
  simpl. destruct (process_movie faults fs network isna_list x w c) as [[u c1|e c1] w1] eqn:Hp.
  - apply elem_of_cons in Hin as [<-|Hin]; [|by apply IH].
    unfold process_movie in Hp. destruct (row_title row) as [s| |]; [|done..].
    by destruct (Hnone s).
  - by exists e, c1, w1.
Qed.

End MissingTitle.

(** X19: a catalog that has a row whose title is no text (a missing cell, or
    a number) cannot be loaded: whatever the engine, the file system and the
    service do, the run ends with an exception and the store is left as it
    was, the ratings included. *)
Theorem main_needs_titles (faults : nat → option exn) (fs : string → option exn)
    (network : nat → string → option string → Omdb.response)
    (isna_list : list json → exn + bool)
    (movies_df : list Driver.movie_row) (ratings_df : list Db.rating)
    (db : Db.tables) (w : Omdb.world) (row : Driver.movie_row) :
  row ∈ movies_df → (∀ s, Driver.row_title row ≠ Driver.Str s) →
  let r := Driver.main faults fs network isna_list movies_df ratings_df db w in
  (∃ e, Driver.status r = Some e) ∧ Driver.committed r = db.
Proof.
  intros Hin Hnone r. unfold r, Driver.main.
  destruct (Db.load_ratings faults ratings_df (Db.Conn db 0)) as [u c1|e c1]; [|by eauto].
  destruct (movie_loop_missing_title faults fs network isna_list movies_df row w c1 Hin Hnone)
    as (e & c' & w' & ->).
  by eauto.
Qed.

Lemma main_needs_titles_witness :
  let r := Driver.main (λ _, None) (λ _, None) (λ _ _ _, Omdb.TransportError) (λ _, inr false)
             [Driver.MovieRow 6 (Driver.Str "Heat (1995)") (Driver.Str "Action|Crime");
              Driver.MovieRow 7 Driver.NaN (Driver.Str "Drama")]
             [Db.Rating 1 6 4 100] (Db.Tables [] [] [] [] [] []) (Omdb.World ∅ 0 []) in
  Driver.status r = Some AttributeError ∧ Driver.committed r = Db.Tables [] [] [] [] [] [].
Proof.
  intros r.
  destruct (main_needs_titles (λ _, None) (λ _, None) (λ _ _ _, Omdb.TransportError)
              (λ _, inr false)
              [Driver.MovieRow 6 (Driver.Str "Heat (1995)") (Driver.Str "Action|Crime");
               Driver.MovieRow 7 Driver.NaN (Driver.Str "Drama")]
              [Db.Rating 1 6 4 100] (Db.Tables [] [] [] [] [] []) (Omdb.World ∅ 0 [])
              (Driver.MovieRow 7 Driver.NaN (Driver.Str "Drama"))
              ltac:(right; by left) ltac:(done)) as [_ H].
  split; [vm_compute; reflexivity|exact H].
Defined.
